(** * ULID codec of [ulid_transform]: a shallow embedding and its properties

    The development follows the three C++ sources of the package:
    - [ulid_struct.hh]   : the identifier as [uint8_t data[16]]   (Module [Struct]);
    - [ulid_uint128.hh]  : the identifier as one [__uint128_t]    (Module [Uint128]);
    - [ulid_wrapper.cpp] : the C entry points built on either one (Module [Wrapper]);

    and the two small helpers shipped beside it:
    - [bluetooth_data_tools/utils_wrapper.h] : the text of a Bluetooth
      address (Module [Bluetooth]);
    - [fnv_hash_fast/fnv_wrapper.h] : the FNV-1a hash of a string (Module [Fnv]).

    Machine integers are modelled as [Z], every narrowing conversion and
    every wrap-around of a fixed-width unsigned type being written out
    ([u8], [u64], [u128]).  Bit operations are those of [Z]. *)

From Stdlib Require Import ZArith QArith Qround List Ascii String Bool Lia.
From Stdlib Require Import Floats.SpecFloat.
From stdpp Require Import base numbers list.

Local Open Scope Z_scope.

(** ** Fixed-width integers *)

(** [static_cast<uint8_t>(x)] *)
Definition u8 (x : Z) : Z := x mod 2 ^ 8.
(** arithmetic in [uint64_t] *)
Definition u64 (x : Z) : Z := x mod 2 ^ 64.
(** arithmetic in [__uint128_t] *)
Definition u128 (x : Z) : Z := x mod 2 ^ 128.
(** arithmetic in [int64_t], two's complement *)
Definition i64 (x : Z) : Z := (x + 2 ^ 63) mod 2 ^ 64 - 2 ^ 63.

Definition is_byte (b : Z) : Prop := 0 <= b < 256.
(** A 5-bit subscript of the alphabet. *)
Definition is_index (i : Z) : Prop := 0 <= i < 32.

(** The C operators [&] and [|]; the shifts [<<] and [>>] are stdpp's
    [≪] and [≫].  The sources parenthesise every use. *)
Infix ".&" := Z.land (at level 40, left associativity) : Z_scope.
Infix ".|" := Z.lor (at level 50, left associativity) : Z_scope.

(** ** The tables shared by both headers *)

Definition NUL : ascii := "000"%char.

(** [static const char Encoding[33] = "0123456789ABCDEFGHJKMNPQRSTVWXYZ";]
    (the 33rd element is the terminator). *)
Definition Encoding : list ascii :=
  list_ascii_of_string "0123456789ABCDEFGHJKMNPQRSTVWXYZ" ++ [NUL].

(** [Encoding[i]] *)
Definition Encoding_at (i : Z) : ascii := nth (Z.to_nat i) Encoding NUL.

(** [static const uint8_t dec[256]]: 0xFF marks an invalid character. *)
Definition dec : list Z :=
  [ 0xFF; 0xFF; 0xFF; 0xFF; 0xFF; 0xFF; 0xFF; 0xFF;
    0xFF; 0xFF; 0xFF; 0xFF; 0xFF; 0xFF; 0xFF; 0xFF;
    0xFF; 0xFF; 0xFF; 0xFF; 0xFF; 0xFF; 0xFF; 0xFF;
    0xFF; 0xFF; 0xFF; 0xFF; 0xFF; 0xFF; 0xFF; 0xFF;

    0xFF; 0xFF; 0xFF; 0xFF; 0xFF; 0xFF; 0xFF; 0xFF;
    0xFF; 0xFF; 0xFF; 0xFF; 0xFF; 0xFF; 0xFF; 0xFF;
    (* 0     1     2     3     4     5     6     7  *)
    0x00; 0x01; 0x02; 0x03; 0x04; 0x05; 0x06; 0x07;
    (* 8     9                                      *)
    0x08; 0x09; 0xFF; 0xFF; 0xFF; 0xFF; 0xFF; 0xFF;

    (*    10(A) 11(B) 12(C) 13(D) 14(E) 15(F) 16(G) *)
    0xFF; 0x0A; 0x0B; 0x0C; 0x0D; 0x0E; 0x0F; 0x10;
    (*17(H)     18(J) 19(K)       20(M) 21(N)       *)
    0x11; 0xFF; 0x12; 0x13; 0xFF; 0x14; 0x15; 0xFF;
    (*22(P)23(Q)24(R) 25(S) 26(T)       27(V) 28(W) *)
    0x16; 0x17; 0x18; 0x19; 0x1A; 0xFF; 0x1B; 0x1C;
    (*29(X)30(Y)31(Z)                               *)
    0x1D; 0x1E; 0x1F; 0xFF; 0xFF; 0xFF; 0xFF; 0xFF;

    0xFF; 0xFF; 0xFF; 0xFF; 0xFF; 0xFF; 0xFF; 0xFF;
    0xFF; 0xFF; 0xFF; 0xFF; 0xFF; 0xFF; 0xFF; 0xFF;
    0xFF; 0xFF; 0xFF; 0xFF; 0xFF; 0xFF; 0xFF; 0xFF;
    0xFF; 0xFF; 0xFF; 0xFF; 0xFF; 0xFF; 0xFF; 0xFF;

    0xFF; 0xFF; 0xFF; 0xFF; 0xFF; 0xFF; 0xFF; 0xFF;
    0xFF; 0xFF; 0xFF; 0xFF; 0xFF; 0xFF; 0xFF; 0xFF;
    0xFF; 0xFF; 0xFF; 0xFF; 0xFF; 0xFF; 0xFF; 0xFF;
    0xFF; 0xFF; 0xFF; 0xFF; 0xFF; 0xFF; 0xFF; 0xFF;

    0xFF; 0xFF; 0xFF; 0xFF; 0xFF; 0xFF; 0xFF; 0xFF;
    0xFF; 0xFF; 0xFF; 0xFF; 0xFF; 0xFF; 0xFF; 0xFF;
    0xFF; 0xFF; 0xFF; 0xFF; 0xFF; 0xFF; 0xFF; 0xFF;
    0xFF; 0xFF; 0xFF; 0xFF; 0xFF; 0xFF; 0xFF; 0xFF;

    0xFF; 0xFF; 0xFF; 0xFF; 0xFF; 0xFF; 0xFF; 0xFF;
    0xFF; 0xFF; 0xFF; 0xFF; 0xFF; 0xFF; 0xFF; 0xFF;
    0xFF; 0xFF; 0xFF; 0xFF; 0xFF; 0xFF; 0xFF; 0xFF;
    0xFF; 0xFF; 0xFF; 0xFF; 0xFF; 0xFF; 0xFF; 0xFF;

    0xFF; 0xFF; 0xFF; 0xFF; 0xFF; 0xFF; 0xFF; 0xFF;
    0xFF; 0xFF; 0xFF; 0xFF; 0xFF; 0xFF; 0xFF; 0xFF;
    0xFF; 0xFF; 0xFF; 0xFF; 0xFF; 0xFF; 0xFF; 0xFF;
    0xFF; 0xFF; 0xFF; 0xFF; 0xFF; 0xFF; 0xFF; 0xFF ].

(** [dec[i]] for an index inside the table. *)
Definition dec_at (i : Z) : Z := nth (Z.to_nat i) dec 0xFF.

(** ** Characters and C strings *)

(** [int(c)] for a [char c].  Whether plain [char] is signed is fixed by
    the platform ABI; [char_signed] is that choice. *)
Definition int_of_char (char_signed : bool) (c : ascii) : Z :=
  let n := Z.of_N (N_of_ascii c) in
  if char_signed && (128 <=? n) then n - 256 else n.

(** An index with which [dec] may be read. *)
Definition in_table (i : Z) : bool := (0 <=? i) && (i <? 256).

(** What a C string holds: the characters before the first NUL. *)
Fixpoint c_str_prefix (p : list ascii) : list ascii :=
  match p with
  | [] => []
  | c :: p' => if Ascii.eqb c NUL then [] else c :: c_str_prefix p'
  end.

(** The [std::string] built from a character pointer. *)
Definition string_of_c_str (p : list ascii) : string :=
  string_of_list_ascii (c_str_prefix p).

(** [s.c_str()]: the characters followed by the terminator. *)
Definition c_str (s : string) : list ascii :=
  list_ascii_of_string s ++ [NUL].

(** ** A byte source, threaded as state *)

Section ByteSource.
Context {S : Type}.

(** A computation that may draw from a source whose state is [S]. *)
Definition M (A : Type) : Type := S -> A * S.

Definition ret {A} (a : A) : M A := fun s => (a, s).
Definition bind {A B} (m : M A) (k : A -> M B) : M B :=
  fun s => let '(a, s') := m s in k a s'.
End ByteSource.

Notation "'let!' x ':=' c1 'in' c2" := (bind c1 (fun x => c2))
  (at level 10, x name, c1 at level 100, c2 at level 200).

(** Running a source [n] times. *)
Fixpoint draws {S} (rng : S -> Z * S) (n : nat) (s : S) : list Z * S :=
  match n with
  | O => ([], s)
  | Datatypes.S n' => let '(b, s1) := rng s in
                      let '(bs, s2) := draws rng n' s1 in (b :: bs, s2)
  end.

(** A source instrumented with the number of calls made to it. *)
Definition counting {S} (rng : S -> Z * S) : S * nat -> Z * (S * nat) :=
  fun '(s, n) => let '(b, s') := rng s in (b, (s', Datatypes.S n)).

(** ** The system clock *)

(** A [std::chrono::system_clock::time_point] is its count of clock ticks
    since the epoch.  The tick is fixed by the C++ library; [ticks_per_ms]
    of them make a millisecond (10^6 with libstdc++, 10^3 with libc++,
    10^4 with the Microsoft library). *)

(** [time_point_cast<milliseconds>(tp).time_since_epoch().count()]: an
    integer division, which truncates toward zero. *)
Definition ms_of_time_point (ticks_per_ms : Z) (time_point : Z) : Z :=
  Z.quot time_point ticks_per_ms.

(** [system_clock::from_time_t(t)]: [t] seconds, counted in ticks. *)
Definition from_time_t (ticks_per_ms : Z) (t : Z) : Z :=
  i64 (t * (1000 * ticks_per_ms)).

(** The conversion of [milliseconds{ans}] to the clock's duration: a
    multiplication in [int64_t].  When the product does not fit (with 10^6
    ticks to the millisecond, from 9223372036855 milliseconds on) the
    result taken here is the wrap-around of the two's-complement
    multiplication. *)
Definition time_point_of_ms (ticks_per_ms : Z) (ans : Z) : Z :=
  i64 (ans * ticks_per_ms).

(** ** [ulid_struct.hh]: the identifier as an array of 16 bytes *)

Module Struct.

(** [struct ULID { uint8_t data[16]; }] *)
Record ULID : Type := mkULID { data : list Z }.

(** What the C++ type guarantees of every value: 16 elements, each a byte. *)
Definition ULID_wf (u : ULID) : Prop :=
  length (data u) = 16%nat /\ Forall is_byte (data u).

(** [ulid.data[i]] read, and [ulid.data[i] = v] written. *)
Definition get (u : ULID) (i : nat) : Z := data u !!! i.
Definition set (u : ULID) (i : nat) (v : Z) : ULID := mkULID (<[i := v]> (data u)).

Notation "u .[ i ]" := (get u i%nat) (at level 1, left associativity, format "u .[ i ]").
Notation "u .[ i <- v ]" := (set u i%nat v) (at level 1, left associativity).

(** [ULID()] *)
Definition ULID_zero : ULID :=
  mkULID [0; 0; 0; 0; 0; 0; 0; 0; 0; 0; 0; 0; 0; 0; 0; 0].

(** [void EncodeTimestamp(int64_t timestamp, ULID& ulid)] *)
Definition EncodeTimestamp (timestamp : Z) (ulid : ULID) : ULID :=
  let ulid := ulid.[0 <- u8 (timestamp ≫ 40)] in
  let ulid := ulid.[1 <- u8 (timestamp ≫ 32)] in
  let ulid := ulid.[2 <- u8 (timestamp ≫ 24)] in
  let ulid := ulid.[3 <- u8 (timestamp ≫ 16)] in
  let ulid := ulid.[4 <- u8 (timestamp ≫ 8)] in
  let ulid := ulid.[5 <- u8 timestamp] in
  ulid.

Section Entropy.
Context {S : Type}.
(** [const std::function<uint8_t()>& rng]: each call yields a byte and
    advances the state of the source. *)
Variable rng : S -> Z * S.

(** [void EncodeEntropy(const std::function<uint8_t()>& rng, ULID& ulid)] *)
Definition EncodeEntropy (ulid : ULID) : M ULID :=
  let! r := rng in let ulid := ulid.[6 <- r] in
  let! r := rng in let ulid := ulid.[7 <- r] in
  let! r := rng in let ulid := ulid.[8 <- r] in
  let! r := rng in let ulid := ulid.[9 <- r] in
  let! r := rng in let ulid := ulid.[10 <- r] in
  let! r := rng in let ulid := ulid.[11 <- r] in
  let! r := rng in let ulid := ulid.[12 <- r] in
  let! r := rng in let ulid := ulid.[13 <- r] in
  let! r := rng in let ulid := ulid.[14 <- r] in
  let! r := rng in let ulid := ulid.[15 <- r] in
  ret ulid.
End Entropy.

Section EntropyRand.
Context {S : Type}.
(** [std::rand()] with its hidden state, and the platform's [RAND_MAX]. *)
Variable rand : S -> Z * S.
Variable RAND_MAX : Z.

(** [static_cast<uint8_t>((std::rand() * 255ull) / RAND_MAX)] *)
Definition rand_byte : M Z :=
  let! r := rand in ret (u8 (u64 (r * 255) / RAND_MAX)).

(** [void EncodeEntropyRand(ULID& ulid)] *)
Definition EncodeEntropyRand (ulid : ULID) : M ULID :=
  let! r := rand_byte in let ulid := ulid.[6 <- r] in
  let! r := rand_byte in let ulid := ulid.[7 <- r] in
  let! r := rand_byte in let ulid := ulid.[8 <- r] in
  let! r := rand_byte in let ulid := ulid.[9 <- r] in
  let! r := rand_byte in let ulid := ulid.[10 <- r] in
  let! r := rand_byte in let ulid := ulid.[11 <- r] in
  let! r := rand_byte in let ulid := ulid.[12 <- r] in
  let! r := rand_byte in let ulid := ulid.[13 <- r] in
  let! r := rand_byte in let ulid := ulid.[14 <- r] in
  let! r := rand_byte in let ulid := ulid.[15 <- r] in
  ret ulid.
End EntropyRand.

(** [void MarshalTo(const ULID& ulid, char dst[26])] *)
Definition MarshalTo (ulid : ULID) : list ascii :=
  [ (* 10 byte timestamp *)
    Encoding_at ((ulid.[0] .& 224) ≫ 5);
    Encoding_at (ulid.[0] .& 31);
    Encoding_at ((ulid.[1] .& 248) ≫ 3);
    Encoding_at (((ulid.[1] .& 7) ≪ 2) .| ((ulid.[2] .& 192) ≫ 6));
    Encoding_at ((ulid.[2] .& 62) ≫ 1);
    Encoding_at (((ulid.[2] .& 1) ≪ 4) .| ((ulid.[3] .& 240) ≫ 4));
    Encoding_at (((ulid.[3] .& 15) ≪ 1) .| ((ulid.[4] .& 128) ≫ 7));
    Encoding_at ((ulid.[4] .& 124) ≫ 2);
    Encoding_at (((ulid.[4] .& 3) ≪ 3) .| ((ulid.[5] .& 224) ≫ 5));
    Encoding_at (ulid.[5] .& 31);
    (* 16 bytes of entropy *)
    Encoding_at ((ulid.[6] .& 248) ≫ 3);
    Encoding_at (((ulid.[6] .& 7) ≪ 2) .| ((ulid.[7] .& 192) ≫ 6));
    Encoding_at ((ulid.[7] .& 62) ≫ 1);
    Encoding_at (((ulid.[7] .& 1) ≪ 4) .| ((ulid.[8] .& 240) ≫ 4));
    Encoding_at (((ulid.[8] .& 15) ≪ 1) .| ((ulid.[9] .& 128) ≫ 7));
    Encoding_at ((ulid.[9] .& 124) ≫ 2);
    Encoding_at (((ulid.[9] .& 3) ≪ 3) .| ((ulid.[10] .& 224) ≫ 5));
    Encoding_at (ulid.[10] .& 31);
    Encoding_at ((ulid.[11] .& 248) ≫ 3);
    Encoding_at (((ulid.[11] .& 7) ≪ 2) .| ((ulid.[12] .& 192) ≫ 6));
    Encoding_at ((ulid.[12] .& 62) ≫ 1);
    Encoding_at (((ulid.[12] .& 1) ≪ 4) .| ((ulid.[13] .& 240) ≫ 4));
    Encoding_at (((ulid.[13] .& 15) ≪ 1) .| ((ulid.[14] .& 128) ≫ 7));
    Encoding_at ((ulid.[14] .& 124) ≫ 2);
    Encoding_at (((ulid.[14] .& 3) ≪ 3) .| ((ulid.[15] .& 224) ≫ 5));
    Encoding_at (ulid.[15] .& 31) ].

(** The 26 subscripts of [Encoding] in [MarshalTo], in the order of [dst]. *)
Definition MarshalTo_indices (ulid : ULID) : list Z :=
  [ (ulid.[0] .& 224) ≫ 5;
    ulid.[0] .& 31;
    (ulid.[1] .& 248) ≫ 3;
    ((ulid.[1] .& 7) ≪ 2) .| ((ulid.[2] .& 192) ≫ 6);
    (ulid.[2] .& 62) ≫ 1;
    ((ulid.[2] .& 1) ≪ 4) .| ((ulid.[3] .& 240) ≫ 4);
    ((ulid.[3] .& 15) ≪ 1) .| ((ulid.[4] .& 128) ≫ 7);
    (ulid.[4] .& 124) ≫ 2;
    ((ulid.[4] .& 3) ≪ 3) .| ((ulid.[5] .& 224) ≫ 5);
    ulid.[5] .& 31;
    (ulid.[6] .& 248) ≫ 3;
    ((ulid.[6] .& 7) ≪ 2) .| ((ulid.[7] .& 192) ≫ 6);
    (ulid.[7] .& 62) ≫ 1;
    ((ulid.[7] .& 1) ≪ 4) .| ((ulid.[8] .& 240) ≫ 4);
    ((ulid.[8] .& 15) ≪ 1) .| ((ulid.[9] .& 128) ≫ 7);
    (ulid.[9] .& 124) ≫ 2;
    ((ulid.[9] .& 3) ≪ 3) .| ((ulid.[10] .& 224) ≫ 5);
    ulid.[10] .& 31;
    (ulid.[11] .& 248) ≫ 3;
    ((ulid.[11] .& 7) ≪ 2) .| ((ulid.[12] .& 192) ≫ 6);
    (ulid.[12] .& 62) ≫ 1;
    ((ulid.[12] .& 1) ≪ 4) .| ((ulid.[13] .& 240) ≫ 4);
    ((ulid.[13] .& 15) ≪ 1) .| ((ulid.[14] .& 128) ≫ 7);
    (ulid.[14] .& 124) ≫ 2;
    ((ulid.[14] .& 3) ≪ 3) .| ((ulid.[15] .& 224) ≫ 5);
    ulid.[15] .& 31 ].

(** [std::string Marshal(const ULID& ulid)]: [data[26] = 0], [MarshalTo]
    into [data], then the string up to the terminator. *)
Definition Marshal (ulid : ULID) : string :=
  string_of_c_str (MarshalTo ulid ++ [NUL]).

(** [void MarshalBinaryTo(const ULID& ulid, uint8_t dst[16])] *)
Definition MarshalBinaryTo (ulid : ULID) : list Z :=
  [ ulid.[0]; ulid.[1]; ulid.[2]; ulid.[3]; ulid.[4]; ulid.[5];
    ulid.[6]; ulid.[7]; ulid.[8]; ulid.[9]; ulid.[10]; ulid.[11];
    ulid.[12]; ulid.[13]; ulid.[14]; ulid.[15] ].

(** [std::vector<uint8_t> MarshalBinary(const ULID& ulid)] *)
Definition MarshalBinary (ulid : ULID) : list Z := MarshalBinaryTo ulid.

Section Text.
Variable char_signed : bool.

(** [dec[int(str[i])]], once the read is known to be inside the buffer
    and inside the table. *)
Definition D (str : list ascii) (i : nat) : Z :=
  dec_at (int_of_char char_signed (nth i str NUL)).

(** The reads [UnmarshalFrom] makes are defined: 26 characters are
    there, and each indexes [dec] inside its 256 entries. *)
Definition reads_defined (str : list ascii) : bool :=
  (26 <=? length str)%nat &&
  forallb (fun c => in_table (int_of_char char_signed c)) (take 26 str).

(** [void UnmarshalFrom(const char str[26], ULID& ulid)].  The operands
    are promoted to [int]; each assignment narrows to [uint8_t].
    [None] stands for a read outside [str] or outside [dec]. *)
Definition UnmarshalFrom (str : list ascii) (ulid : ULID) : option ULID :=
  if reads_defined str then
    (* timestamp *)
    let ulid := ulid.[0 <- u8 ((D str 0 ≪ 5) .| D str 1)] in
    let ulid := ulid.[1 <- u8 ((D str 2 ≪ 3) .| (D str 3 ≫ 2))] in
    let ulid := ulid.[2 <- u8 (((D str 3 ≪ 6) .| (D str 4 ≪ 1)) .| (D str 5 ≫ 4))] in
    let ulid := ulid.[3 <- u8 ((D str 5 ≪ 4) .| (D str 6 ≫ 1))] in
    let ulid := ulid.[4 <- u8 (((D str 6 ≪ 7) .| (D str 7 ≪ 2)) .| (D str 8 ≫ 3))] in
    let ulid := ulid.[5 <- u8 ((D str 8 ≪ 5) .| D str 9)] in
    (* entropy *)
    let ulid := ulid.[6 <- u8 ((D str 10 ≪ 3) .| (D str 11 ≫ 2))] in
    let ulid := ulid.[7 <- u8 (((D str 11 ≪ 6) .| (D str 12 ≪ 1)) .| (D str 13 ≫ 4))] in
    let ulid := ulid.[8 <- u8 ((D str 13 ≪ 4) .| (D str 14 ≫ 1))] in
    let ulid := ulid.[9 <- u8 (((D str 14 ≪ 7) .| (D str 15 ≪ 2)) .| (D str 16 ≫ 3))] in
    let ulid := ulid.[10 <- u8 ((D str 16 ≪ 5) .| D str 17)] in
    let ulid := ulid.[11 <- u8 ((D str 18 ≪ 3) .| (D str 19 ≫ 2))] in
    let ulid := ulid.[12 <- u8 (((D str 19 ≪ 6) .| (D str 20 ≪ 1)) .| (D str 21 ≫ 4))] in
    let ulid := ulid.[13 <- u8 ((D str 21 ≪ 4) .| (D str 22 ≫ 1))] in
    let ulid := ulid.[14 <- u8 (((D str 22 ≪ 7) .| (D str 23 ≪ 2)) .| (D str 24 ≫ 3))] in
    let ulid := ulid.[15 <- u8 ((D str 24 ≪ 5) .| D str 25)] in
    Some ulid
  else None.

(** [ULID Unmarshal(const std::string& str)] *)
Definition Unmarshal (str : string) : option ULID :=
  UnmarshalFrom (c_str str) ULID_zero.
End Text.

(** [void UnmarshalBinaryFrom(const uint8_t b[16], ULID& ulid)]; [None]
    when [b] holds fewer than the 16 bytes read. *)
Definition UnmarshalBinaryFrom (b : list Z) (ulid : ULID) : option ULID :=
  if (16 <=? length b)%nat then
    let B i := nth i b 0 in
    let ulid := ulid.[0 <- B 0%nat] in
    let ulid := ulid.[1 <- B 1%nat] in
    let ulid := ulid.[2 <- B 2%nat] in
    let ulid := ulid.[3 <- B 3%nat] in
    let ulid := ulid.[4 <- B 4%nat] in
    let ulid := ulid.[5 <- B 5%nat] in
    let ulid := ulid.[6 <- B 6%nat] in
    let ulid := ulid.[7 <- B 7%nat] in
    let ulid := ulid.[8 <- B 8%nat] in
    let ulid := ulid.[9 <- B 9%nat] in
    let ulid := ulid.[10 <- B 10%nat] in
    let ulid := ulid.[11 <- B 11%nat] in
    let ulid := ulid.[12 <- B 12%nat] in
    let ulid := ulid.[13 <- B 13%nat] in
    let ulid := ulid.[14 <- B 14%nat] in
    let ulid := ulid.[15 <- B 15%nat] in
    Some ulid
  else None.

(** [ULID UnmarshalBinary(const std::vector<uint8_t>& b)] *)
Definition UnmarshalBinary (b : list Z) : option ULID :=
  UnmarshalBinaryFrom b ULID_zero.

(** [(x < y) * -2 + 1] on two bytes *)
Definition lt_sign (x y : Z) : Z := (if x <? y then 1 else 0) * -2 + 1.

(** [int CompareULIDs(const ULID& ulid1, const ULID& ulid2)] *)
Definition CompareULIDs (ulid1 ulid2 : ULID) : Z :=
  if negb (ulid1.[0] =? ulid2.[0]) then lt_sign ulid1.[0] ulid2.[0] else
  if negb (ulid1.[1] =? ulid2.[1]) then lt_sign ulid1.[1] ulid2.[1] else
  if negb (ulid1.[2] =? ulid2.[2]) then lt_sign ulid1.[2] ulid2.[2] else
  if negb (ulid1.[3] =? ulid2.[3]) then lt_sign ulid1.[3] ulid2.[3] else
  if negb (ulid1.[4] =? ulid2.[4]) then lt_sign ulid1.[4] ulid2.[4] else
  if negb (ulid1.[5] =? ulid2.[5]) then lt_sign ulid1.[5] ulid2.[5] else
  if negb (ulid1.[6] =? ulid2.[6]) then lt_sign ulid1.[6] ulid2.[6] else
  if negb (ulid1.[7] =? ulid2.[7]) then lt_sign ulid1.[7] ulid2.[7] else
  if negb (ulid1.[8] =? ulid2.[8]) then lt_sign ulid1.[8] ulid2.[8] else
  if negb (ulid1.[9] =? ulid2.[9]) then lt_sign ulid1.[9] ulid2.[9] else
  if negb (ulid1.[10] =? ulid2.[10]) then lt_sign ulid1.[10] ulid2.[10] else
  if negb (ulid1.[11] =? ulid2.[11]) then lt_sign ulid1.[11] ulid2.[11] else
  if negb (ulid1.[12] =? ulid2.[12]) then lt_sign ulid1.[12] ulid2.[12] else
  if negb (ulid1.[13] =? ulid2.[13]) then lt_sign ulid1.[13] ulid2.[13] else
  if negb (ulid1.[14] =? ulid2.[14]) then lt_sign ulid1.[14] ulid2.[14] else
  if negb (ulid1.[15] =? ulid2.[15]) then lt_sign ulid1.[15] ulid2.[15] else
  0.

(** [time_point Time(const ULID& ulid)] up to its [return]: the value of
    the local [ans], the count of milliseconds read from bytes 0 to 5.
    What [Time] returns is the time point built from [milliseconds{ans}],
    which converts [ans] to the ticks of the clock: [Time_point] below. *)
Definition Time (ulid : ULID) : Z :=
  let ans := 0 in
  let ans := ans .| ulid.[0] in
  let ans := i64 (ans ≪ 8) in
  let ans := ans .| ulid.[1] in
  let ans := i64 (ans ≪ 8) in
  let ans := ans .| ulid.[2] in
  let ans := i64 (ans ≪ 8) in
  let ans := ans .| ulid.[3] in
  let ans := i64 (ans ≪ 8) in
  let ans := ans .| ulid.[4] in
  let ans := i64 (ans ≪ 8) in
  let ans := ans .| ulid.[5] in
  ans.

(** [ULID(uint64_t val)] *)
Definition ULID_from_uint64 (val : Z) : ULID :=
  let ulid := ULID_zero in
  let ulid := ulid.[15 <- u8 val] in
  let val := val ≫ 8 in
  let ulid := ulid.[14 <- u8 val] in
  let val := val ≫ 8 in
  let ulid := ulid.[13 <- u8 val] in
  let val := val ≫ 8 in
  let ulid := ulid.[12 <- u8 val] in
  let val := val ≫ 8 in
  let ulid := ulid.[11 <- u8 val] in
  let val := val ≫ 8 in
  let ulid := ulid.[10 <- u8 val] in
  let val := val ≫ 8 in
  let ulid := ulid.[9 <- u8 val] in
  let val := val ≫ 8 in
  let ulid := ulid.[8 <- u8 val] in
  let ulid := ulid.[7 <- 0] in
  let ulid := ulid.[6 <- 0] in
  let ulid := ulid.[5 <- 0] in
  let ulid := ulid.[4 <- 0] in
  let ulid := ulid.[3 <- 0] in
  let ulid := ulid.[2 <- 0] in
  let ulid := ulid.[1 <- 0] in
  let ulid := ulid.[0 <- 0] in
  ulid.

Section Clock.
Variable ticks_per_ms : Z.
Context {S : Type}.

(** [void EncodeTime(time_point time_point, ULID& ulid)] *)
Definition EncodeTime (time_point : Z) (ulid : ULID) : ULID :=
  let time_ms := ms_of_time_point ticks_per_ms time_point in
  let timestamp := time_ms in
  EncodeTimestamp timestamp ulid.

(** [void EncodeTimeNow(ULID& ulid)]; [now_s] is what [time(nullptr)]
    returns. *)
Definition EncodeTimeNow (now_s : Z) (ulid : ULID) : ULID :=
  let time_now := from_time_t ticks_per_ms now_s in
  EncodeTime time_now ulid.

(** [void EncodeTimeSystemClockNow(ULID& ulid)]; [now] is what
    [system_clock::now()] returns. *)
Definition EncodeTimeSystemClockNow (now : Z) (ulid : ULID) : ULID :=
  EncodeTime now ulid.

(** [void Encode(time_point timestamp, const std::function<uint8_t()>& rng,
    ULID& ulid)] *)
Definition Encode (timestamp : Z) (rng : S -> Z * S) (ulid : ULID) : M ULID :=
  let ulid := EncodeTime timestamp ulid in
  EncodeEntropy rng ulid.

(** [void EncodeNowRand(ULID& ulid)] *)
Definition EncodeNowRand (now_s : Z) (rand : S -> Z * S) (RAND_MAX : Z)
    (ulid : ULID) : M ULID :=
  let ulid := EncodeTimeNow now_s ulid in
  EncodeEntropyRand rand RAND_MAX ulid.

(** [ULID Create(time_point timestamp, const std::function<uint8_t()>& rng)] *)
Definition Create (timestamp : Z) (rng : S -> Z * S) : M ULID :=
  let ulid := ULID_zero in
  Encode timestamp rng ulid.

(** [ULID CreateNowRand()] *)
Definition CreateNowRand (now_s : Z) (rand : S -> Z * S) (RAND_MAX : Z) : M ULID :=
  let ulid := ULID_zero in
  EncodeNowRand now_s rand RAND_MAX ulid.

(** The [time_point] that [Time] returns, built from [milliseconds{ans}]. *)
Definition Time_point (ulid : ULID) : Z :=
  time_point_of_ms ticks_per_ms (Time ulid).
End Clock.

End Struct.

(** ** [ulid_uint128.hh]: the identifier as one 128-bit unsigned integer *)

Module Uint128.

(** [typedef __uint128_t ULID;] *)
Definition ULID : Type := Z.

(** What the C++ type guarantees of every value. *)
Definition ULID_wf (u : ULID) : Prop := 0 <= u < 2 ^ 128.

(** [void EncodeTimestamp(int64_t timestamp, ULID& ulid)] *)
Definition EncodeTimestamp (timestamp : Z) (ulid : ULID) : ULID :=
  let t := u8 (timestamp ≫ 40) in
  let t := u128 (t ≪ 8) in
  let t := t .| u8 (timestamp ≫ 32) in
  let t := u128 (t ≪ 8) in
  let t := t .| u8 (timestamp ≫ 24) in
  let t := u128 (t ≪ 8) in
  let t := t .| u8 (timestamp ≫ 16) in
  let t := u128 (t ≪ 8) in
  let t := t .| u8 (timestamp ≫ 8) in
  let t := u128 (t ≪ 8) in
  let t := t .| u8 timestamp in
  let t := u128 (t ≪ 80) in
  let mask := 1 in
  let mask := u128 (mask ≪ 80) in
  let mask := u128 (mask - 1) in
  t .| (ulid .& mask).

Section Entropy.
Context {S : Type}.
Variable rng : S -> Z * S.

(** [void EncodeEntropy(const std::function<uint8_t()>& rng, ULID& ulid)] *)
Definition EncodeEntropy (ulid : ULID) : M ULID :=
  let ulid := u128 ((ulid ≫ 80) ≪ 80) in
  let! e := rng in
  let e := u128 (e ≪ 8) in let! r := rng in let e := e .| r in
  let e := u128 (e ≪ 8) in let! r := rng in let e := e .| r in
  let e := u128 (e ≪ 8) in let! r := rng in let e := e .| r in
  let e := u128 (e ≪ 8) in let! r := rng in let e := e .| r in
  let e := u128 (e ≪ 8) in let! r := rng in let e := e .| r in
  let e := u128 (e ≪ 8) in let! r := rng in let e := e .| r in
  let e := u128 (e ≪ 8) in let! r := rng in let e := e .| r in
  let e := u128 (e ≪ 8) in let! r := rng in let e := e .| r in
  let e := u128 (e ≪ 8) in let! r := rng in let e := e .| r in
  ret (ulid .| e).
End Entropy.

Section EntropyRand.
Context {S : Type}.
Variable rand : S -> Z * S.
Variable RAND_MAX : Z.

(** [(std::rand() * 255ull) / RAND_MAX], an [unsigned long long] *)
Definition rand_scaled : M Z :=
  let! r := rand in ret (u64 (r * 255) / RAND_MAX).

(** [void EncodeEntropyRand(ULID& ulid)] *)
Definition EncodeEntropyRand (ulid : ULID) : M ULID :=
  let ulid := u128 ((ulid ≫ 80) ≪ 80) in
  let! e := rand_scaled in
  let e := u128 (e ≪ 8) in let! r := rand_scaled in let e := e .| r in
  let e := u128 (e ≪ 8) in let! r := rand_scaled in let e := e .| r in
  let e := u128 (e ≪ 8) in let! r := rand_scaled in let e := e .| r in
  let e := u128 (e ≪ 8) in let! r := rand_scaled in let e := e .| r in
  let e := u128 (e ≪ 8) in let! r := rand_scaled in let e := e .| r in
  let e := u128 (e ≪ 8) in let! r := rand_scaled in let e := e .| r in
  let e := u128 (e ≪ 8) in let! r := rand_scaled in let e := e .| r in
  let e := u128 (e ≪ 8) in let! r := rand_scaled in let e := e .| r in
  let e := u128 (e ≪ 8) in let! r := rand_scaled in let e := e .| r in
  ret (ulid .| e).
End EntropyRand.

(** [void MarshalTo(const ULID& ulid, char dst[26])] *)
Definition MarshalTo (ulid : ULID) : list ascii :=
  [ (* 10 byte timestamp *)
    Encoding_at ((u8 (ulid ≫ 120) .& 224) ≫ 5);
    Encoding_at (u8 (ulid ≫ 120) .& 31);
    Encoding_at ((u8 (ulid ≫ 112) .& 248) ≫ 3);
    Encoding_at (((u8 (ulid ≫ 112) .& 7) ≪ 2) .| ((u8 (ulid ≫ 104) .& 192) ≫ 6));
    Encoding_at ((u8 (ulid ≫ 104) .& 62) ≫ 1);
    Encoding_at (((u8 (ulid ≫ 104) .& 1) ≪ 4) .| ((u8 (ulid ≫ 96) .& 240) ≫ 4));
    Encoding_at (((u8 (ulid ≫ 96) .& 15) ≪ 1) .| ((u8 (ulid ≫ 88) .& 128) ≫ 7));
    Encoding_at ((u8 (ulid ≫ 88) .& 124) ≫ 2);
    Encoding_at (((u8 (ulid ≫ 88) .& 3) ≪ 3) .| ((u8 (ulid ≫ 80) .& 224) ≫ 5));
    Encoding_at (u8 (ulid ≫ 80) .& 31);
    (* 16 bytes of entropy *)
    Encoding_at ((u8 (ulid ≫ 72) .& 248) ≫ 3);
    Encoding_at (((u8 (ulid ≫ 72) .& 7) ≪ 2) .| ((u8 (ulid ≫ 64) .& 192) ≫ 6));
    Encoding_at ((u8 (ulid ≫ 64) .& 62) ≫ 1);
    Encoding_at (((u8 (ulid ≫ 64) .& 1) ≪ 4) .| ((u8 (ulid ≫ 56) .& 240) ≫ 4));
    Encoding_at (((u8 (ulid ≫ 56) .& 15) ≪ 1) .| ((u8 (ulid ≫ 48) .& 128) ≫ 7));
    Encoding_at ((u8 (ulid ≫ 48) .& 124) ≫ 2);
    Encoding_at (((u8 (ulid ≫ 48) .& 3) ≪ 3) .| ((u8 (ulid ≫ 40) .& 224) ≫ 5));
    Encoding_at (u8 (ulid ≫ 40) .& 31);
    Encoding_at ((u8 (ulid ≫ 32) .& 248) ≫ 3);
    Encoding_at (((u8 (ulid ≫ 32) .& 7) ≪ 2) .| ((u8 (ulid ≫ 24) .& 192) ≫ 6));
    Encoding_at ((u8 (ulid ≫ 24) .& 62) ≫ 1);
    Encoding_at (((u8 (ulid ≫ 24) .& 1) ≪ 4) .| ((u8 (ulid ≫ 16) .& 240) ≫ 4));
    Encoding_at (((u8 (ulid ≫ 16) .& 15) ≪ 1) .| ((u8 (ulid ≫ 8) .& 128) ≫ 7));
    Encoding_at ((u8 (ulid ≫ 8) .& 124) ≫ 2);
    Encoding_at (((u8 (ulid ≫ 8) .& 3) ≪ 3) .| ((u8 ulid .& 224) ≫ 5));
    Encoding_at (u8 ulid .& 31) ].

(** [std::string Marshal(const ULID& ulid)] *)
Definition Marshal (ulid : ULID) : string :=
  string_of_c_str (MarshalTo ulid ++ [NUL]).

(** [void MarshalBinaryTo(const ULID& ulid, uint8_t dst[16])] *)
Definition MarshalBinaryTo (ulid : ULID) : list Z :=
  [ (* timestamp *)
    u8 (ulid ≫ 120); u8 (ulid ≫ 112); u8 (ulid ≫ 104);
    u8 (ulid ≫ 96); u8 (ulid ≫ 88); u8 (ulid ≫ 80);
    (* entropy *)
    u8 (ulid ≫ 72); u8 (ulid ≫ 64); u8 (ulid ≫ 56); u8 (ulid ≫ 48);
    u8 (ulid ≫ 40); u8 (ulid ≫ 32); u8 (ulid ≫ 24); u8 (ulid ≫ 16);
    u8 (ulid ≫ 8); u8 ulid ].

(** [std::vector<uint8_t> MarshalBinary(const ULID& ulid)] *)
Definition MarshalBinary (ulid : ULID) : list Z := MarshalBinaryTo ulid.

Section Text.
Variable char_signed : bool.

(** [dec[int(str[i])]] *)
Definition D (str : list ascii) (i : nat) : Z :=
  dec_at (int_of_char char_signed (nth i str NUL)).

Definition reads_defined (str : list ascii) : bool :=
  (26 <=? length str)%nat &&
  forallb (fun c => in_table (int_of_char char_signed c)) (take 26 str).

(** [void UnmarshalFrom(const char str[26], ULID& ulid)].  Each right
    hand side is an [int]; it is not narrowed before it is or-ed into
    the 128-bit value. *)
Definition UnmarshalFrom (str : list ascii) : option ULID :=
  if reads_defined str then
    (* timestamp *)
    let ulid := u128 ((D str 0 ≪ 5) .| D str 1) in
    let ulid := u128 (ulid ≪ 8) in
    let ulid := ulid .| ((D str 2 ≪ 3) .| (D str 3 ≫ 2)) in
    let ulid := u128 (ulid ≪ 8) in
    let ulid := ulid .| (((D str 3 ≪ 6) .| (D str 4 ≪ 1)) .| (D str 5 ≫ 4)) in
    let ulid := u128 (ulid ≪ 8) in
    let ulid := ulid .| ((D str 5 ≪ 4) .| (D str 6 ≫ 1)) in
    let ulid := u128 (ulid ≪ 8) in
    let ulid := ulid .| (((D str 6 ≪ 7) .| (D str 7 ≪ 2)) .| (D str 8 ≫ 3)) in
    let ulid := u128 (ulid ≪ 8) in
    let ulid := ulid .| ((D str 8 ≪ 5) .| D str 9) in
    (* entropy *)
    let ulid := u128 (ulid ≪ 8) in
    let ulid := ulid .| ((D str 10 ≪ 3) .| (D str 11 ≫ 2)) in
    let ulid := u128 (ulid ≪ 8) in
    let ulid := ulid .| (((D str 11 ≪ 6) .| (D str 12 ≪ 1)) .| (D str 13 ≫ 4)) in
    let ulid := u128 (ulid ≪ 8) in
    let ulid := ulid .| ((D str 13 ≪ 4) .| (D str 14 ≫ 1)) in
    let ulid := u128 (ulid ≪ 8) in
    let ulid := ulid .| (((D str 14 ≪ 7) .| (D str 15 ≪ 2)) .| (D str 16 ≫ 3)) in
    let ulid := u128 (ulid ≪ 8) in
    let ulid := ulid .| ((D str 16 ≪ 5) .| D str 17) in
    let ulid := u128 (ulid ≪ 8) in
    let ulid := ulid .| ((D str 18 ≪ 3) .| (D str 19 ≫ 2)) in
    let ulid := u128 (ulid ≪ 8) in
    let ulid := ulid .| (((D str 19 ≪ 6) .| (D str 20 ≪ 1)) .| (D str 21 ≫ 4)) in
    let ulid := u128 (ulid ≪ 8) in
    let ulid := ulid .| ((D str 21 ≪ 4) .| (D str 22 ≫ 1)) in
    let ulid := u128 (ulid ≪ 8) in
    let ulid := ulid .| (((D str 22 ≪ 7) .| (D str 23 ≪ 2)) .| (D str 24 ≫ 3)) in
    let ulid := u128 (ulid ≪ 8) in
    let ulid := ulid .| ((D str 24 ≪ 5) .| D str 25) in
    Some ulid
  else None.

(** [ULID Unmarshal(const std::string& str)] *)
Definition Unmarshal (str : string) : option ULID :=
  UnmarshalFrom (c_str str).
End Text.

(** [void UnmarshalBinaryFrom(const uint8_t b[16], ULID& ulid)] *)
Definition UnmarshalBinaryFrom (b : list Z) : option ULID :=
  if (16 <=? length b)%nat then
    let B i := nth i b 0 in
    (* timestamp *)
    let ulid := B 0%nat in
    let ulid := u128 (ulid ≪ 8) in let ulid := ulid .| B 1%nat in
    let ulid := u128 (ulid ≪ 8) in let ulid := ulid .| B 2%nat in
    let ulid := u128 (ulid ≪ 8) in let ulid := ulid .| B 3%nat in
    let ulid := u128 (ulid ≪ 8) in let ulid := ulid .| B 4%nat in
    let ulid := u128 (ulid ≪ 8) in let ulid := ulid .| B 5%nat in
    (* entropy *)
    let ulid := u128 (ulid ≪ 8) in let ulid := ulid .| B 6%nat in
    let ulid := u128 (ulid ≪ 8) in let ulid := ulid .| B 7%nat in
    let ulid := u128 (ulid ≪ 8) in let ulid := ulid .| B 8%nat in
    let ulid := u128 (ulid ≪ 8) in let ulid := ulid .| B 9%nat in
    let ulid := u128 (ulid ≪ 8) in let ulid := ulid .| B 10%nat in
    let ulid := u128 (ulid ≪ 8) in let ulid := ulid .| B 11%nat in
    let ulid := u128 (ulid ≪ 8) in let ulid := ulid .| B 12%nat in
    let ulid := u128 (ulid ≪ 8) in let ulid := ulid .| B 13%nat in
    let ulid := u128 (ulid ≪ 8) in let ulid := ulid .| B 14%nat in
    let ulid := u128 (ulid ≪ 8) in let ulid := ulid .| B 15%nat in
    Some ulid
  else None.

(** [ULID UnmarshalBinary(const std::vector<uint8_t>& b)] *)
Definition UnmarshalBinary (b : list Z) : option ULID :=
  UnmarshalBinaryFrom b.

(** [int CompareULIDs(const ULID& ulid1, const ULID& ulid2)] *)
Definition CompareULIDs (ulid1 ulid2 : ULID) : Z :=
  -2 * (if ulid1 <? ulid2 then 1 else 0)
  - 1 * (if ulid1 =? ulid2 then 1 else 0) + 1.

(** [time_point Time(const ULID& ulid)] up to its [return]: the value of
    the local [ans], the count of milliseconds read from the upper six
    bytes.  What [Time] returns is the time point built from
    [milliseconds{ans}]: [Time_point] below. *)
Definition Time (ulid : ULID) : Z :=
  let ans := 0 in
  let ans := ans .| u8 (ulid ≫ 120) in
  let ans := i64 (ans ≪ 8) in
  let ans := ans .| u8 (ulid ≫ 112) in
  let ans := i64 (ans ≪ 8) in
  let ans := ans .| u8 (ulid ≫ 104) in
  let ans := i64 (ans ≪ 8) in
  let ans := ans .| u8 (ulid ≫ 96) in
  let ans := i64 (ans ≪ 8) in
  let ans := ans .| u8 (ulid ≫ 88) in
  let ans := i64 (ans ≪ 8) in
  let ans := ans .| u8 (ulid ≫ 80) in
  ans.

Section Clock.
Variable ticks_per_ms : Z.
Context {S : Type}.

(** [void EncodeTime(time_point time_point, ULID& ulid)] *)
Definition EncodeTime (time_point : Z) (ulid : ULID) : ULID :=
  let time_ms := ms_of_time_point ticks_per_ms time_point in
  let timestamp := time_ms in
  EncodeTimestamp timestamp ulid.

(** [void EncodeTimeNow(ULID& ulid)] *)
Definition EncodeTimeNow (now_s : Z) (ulid : ULID) : ULID :=
  let time_now := from_time_t ticks_per_ms now_s in
  EncodeTime time_now ulid.

(** [void EncodeTimeSystemClockNow(ULID& ulid)] *)
Definition EncodeTimeSystemClockNow (now : Z) (ulid : ULID) : ULID :=
  EncodeTime now ulid.

(** [void Encode(time_point timestamp, const std::function<uint8_t()>& rng,
    ULID& ulid)] *)
Definition Encode (timestamp : Z) (rng : S -> Z * S) (ulid : ULID) : M ULID :=
  let ulid := EncodeTime timestamp ulid in
  EncodeEntropy rng ulid.

(** [void EncodeNowRand(ULID& ulid)] *)
Definition EncodeNowRand (now_s : Z) (rand : S -> Z * S) (RAND_MAX : Z)
    (ulid : ULID) : M ULID :=
  let ulid := EncodeTimeNow now_s ulid in
  EncodeEntropyRand rand RAND_MAX ulid.

(** [ULID Create(time_point timestamp, const std::function<uint8_t()>& rng)] *)
Definition Create (timestamp : Z) (rng : S -> Z * S) : M ULID :=
  let ulid := 0 in
  Encode timestamp rng ulid.

(** [ULID CreateNowRand()] *)
Definition CreateNowRand (now_s : Z) (rand : S -> Z * S) (RAND_MAX : Z) : M ULID :=
  let ulid := 0 in
  EncodeNowRand now_s rand RAND_MAX ulid.

(** The [time_point] that [Time] returns, built from [milliseconds{ans}]. *)
Definition Time_point (ulid : ULID) : Z :=
  time_point_of_ms ticks_per_ms (Time ulid).
End Clock.

End Uint128.

(** ** [double] and its conversion to [int64_t] *)

(** IEEE 754 binary64, as the Standard Library specifies it. *)
Definition double : Type := spec_float.

(** [x * y] on [double], rounding to nearest even. *)
Definition double_mul (x y : double) : double := SFmul 53 1024 x y.

(** An [int] literal converted to [double] by the usual arithmetic
    conversions. *)
Definition double_of_int (n : Z) : double := binary_normalize 53 1024 n 0 false.

(** [static_cast<int64_t>(x)]: the fractional part is discarded
    (truncation toward zero); the conversion is undefined, [None], when [x]
    is not finite or the truncated value does not fit. *)
Definition int64_of_double (x : double) : option Z :=
  match x with
  | S754_zero _ => Some 0
  | S754_finite s m e =>
      let a := if 0 <=? e then Zpos m * 2 ^ e else Zpos m / 2 ^ (- e) in
      let v := if s then - a else a in
      if (- 2 ^ 63 <=? v) && (v <? 2 ^ 63) then Some v else None
  | S754_infinity _ | S754_nan => None
  end.

(** The rational number a finite [double] denotes. *)
Definition Q_of_double (x : double) : option Q :=
  match x with
  | S754_zero _ => Some 0%Q
  | S754_finite s m e =>
      let n := if s then Zneg m else Zpos m in
      Some (if 0 <=? e then inject_Z (n * 2 ^ e) else Qmake n (Z.to_pos (2 ^ (- e))))
  | S754_infinity _ | S754_nan => None
  end.

(** ** [ulid_wrapper.cpp] *)

Module Wrapper.

(** What [ulid.hh] brings into scope: one of the two headers, chosen by
    [__SIZEOF_INT128__]. *)
Record ulid_hh : Type := {
  ULID : Type;
  (** the values a local declared as [ulid::ULID ulid;] may hold *)
  declared : ULID -> Prop;
  EncodeTimestamp : Z -> ULID -> ULID;
  EncodeEntropyRand : forall S : Type, (S -> Z * S) -> Z -> ULID -> @M S ULID;
  MarshalTo : ULID -> list ascii;
  MarshalBinaryTo : ULID -> list Z;
  UnmarshalFrom : bool -> list ascii -> ULID -> option ULID;
  UnmarshalBinaryFrom : list Z -> ULID -> option ULID
}.

(** [#include "ulid_struct.hh"]: the default constructor zeroes the array. *)
Definition struct_hh : ulid_hh := {|
  ULID := Struct.ULID;
  declared := fun u => u = Struct.ULID_zero;
  EncodeTimestamp := Struct.EncodeTimestamp;
  EncodeEntropyRand := fun S => @Struct.EncodeEntropyRand S;
  MarshalTo := Struct.MarshalTo;
  MarshalBinaryTo := Struct.MarshalBinaryTo;
  UnmarshalFrom := Struct.UnmarshalFrom;
  UnmarshalBinaryFrom := Struct.UnmarshalBinaryFrom
|}.

(** [#include "ulid_uint128.hh"]: a declared scalar is not initialised. *)
Definition uint128_hh : ulid_hh := {|
  ULID := Uint128.ULID;
  declared := Uint128.ULID_wf;
  EncodeTimestamp := Uint128.EncodeTimestamp;
  EncodeEntropyRand := fun S => @Uint128.EncodeEntropyRand S;
  MarshalTo := Uint128.MarshalTo;
  MarshalBinaryTo := Uint128.MarshalBinaryTo;
  UnmarshalFrom := fun cs str _ => Uint128.UnmarshalFrom cs str;
  UnmarshalBinaryFrom := fun b _ => Uint128.UnmarshalBinaryFrom b
|}.

Section Wrapper.
Variable hh : ulid_hh.
Context {S : Type}.
(** [std::rand()] and [RAND_MAX] *)
Variable rand : S -> Z * S.
Variable RAND_MAX : Z.
Variable char_signed : bool.

(** [void _cpp_ulid_at_time(double epoch_time, char dst[26])]; [ulid]
    is the local as declared. *)
Definition _cpp_ulid_at_time (epoch_time : double) (ulid : ULID hh)
  : M (option (list ascii)) :=
  match int64_of_double (double_mul epoch_time (double_of_int 1000)) with
  | Some ms =>
      let ulid := EncodeTimestamp hh ms ulid in
      let! ulid := EncodeEntropyRand hh S rand RAND_MAX ulid in
      ret (Some (MarshalTo hh ulid))
  | None => ret None
  end.

(** [void _cpp_ulid_at_time_bytes(double epoch_time, uint8_t dst[16])] *)
Definition _cpp_ulid_at_time_bytes (epoch_time : double) (ulid : ULID hh)
  : M (option (list Z)) :=
  match int64_of_double (double_mul epoch_time (double_of_int 1000)) with
  | Some ms =>
      let ulid := EncodeTimestamp hh ms ulid in
      let! ulid := EncodeEntropyRand hh S rand RAND_MAX ulid in
      ret (Some (MarshalBinaryTo hh ulid))
  | None => ret None
  end.

(** [void _cpp_ulid_to_bytes(const char * ulid_string, uint8_t dst[16])] *)
Definition _cpp_ulid_to_bytes (ulid_string : list ascii) (ulid : ULID hh)
  : option (list Z) :=
  match UnmarshalFrom hh char_signed ulid_string ulid with
  | Some ulid => Some (MarshalBinaryTo hh ulid)
  | None => None
  end.

(** [void _cpp_bytes_to_ulid(const uint8_t b[16], char dst[26])] *)
Definition _cpp_bytes_to_ulid (b : list Z) (ulid : ULID hh)
  : option (list ascii) :=
  match UnmarshalBinaryFrom hh b ulid with
  | Some ulid => Some (MarshalTo hh ulid)
  | None => None
  end.
End Wrapper.

(** [uint64_t _cpp_bytes_to_timestamp(const uint8_t b[16])]; the six
    bytes read are to be there. *)
Definition _cpp_bytes_to_timestamp (b : list Z) : option Z :=
  if (6 <=? length b)%nat then
    let B i := nth i b 0 in
    let timestamp := 0 in
    let timestamp := timestamp .| u64 (u64 (B 0%nat) ≪ 40) in
    let timestamp := timestamp .| u64 (u64 (B 1%nat) ≪ 32) in
    let timestamp := timestamp .| u64 (u64 (B 2%nat) ≪ 24) in
    let timestamp := timestamp .| u64 (u64 (B 3%nat) ≪ 16) in
    let timestamp := timestamp .| u64 (u64 (B 4%nat) ≪ 8) in
    let timestamp := timestamp .| u64 (B 5%nat) in
    Some timestamp
  else None.

Section Now.
Variable hh : ulid_hh.
Context {S : Type}.
Variable rand : S -> Z * S.
Variable RAND_MAX : Z.
Variable ticks_per_ms : Z.

(** [ulid::EncodeTimeSystemClockNow(ulid)], which either header defines as
    [EncodeTime(system_clock::now(), ulid)] and [EncodeTime] as
    [EncodeTimestamp] of the count of milliseconds. *)
Definition EncodeTimeSystemClockNow (now : Z) (ulid : ULID hh) : ULID hh :=
  EncodeTimestamp hh (ms_of_time_point ticks_per_ms now) ulid.

(** [void _cpp_ulid(char dst[26])]; [now] is the reading of the clock and
    [ulid] the local as declared. *)
Definition _cpp_ulid (now : Z) (ulid : ULID hh) : M (list ascii) :=
  let ulid := EncodeTimeSystemClockNow now ulid in
  let! ulid := EncodeEntropyRand hh S rand RAND_MAX ulid in
  ret (MarshalTo hh ulid).

(** [void _cpp_ulid_bytes(uint8_t dst[16])] *)
Definition _cpp_ulid_bytes (now : Z) (ulid : ULID hh) : M (list Z) :=
  let ulid := EncodeTimeSystemClockNow now ulid in
  let! ulid := EncodeEntropyRand hh S rand RAND_MAX ulid in
  ret (MarshalBinaryTo hh ulid).
End Now.

(** [static const char hexdigits[17] = "0123456789abcdef";] *)
Definition hexdigits : list ascii :=
  list_ascii_of_string "0123456789abcdef" ++ [NUL].

(** [hexdigits[i]] *)
Definition hexdigits_at (i : Z) : ascii := nth (Z.to_nat i) hexdigits NUL.

(** The loop of [_cpp_hexlify_16], with [n] iterations left to run. *)
Fixpoint hexlify_loop (n : nat) (b : list Z) (in_index out_index : nat)
    (dst : list ascii) : list ascii :=
  match n with
  | O => dst
  | Datatypes.S n' =>
      let c := nth in_index b 0 in
      let dst := <[out_index := hexdigits_at (c ≫ 4)]> dst in
      let out_index := Datatypes.S out_index in
      let dst := <[out_index := hexdigits_at (c .& 0x0f)]> dst in
      let out_index := Datatypes.S out_index in
      hexlify_loop n' b (Datatypes.S in_index) out_index dst
  end.

(** [void _cpp_hexlify_16(const uint8_t b[16], char dst[32])]: [dst] comes
    in as the caller's buffer and goes out written; [None] when [b] or
    [dst] is shorter than what is read or written. *)
Definition _cpp_hexlify_16 (b : list Z) (dst : list ascii) : option (list ascii) :=
  if (16 <=? length b)%nat && (32 <=? length dst)%nat
  then Some (hexlify_loop 16 b 0 0 dst)
  else None.

End Wrapper.

(** ** [bluetooth_data_tools/utils_wrapper.h] *)

Module Bluetooth.

(** [static const char hex_table[] = "0123456789ABCDEF";] *)
Definition hex_table : list ascii :=
  list_ascii_of_string "0123456789ABCDEF" ++ [NUL].

(** [hex_table[i]] *)
Definition hex_table_at (i : Z) : ascii := nth (Z.to_nat i) hex_table NUL.

(** [void _uint64_to_bdaddr(uint64_t address, char bdaddr[17])] *)
Definition _uint64_to_bdaddr (address : Z) : list ascii :=
  [ hex_table_at ((address ≫ 44) .& 0x0F);
    hex_table_at ((address ≫ 40) .& 0x0F);
    ":"%char;
    hex_table_at ((address ≫ 36) .& 0x0F);
    hex_table_at ((address ≫ 32) .& 0x0F);
    ":"%char;
    hex_table_at ((address ≫ 28) .& 0x0F);
    hex_table_at ((address ≫ 24) .& 0x0F);
    ":"%char;
    hex_table_at ((address ≫ 20) .& 0x0F);
    hex_table_at ((address ≫ 16) .& 0x0F);
    ":"%char;
    hex_table_at ((address ≫ 12) .& 0x0F);
    hex_table_at ((address ≫ 8) .& 0x0F);
    ":"%char;
    hex_table_at ((address ≫ 4) .& 0x0F);
    hex_table_at (address .& 0x0F) ].

End Bluetooth.

(** ** [fnv_hash_fast/fnv_wrapper.h] *)

Module Fnv.

(** arithmetic in [uint32_t] *)
Definition u32 (x : Z) : Z := x mod 2 ^ 32.

(** [static_cast<unsigned char>(c)] *)
Definition uchar (c : ascii) : Z := Z.of_N (N_of_ascii c).

(** The loop of [_cpp_fnv1a_32] from [data[idx]] on: [data] is what is
    left of the string, whose end reads as the terminator 0. *)
Fixpoint fnv1a_loop (data : list ascii) (hash : Z) : Z :=
  match data with
  | [] => hash
  | c :: data' =>
      if Ascii.eqb c NUL then hash
      else fnv1a_loop data' (u32 (16777619 * u32 (Z.lxor hash (uchar c))))
  end.

(** [uint32_t _cpp_fnv1a_32(std::string data)].  The index is a
    [uint32_t]: were 2^32 characters to precede the first 0 it would wrap
    and the loop not end, which is [None]. *)
Definition _cpp_fnv1a_32 (data : string) : option Z :=
  let chars := list_ascii_of_string data in
  if Z.of_nat (length (c_str_prefix chars)) <? 2 ^ 32
  then Some (fnv1a_loop chars 2166136261)
  else None.

End Fnv.

(** ** Notions the statements below are phrased in *)

(** Lexicographic comparison of two sequences of numbers: the first
    position where they differ decides. *)
Fixpoint lex_compare (a b : list Z) : comparison :=
  match a, b with
  | [], [] => Eq
  | [], _ :: _ => Lt
  | _ :: _, [] => Gt
  | x :: a', y :: b' =>
      match x ?= y with
      | Eq => lex_compare a' b'
      | c => c
      end
  end.

(** The result [CompareULIDs] documents for each outcome. *)
Definition sign_of (c : comparison) : Z :=
  match c with Lt => -1 | Eq => 0 | Gt => 1 end.

(** The [n] digits of [x] in base [base], most significant first. *)
Fixpoint digits (base : Z) (n : nat) (x : Z) : list Z :=
  match n with
  | O => []
  | Datatypes.S n' => (x / base ^ Z.of_nat n') mod base :: digits base n' x
  end.

(** The 16-byte form of a 128-bit scalar, most significant byte first. *)
Definition bytes_of (u : Uint128.ULID) : Struct.ULID :=
  Struct.mkULID (digits 256 16 u).

(** A text of 26 symbols of the alphabet (what follows them is not read). *)
Definition valid_text (str : list ascii) : Prop :=
  (26 <= length str)%nat /\
  Forall (fun c => In c (list_ascii_of_string "0123456789ABCDEFGHJKMNPQRSTVWXYZ"))
         (take 26 str).

(** A text of 26 seven-bit characters. *)
Definition ascii_text (str : list ascii) : Prop :=
  (26 <= length str)%nat /\
  Forall (fun c => (N_of_ascii c < 128)%N) (take 26 str).

(** The hexadecimal digits of a sequence of bytes: two for each byte, the
    high one first. *)
Definition nibbles (b : list Z) : list Z :=
  flat_map (fun c => [c / 16; c mod 16]) b.

(** A text cut into pairs of characters with a colon between the pairs. *)
Fixpoint colon_pairs (l : list ascii) : list ascii :=
  match l with
  | a :: b :: (_ :: _) as rest => a :: b :: ":"%char :: colon_pairs rest
  | _ => l
  end.

(** FNV-1a on 32 bits, as published: from the offset basis, each byte is
    xor-ed in and the result multiplied by the prime, modulo 2^32. *)
Definition fnv1a_32 (bytes : list Z) : Z :=
  fold_left (fun hash byte => (Z.lxor hash byte * 16777619) mod 2 ^ 32)
            bytes 2166136261.

(** The number a sequence of digits spells in base [base], most significant
    digit first. *)
Definition number (base : Z) (ds : list Z) : Z :=
  fold_left (fun acc d => acc * base + d) ds 0.

(** Of the three bits an entry of [dec] has above its five, those that
    reach the byte array when the entry decoded for symbol [j] is or-ed
    in: [UnmarshalFrom] of [ulid_struct.hh] narrows each byte to
    [uint8_t], which drops what a left shift pushed past bit 7. *)
Definition kept (j : nat) : Z :=
  match (5 * (25 - Z.of_nat j)) mod 8 with
  | 1 => 3
  | 2 => 1
  | 3 => 0
  | _ => 7
  end.

(** ** Inputs used in the examples *)

(** A byte source that yields 0, 1, 2, ... *)
Definition counter_source (n : nat) : Z * nat := (Z.of_nat n, Datatypes.S n).

(** A linear congruential [rand] with [RAND_MAX = 2^31 - 1]. *)
Definition lcg (x : Z) : Z * Z :=
  let x' := (1103515245 * x + 12345) mod 2 ^ 31 in (x', x').

(** The double [-2^-10]: sign, 53-bit significand, exponent. *)
Definition minus_2_pow_minus_10 : double := S754_finite true (2 ^ 52) (-62).

(** A source of bytes that counts: 0, 1, ..., 255, 0, ... *)
Definition byte_counter (x : Z) : Z * Z := (x mod 256, x + 1).

(** * Properties *)

(** ** Bytes and bits *)

Lemma u8_range x : 0 <= u8 x < 256.
Proof. unfold u8. change (2 ^ 8) with 256. apply Z.mod_pos_bound. lia. Qed.

Lemma u8_small x : 0 <= x < 256 -> u8 x = x.
Proof. intros. unfold u8. change (2 ^ 8) with 256. apply Z.mod_small. lia. Qed.

Lemma u8_testbit x n : 0 <= n -> Z.testbit (u8 x) n = (n <? 8) && Z.testbit x n.
Proof.
  intros Hn. unfold u8. destruct (Z.ltb_spec n 8).
  - rewrite Z.mod_pow2_bits_low by lia. reflexivity.
  - rewrite Z.mod_pow2_bits_high by lia. reflexivity.
Qed.

Lemma u64_testbit x n : 0 <= n -> Z.testbit (u64 x) n = (n <? 64) && Z.testbit x n.
Proof.
  intros Hn. unfold u64. destruct (Z.ltb_spec n 64).
  - rewrite Z.mod_pow2_bits_low by lia. reflexivity.
  - rewrite Z.mod_pow2_bits_high by lia. reflexivity.
Qed.

Lemma mod_pow2_testbit x k n :
  0 <= k -> 0 <= n -> Z.testbit (x mod 2 ^ k) n = (n <? k) && Z.testbit x n.
Proof.
  intros Hk Hn. destruct (Z.ltb_spec n k).
  - rewrite Z.mod_pow2_bits_low by lia. reflexivity.
  - rewrite Z.mod_pow2_bits_high by lia. reflexivity.
Qed.

Lemma u128_testbit x n : 0 <= n -> Z.testbit (u128 x) n = (n <? 128) && Z.testbit x n.
Proof.
  intros Hn. unfold u128. destruct (Z.ltb_spec n 128).
  - rewrite Z.mod_pow2_bits_low by lia. reflexivity.
  - rewrite Z.mod_pow2_bits_high by lia. reflexivity.
Qed.

Lemma testbit_high k x n : 0 <= k -> 0 <= x < 2 ^ k -> k <= n -> Z.testbit x n = false.
Proof.
  intros Hk Hx Hn. rewrite <- (Z.mod_small x (2 ^ k)) by lia.
  apply Z.mod_pow2_bits_high. lia.
Qed.

(** Two numbers below [2 ^ k] with the same [k] low bits are equal. *)
Lemma bits_eq_below k a b :
  0 <= k -> 0 <= a < 2 ^ k -> 0 <= b < 2 ^ k ->
  (forall n, 0 <= n < k -> Z.testbit a n = Z.testbit b n) -> a = b.
Proof.
  intros Hk Ha Hb H. apply Z.bits_inj'. intros n Hn.
  destruct (Z.lt_ge_cases n k).
  - apply H. lia.
  - rewrite (testbit_high k a), (testbit_high k b) by lia. reflexivity.
Qed.

(** A property of every [n] below a literal [k], checked value by value. *)
Lemma forall_below (k : nat) (P : Z -> Prop) :
  List.Forall P (map Z.of_nat (seq 0 k)) -> forall n, 0 <= n < Z.of_nat k -> P n.
Proof.
  intros H n Hn. rewrite List.Forall_forall in H. apply H.
  apply in_map_iff. exists (Z.to_nat n). split; [lia | apply in_seq; lia].
Qed.

Ltac for_each_below k tac :=
  apply (forall_below k); cbn [seq map Z.of_nat Pos.of_succ_nat Pos.succ];
  repeat (apply List.Forall_cons; [tac|]); apply List.Forall_nil.

(** A byte is determined by its eight bits. *)
Lemma u8_ext a b :
  is_byte b -> (forall n, 0 <= n < 8 -> Z.testbit a n = Z.testbit b n) -> u8 a = b.
Proof.
  intros Hb H. apply (bits_eq_below 8); [lia | apply u8_range | exact Hb |].
  intros n Hn. rewrite u8_testbit by lia.
  replace (n <? 8) with true by (symmetry; apply Z.ltb_lt; lia).
  apply H, Hn.
Qed.

(** Bit [n] of an expression built from [&], [|], [<<], [>>] and the
    narrowing casts, for a literal [n]: push [Z.testbit] to the leaves,
    evaluate the literals, and decide the remaining propositional goal. *)
Ltac push_testbit_step :=
  match goal with
  | |- context [Z.testbit ?a ?i] =>
      let neg := eval vm_compute in (i <? 0) in
      lazymatch neg with
      | true => rewrite (Z.testbit_neg_r a i) by lia
      | false =>
          lazymatch a with
          | Z.lor ?x ?y => rewrite (Z.lor_spec x y i)
          | Z.land ?x ?y => rewrite (Z.land_spec x y i)
          | Z.shiftl ?x ?k => rewrite (Z.shiftl_spec x k i) by lia
          | Z.shiftr ?x ?k => rewrite (Z.shiftr_spec x k i) by lia
          | u8 ?x => rewrite (u8_testbit x i) by lia
          | u64 ?x => rewrite (u64_testbit x i) by lia
          | u128 ?x => rewrite (u128_testbit x i) by lia
          | ?x mod 2 ^ ?k => rewrite (mod_pow2_testbit x k i) by lia
          | ?x / 2 ^ ?k => rewrite (Z.div_pow2_bits x k i) by lia
          end
      end
  end.

Ltac push_testbit := repeat push_testbit_step.

Ltac eval_index :=
  repeat match goal with
  | |- context [Z.testbit ?a ?i] =>
      let v := eval vm_compute in i in
      progress (change (Z.testbit a i) with (Z.testbit a v))
  end.

Ltac eval_literals :=
  repeat match goal with
  | |- context [Z.testbit (Zpos ?p) ?i] =>
      let v := eval vm_compute in (Z.testbit (Zpos p) i) in
      change (Z.testbit (Zpos p) i) with v
  | |- context [Z.testbit 0 ?i] =>
      let v := eval vm_compute in (Z.testbit 0 i) in
      change (Z.testbit 0 i) with v
  | |- context [Z.ltb ?a ?b] =>
      let v := eval vm_compute in (Z.ltb a b) in
      change (Z.ltb a b) with v
  end.

Ltac case_bits :=
  repeat match goal with
  | |- context [Z.testbit ?x ?k] => destruct (Z.testbit x k)
  end;
  reflexivity.

(** Bits at or above the width a hypothesis gives a variable are zero. *)
Ltac range_bits :=
  repeat match goal with
  | H : 0 <= ?x < 2 ^ ?k |- context [Z.testbit ?x ?i] =>
      rewrite (testbit_high k x i ltac:(lia) H ltac:(lia))
  | H : is_byte ?x |- context [Z.testbit ?x ?i] =>
      rewrite (testbit_high 8 x i ltac:(lia) H ltac:(lia))
  | H : is_index ?x |- context [Z.testbit ?x ?i] =>
      rewrite (testbit_high 5 x i ltac:(lia) H ltac:(lia))
  end.

Ltac bit_goal :=
  push_testbit; eval_index; eval_literals; range_bits; cbn [andb orb]; try case_bits.

(** ** The alphabet *)

Lemma index_cases i :
  0 <= i < 32 ->
  In i (map Z.of_nat (seq 0 32)).
Proof.
  intros Hi. apply in_map_iff. exists (Z.to_nat i). split; [lia |].
  apply in_seq. lia.
Qed.

(** The decode table inverts the alphabet, whatever the signedness of
    [char]: the alphabet is 7-bit. *)
Lemma dec_Encoding cs i :
  0 <= i < 32 -> dec_at (int_of_char cs (Encoding_at i)) = i.
Proof.
  intros Hi. apply index_cases in Hi. revert i Hi.
  apply (proj1 (List.Forall_forall _ _)).
  destruct cs; repeat constructor.
Qed.


(** A property of every index below 32, checked index by index. *)
Ltac forall_indices tac :=
  let i := fresh "i" in let Hi := fresh "Hi" in
  intros i Hi; apply index_cases in Hi; revert i Hi;
  apply (proj1 (List.Forall_forall _ _));
  repeat (apply List.Forall_cons; [tac|]); apply List.Forall_nil.

Lemma Encoding_at_alphabet i :
  0 <= i < 32 ->
  In (Encoding_at i) (list_ascii_of_string "0123456789ABCDEFGHJKMNPQRSTVWXYZ").
Proof. revert i. forall_indices ltac:(vm_compute; tauto). Qed.

Lemma Encoding_at_octal i :
  0 <= i < 8 -> In (Encoding_at i) (list_ascii_of_string "01234567").
Proof.
  intros Hi.
  assert (In i (map Z.of_nat (seq 0 8))) as Hin.
  { apply in_map_iff. exists (Z.to_nat i). split; [lia | apply in_seq; lia]. }
  clear Hi. revert i Hin. apply (proj1 (List.Forall_forall _ _)).
  repeat (apply List.Forall_cons; [vm_compute; tauto|]). apply List.Forall_nil.
Qed.

Lemma Encoding_at_not_NUL i : 0 <= i < 32 -> Ascii.eqb (Encoding_at i) NUL = false.
Proof. revert i. forall_indices ltac:(reflexivity). Qed.

Lemma Encoding_at_in_table cs i :
  0 <= i < 32 -> in_table (int_of_char cs (Encoding_at i)) = true.
Proof. revert i. forall_indices ltac:(destruct cs; reflexivity). Qed.

(** ** Ranges of the 5-bit indices *)

Lemma land_mask_range x m : 0 <= m -> 0 <= x .& m <= m.
Proof.
  intros Hm. split.
  - apply Z.land_nonneg. right. exact Hm.
  - assert (0 <= Z.ldiff m x) as Hd by (apply Z.ldiff_nonneg; left; exact Hm).
    assert (Z.ldiff m x + (m .& x) = m) as Hsum.
    { rewrite Z.add_nocarry_lor.
      - apply Z.lor_ldiff_and.
      - apply Z.bits_inj'. intros n Hn.
        rewrite Z.land_spec, Z.ldiff_spec, Z.land_spec, Z.bits_0.
        destruct (Z.testbit m n), (Z.testbit x n); reflexivity. }
    rewrite Z.land_comm. lia.
Qed.

Lemma lor_below k a b :
  0 <= k -> 0 <= a < 2 ^ k -> 0 <= b < 2 ^ k -> 0 <= a .| b < 2 ^ k.
Proof.
  intros Hk Ha Hb. split.
  - apply Z.lor_nonneg. lia.
  - destruct (Z.eq_dec a 0) as [->|Hna]; [rewrite Z.lor_0_l; lia |].
    destruct (Z.eq_dec b 0) as [->|Hnb]; [rewrite Z.lor_0_r; lia |].
    apply Z.log2_lt_pow2.
    + assert (0 <= a .| b) by (apply Z.lor_nonneg; lia).
      assert (a .| b <> 0) by (intros E; apply Z.lor_eq_0_iff in E; lia).
      lia.
    + rewrite Z.log2_lor by lia.
      apply Z.max_lub_lt; apply Z.log2_lt_pow2; lia.
Qed.

(** [0 <= e < bound] for an index expression [e] of [MarshalTo]. *)
Ltac mask_ranges :=
  repeat match goal with
  | |- context [?x .& Zpos ?p] =>
      lazymatch goal with
      | _ : 0 <= x .& Zpos p <= Zpos p |- _ => fail
      | _ => pose proof (land_mask_range x (Zpos p) ltac:(lia))
      end
  end.

Ltac index_range :=
  lazymatch goal with
  | |- _ <= Z.lor _ _ < _ => apply (lor_below 5); [lia | |]
  | _ => idtac
  end;
  rewrite ?Z.shiftr_div_pow2, ?Z.shiftl_mul_pow2 by lia;
  repeat match goal with
         | |- context [2 ^ Zpos ?p] =>
             let v := eval vm_compute in (2 ^ Zpos p) in change (2 ^ Zpos p) with v
         end;
  mask_ranges;
  Z.div_mod_to_equations; lia.


(** ** Text encoding in the array representation *)

Import Struct.

Lemma MarshalTo_map u : MarshalTo u = map Encoding_at (MarshalTo_indices u).
Proof. reflexivity. Qed.

Lemma MarshalTo_indices_range u : Forall is_index (MarshalTo_indices u).
Proof.
  unfold MarshalTo_indices, is_index.
  repeat (apply Forall_cons; split; [index_range|]). apply Forall_nil. done.
Qed.

Lemma c_str_prefix_app l :
  Forall (fun c => Ascii.eqb c NUL = false) l -> c_str_prefix (l ++ [NUL]) = l.
Proof.
  induction 1 as [|c l Hc _ IH]; [reflexivity|].
  cbn [c_str_prefix app]. rewrite Hc. f_equal. exact IH.
Qed.

Lemma Forall_map_index (P : ascii -> Prop) idxs :
  (forall i, is_index i -> P (Encoding_at i)) ->
  Forall is_index idxs -> Forall P (map Encoding_at idxs).
Proof. intros HP H. apply Forall_fmap. eapply Forall_impl; [exact H | exact HP]. Qed.

(** No symbol of the alphabet is the terminator, so [Marshal] keeps all
    26 characters. *)
Lemma Marshal_chars u : Marshal u = string_of_list_ascii (MarshalTo u).
Proof.
  unfold Marshal, string_of_c_str. f_equal. apply c_str_prefix_app.
  rewrite MarshalTo_map. apply Forall_map_index; [|apply MarshalTo_indices_range].
  intros i Hi. apply Encoding_at_not_NUL, Hi.
Qed.

Lemma reads_defined_encoded cs idxs rest :
  length idxs = 26%nat -> Forall is_index idxs ->
  reads_defined cs (map Encoding_at idxs ++ rest) = true.
Proof.
  intros Hlen Hidx. unfold reads_defined. apply andb_true_intro. split.
  - apply Nat.leb_le. rewrite length_app, length_map, Hlen. lia.
  - rewrite take_app_le by (rewrite length_map; lia).
    rewrite take_ge by (rewrite length_map; lia).
    apply forallb_forall. intros c Hc. apply in_map_iff in Hc as (i & <- & Hi).
    apply Encoding_at_in_table.
    rewrite Forall_forall in Hidx. apply Hidx, list_elem_of_In, Hi.
Qed.

Lemma D_encoded cs idxs rest k :
  (k < length idxs)%nat -> Forall is_index idxs ->
  D cs (map Encoding_at idxs ++ rest) k = nth k idxs 0.
Proof.
  intros Hk Hidx. unfold D.
  rewrite app_nth1 by (rewrite length_map; exact Hk).
  rewrite (nth_indep _ NUL (Encoding_at 0)) by (rewrite length_map; exact Hk).
  rewrite (map_nth Encoding_at). apply dec_Encoding.
  rewrite Forall_forall in Hidx. apply Hidx, list_elem_of_In, nth_In, Hk.
Qed.

(** The reads of [data] on an array given by its 16 elements. *)
Ltac read_data := unfold get; cbn [data lookup_total list_lookup_total].

(** A well-formed identifier is its 16 bytes. *)
Ltac destruct_bytes l Hlen :=
  do 16 (destruct l as [|? l]; [discriminate Hlen|]);
  destruct l; [clear Hlen | discriminate Hlen].

Ltac destruct_ulid u Hwf :=
  let l := fresh "l" in let Hlen := fresh "Hlen" in let Hb := fresh "Hb" in
  destruct u as [l]; destruct Hwf as [Hlen Hb]; cbn [data] in Hlen, Hb;
  destruct_bytes l Hlen;
  repeat match goal with
         | H : Forall _ (_ :: _) |- _ => apply Forall_cons in H; destruct H as [? H]
         end;
  clear Hb.

Lemma UnmarshalFrom_MarshalTo cs u v rest :
  ULID_wf u -> length (data v) = 16%nat ->
  UnmarshalFrom cs (MarshalTo u ++ rest) v = Some u.
Proof.
  intros Hu Hv. unfold UnmarshalFrom.
  rewrite MarshalTo_map.
  rewrite reads_defined_encoded by (reflexivity || apply MarshalTo_indices_range).
  rewrite !D_encoded by (cbn; lia || apply MarshalTo_indices_range).
  destruct v as [lv]. cbn [data] in Hv. destruct_bytes lv Hv.
  destruct_ulid u Hu.
  unfold set; cbn.
  repeat f_equal; (apply u8_ext; [assumption|]; for_each_below 8%nat bit_goal).
Qed.

(** C1. For every 16-byte identifier [x], decoding the text produced by
    encoding [x] returns [x]: [Unmarshal (Marshal x) = x], on either choice
    of the signedness of [char]. *)
Theorem text_round_trip (char_signed : bool) (x : ULID) :
  ULID_wf x -> Unmarshal char_signed (Marshal x) = Some x.
Proof.
  intros Hx. unfold Unmarshal, c_str. rewrite Marshal_chars.
  rewrite list_ascii_of_string_of_list_ascii.
  apply UnmarshalFrom_MarshalTo; [exact Hx | reflexivity].
Qed.

Lemma text_round_trip_witness :
  let x := mkULID [0x01; 0x5D; 0x8E; 0x5C; 0x36; 0x00; 0xF0; 0x0F;
                   0xAA; 0x55; 0xFF; 0x80; 0x7F; 0x13; 0x37; 0xC4] in
  ULID_wf x /\ Unmarshal true (Marshal x) = Some x.
Proof.
  intros x.
  assert (ULID_wf x) as Hx.
  { split; [reflexivity |]. repeat (apply Forall_cons; split; [unfold is_byte; lia |]).
    apply Forall_nil. exact I. }
  split; [exact Hx | exact (text_round_trip true x Hx)].
Defined.

(** C9, as the code has it: the all-zero identifier (timestamp 0 and
    all-zero entropy) encodes to 26 characters ['0'], one per 5-bit group,
    in both representations. *)
Theorem zero_identifier_text :
  Marshal ULID_zero = "00000000000000000000000000"%string /\
  Uint128.Marshal 0 = "00000000000000000000000000"%string /\
  String.length (Marshal ULID_zero) = 26%nat.
Proof. repeat split; reflexivity. Qed.

(** C9, as stated: the text is not the string of 25 zeros. *)
Lemma zero_identifier_text_not_25 :
  Marshal ULID_zero <> "0000000000000000000000000"%string.
Proof. intros H. vm_compute in H. discriminate H. Qed.

(** C10. Every one of the 26 characters [MarshalTo] produces is a symbol of
    the alphabet, each subscript of [Encoding] being between 0 and 31; the
    first subscript is the top three bits of byte 0, so the first character
    is one of ['0'] to ['7']. *)
Theorem MarshalTo_alphabet (u : ULID) :
  length (MarshalTo u) = 26%nat /\
  MarshalTo u = map Encoding_at (MarshalTo_indices u) /\
  Forall (fun i => 0 <= i < 32) (MarshalTo_indices u) /\
  Forall (fun c => In c (list_ascii_of_string "0123456789ABCDEFGHJKMNPQRSTVWXYZ"))
         (MarshalTo u) /\
  nth 0 (MarshalTo_indices u) 0 = (u.[0] .& 224) ≫ 5 /\
  0 <= (u.[0] .& 224) ≫ 5 < 8 /\
  In (nth 0 (MarshalTo u) NUL) (list_ascii_of_string "01234567").
Proof.
  split; [reflexivity|]. split; [reflexivity|].
  split; [apply MarshalTo_indices_range|].
  split.
  { rewrite MarshalTo_map. apply Forall_map_index; [|apply MarshalTo_indices_range].
    intros i Hi. apply Encoding_at_alphabet, Hi. }
  split; [reflexivity|].
  assert (0 <= (u.[0] .& 224) ≫ 5 < 8) as H0 by index_range.
  split; [exact H0|]. apply Encoding_at_octal, H0.
Qed.

(** ** The timestamp field *)

Lemma EncodeTimestamp_data t u :
  length (data u) = 16%nat ->
  data (EncodeTimestamp t u) =
    [u8 (t ≫ 40); u8 (t ≫ 32); u8 (t ≫ 24); u8 (t ≫ 16); u8 (t ≫ 8); u8 t]
    ++ drop 6 (data u).
Proof.
  intros Hlen. destruct u as [l]. cbn [data] in Hlen. destruct_bytes l Hlen.
  reflexivity.
Qed.

Lemma MarshalBinaryTo_data u : length (data u) = 16%nat -> MarshalBinaryTo u = data u.
Proof.
  intros Hlen. destruct u as [l]. cbn [data] in Hlen. destruct_bytes l Hlen.
  reflexivity.
Qed.

Lemma shifted_byte_range b k :
  is_byte b -> 0 <= k <= 40 -> 0 <= u64 (u64 b ≪ k) < 2 ^ 48.
Proof.
  intros Hb Hk. unfold u64, is_byte in *.
  rewrite (Z.mod_small b) by lia. rewrite Z.shiftl_mul_pow2 by lia.
  assert (0 < 2 ^ k <= 2 ^ 40) by (split; [apply Z.pow_pos_nonneg | apply Z.pow_le_mono_r]; lia).
  rewrite Z.mod_small; nia.
Qed.

Lemma bytes_to_timestamp_range b ts :
  Forall is_byte b -> Wrapper._cpp_bytes_to_timestamp b = Some ts -> 0 <= ts < 2 ^ 48.
Proof.
  intros Hb. unfold Wrapper._cpp_bytes_to_timestamp.
  destruct (6 <=? length b)%nat eqn:Hlen; [|discriminate].
  intros [= <-].
  assert (forall i, is_byte (nth i b 0)) as Hn.
  { intros i. destruct (nth_in_or_default i b 0) as [Hin | ->]; [|unfold is_byte; lia].
    rewrite Forall_forall in Hb. apply Hb, list_elem_of_In, Hin. }
  rewrite Z.lor_0_l.
  repeat apply (lor_below 48); try lia; try (apply shifted_byte_range; [apply Hn | lia]).
  pose proof (Hn 5%nat) as H5. unfold u64, is_byte in *. rewrite Z.mod_small; lia.
Qed.

Lemma bytes_to_timestamp_encoded t u :
  length (data u) = 16%nat ->
  Wrapper._cpp_bytes_to_timestamp (MarshalBinary (EncodeTimestamp t u)) =
    Some (t mod 2 ^ 48).
Proof.
  intros Hlen.
  assert (length (data (EncodeTimestamp t u)) = 16%nat) as Hlen'.
  { rewrite EncodeTimestamp_data, length_app, length_drop, Hlen by exact Hlen. reflexivity. }
  unfold MarshalBinary. rewrite MarshalBinaryTo_data by exact Hlen'.
  rewrite EncodeTimestamp_data by exact Hlen.
  unfold Wrapper._cpp_bytes_to_timestamp.
  replace (6 <=? _)%nat with true by (symmetry; apply Nat.leb_le; rewrite length_app; cbn; lia).
  cbn [nth app]. f_equal.
  apply (bits_eq_below 48); [lia | | apply Z.mod_pos_bound; lia |].
  - rewrite Z.lor_0_l.
    repeat apply (lor_below 48); try lia;
      try (apply shifted_byte_range; [apply u8_range | lia]).
    pose proof (u8_range t). unfold u64. rewrite Z.mod_small; lia.
  - for_each_below 48%nat bit_goal.
Qed.

Lemma ULID_zero_wf : ULID_wf ULID_zero.
Proof.
  split; [reflexivity|].
  repeat (apply List.Forall_cons; [unfold is_byte; lia|]). apply List.Forall_nil.
Qed.

Lemma EncodeTimestamp_wf t u : ULID_wf u -> ULID_wf (EncodeTimestamp t u).
Proof.
  intros [Hlen Hb]. split.
  - rewrite EncodeTimestamp_data, length_app, length_drop, Hlen by exact Hlen. reflexivity.
  - rewrite EncodeTimestamp_data by exact Hlen. apply Forall_app. split.
    + repeat (apply List.Forall_cons; [unfold is_byte; apply u8_range|]).
      apply List.Forall_nil.
    + apply Forall_drop, Hb.
Qed.

Lemma i64_small x : - 2 ^ 63 <= x < 2 ^ 63 -> i64 x = x.
Proof. intros Hx. unfold i64. rewrite Z.mod_small; lia. Qed.

Lemma Time_step a b k :
  0 <= k <= 40 -> 0 <= a < 2 ^ k -> is_byte b ->
  i64 (a ≪ 8) = a ≪ 8 /\ 0 <= (a ≪ 8) .| b < 2 ^ (k + 8).
Proof.
  intros Hk Ha Hb.
  assert (2 ^ (k + 8) = 2 ^ k * 256) as E by (rewrite Z.pow_add_r by lia; reflexivity).
  assert (2 ^ k <= 2 ^ 40) by (apply Z.pow_le_mono_r; lia).
  assert (0 <= a ≪ 8 < 2 ^ (k + 8)) as Hs by (rewrite Z.shiftl_mul_pow2 by lia; lia).
  split.
  - apply i64_small. change (2 ^ 40) with 1099511627776 in *.
    change (2 ^ 63) with 9223372036854775808. lia.
  - apply lor_below; [lia | exact Hs |].
    unfold is_byte in Hb. assert (2 ^ 8 <= 2 ^ (k + 8)) by (apply Z.pow_le_mono_r; lia).
    change (2 ^ 8) with 256 in *. lia.
Qed.

Lemma Time_bytes b0 b1 b2 b3 b4 b5 rest :
  is_byte b0 -> is_byte b1 -> is_byte b2 -> is_byte b3 -> is_byte b4 -> is_byte b5 ->
  Time (mkULID (b0 :: b1 :: b2 :: b3 :: b4 :: b5 :: rest))
    = (((((((((b0 ≪ 8) .| b1) ≪ 8) .| b2) ≪ 8) .| b3) ≪ 8) .| b4) ≪ 8) .| b5 /\
  0 <= Time (mkULID (b0 :: b1 :: b2 :: b3 :: b4 :: b5 :: rest)) < 2 ^ 48.
Proof.
  intros H0 H1 H2 H3 H4 H5. unfold Time. read_data. rewrite Z.lor_0_l.
  destruct (Time_step b0 b1 8) as [E1 R1]; [lia | exact H0 | exact H1 |].
  rewrite E1. change (8 + 8) with 16 in R1.
  destruct (Time_step _ b2 16 ltac:(lia) R1 H2) as [E2 R2].
  rewrite E2. change (16 + 8) with 24 in R2.
  destruct (Time_step _ b3 24 ltac:(lia) R2 H3) as [E3 R3].
  rewrite E3. change (24 + 8) with 32 in R3.
  destruct (Time_step _ b4 32 ltac:(lia) R3 H4) as [E4 R4].
  rewrite E4. change (32 + 8) with 40 in R4.
  destruct (Time_step _ b5 40 ltac:(lia) R4 H5) as [E5 R5].
  rewrite E5. change (40 + 8) with 48 in R5.
  split; [reflexivity | exact R5].
Qed.

(** [Time] and [_cpp_bytes_to_timestamp] read the same number. *)
Lemma Time_timestamp u :
  ULID_wf u -> Wrapper._cpp_bytes_to_timestamp (MarshalBinary u) = Some (Time u).
Proof.
  intros Hu. pose proof Hu as [Hlen Hbytes].
  unfold MarshalBinary. rewrite MarshalBinaryTo_data by exact Hlen.
  destruct (Wrapper._cpp_bytes_to_timestamp (data u)) as [v|] eqn:Hv;
    [| unfold Wrapper._cpp_bytes_to_timestamp in Hv; rewrite Hlen in Hv; discriminate Hv].
  pose proof (bytes_to_timestamp_range _ _ Hbytes Hv) as Hr.
  f_equal. revert Hv Hr. clear Hlen Hbytes. destruct_ulid u Hu.
  match goal with
  | |- context [Time (mkULID (?b0 :: ?b1 :: ?b2 :: ?b3 :: ?b4 :: ?b5 :: ?rest))] =>
      destruct (Time_bytes b0 b1 b2 b3 b4 b5 rest) as [-> Ht]; try assumption
  end.
  unfold Wrapper._cpp_bytes_to_timestamp. cbn [data length Nat.leb nth].
  intros [= <-] Hr.
  apply (bits_eq_below 48); [lia | exact Hr | exact Ht |].
  for_each_below 48%nat bit_goal.
Qed.

(** C4. Extracting the timestamp after encoding it returns it unchanged
    when it fits in 48 bits, and its low 48 bits when it is [2 ^ 48] or
    more; the value extracted from any identifier has its top 16 bits
    zero.  The wrapper's [_cpp_bytes_to_timestamp] and the header's [Time]
    extract the same value. *)
Theorem timestamp_round_trip (t : Z) (x : ULID) :
  ULID_wf x ->
  let extract u := Wrapper._cpp_bytes_to_timestamp (MarshalBinary u) in
  (0 <= t < 2 ^ 48 ->
     extract (EncodeTimestamp t x) = Some t /\ Time (EncodeTimestamp t x) = t) /\
  (2 ^ 48 <= t ->
     extract (EncodeTimestamp t x) = Some (t mod 2 ^ 48) /\
     Time (EncodeTimestamp t x) = t mod 2 ^ 48) /\
  (exists v, extract x = Some v /\ Time x = v /\ 0 <= v < 2 ^ 64 /\ v ≫ 48 = 0).
Proof.
  intros Hx extract. unfold extract. pose proof Hx as [Hlen Hb].
  pose proof (Time_timestamp (EncodeTimestamp t x) (EncodeTimestamp_wf t x Hx)) as HT.
  rewrite bytes_to_timestamp_encoded in HT by exact Hlen. injection HT as HT.
  split; [|split].
  - intros Ht. rewrite bytes_to_timestamp_encoded by exact Hlen.
    rewrite <- HT. rewrite Z.mod_small by exact Ht. split; reflexivity.
  - intros _. rewrite bytes_to_timestamp_encoded by exact Hlen.
    rewrite <- HT. split; reflexivity.
  - pose proof (Time_timestamp x Hx) as Hv. exists (Time x).
    split; [exact Hv|]. split; [reflexivity|].
    unfold MarshalBinary in Hv. rewrite MarshalBinaryTo_data in Hv by exact Hlen.
    pose proof (bytes_to_timestamp_range _ _ Hb Hv) as Hr.
    split; [lia|]. rewrite Z.shiftr_div_pow2 by lia. apply Z.div_small, Hr.
Qed.

Lemma timestamp_round_trip_witness :
  Wrapper._cpp_bytes_to_timestamp
    (MarshalBinary (EncodeTimestamp 1700000000000 ULID_zero)) = Some 1700000000000 /\
  Time (EncodeTimestamp 1700000000000 ULID_zero) = 1700000000000.
Proof.
  refine (proj1 (timestamp_round_trip 1700000000000 ULID_zero ULID_zero_wf) _).
  split; [lia | reflexivity].
Defined.

(** ** The two mutators and the regions they write *)

Lemma EncodeEntropy_draws {S} (rng : S -> Z * S) u s :
  length (data u) = 16%nat ->
  EncodeEntropy rng u s =
    (mkULID (take 6 (data u) ++ fst (draws rng 10 s)), snd (draws rng 10 s)).
Proof.
  intros Hlen. destruct u as [l]. cbn [data] in Hlen. destruct_bytes l Hlen.
  unfold EncodeEntropy, bind, ret. cbn [draws].
  repeat match goal with |- context [rng ?x] => destruct (rng x) as [? ?] end.
  reflexivity.
Qed.

Lemma draws_counting {S} (rng : S -> Z * S) n s c :
  draws (counting rng) n (s, c) =
    (fst (draws rng n s), (snd (draws rng n s), (c + n)%nat)).
Proof.
  revert s c. induction n as [|n IH]; intros s c; cbn [draws].
  - cbn. f_equal. f_equal. lia.
  - unfold counting at 1. destruct (rng s) as [b s1]. rewrite IH.
    destruct (draws rng n s1) as [bs s2]. cbn. do 2 f_equal. lia.
Qed.

Lemma draws_length {S} (rng : S -> Z * S) n s : length (fst (draws rng n s)) = n.
Proof.
  revert s. induction n as [|n IH]; intros s; cbn [draws]; [reflexivity|].
  destruct (rng s) as [b s1]. specialize (IH s1).
  destruct (draws rng n s1) as [bs s2]. cbn in *. lia.
Qed.

(** C7. [EncodeTimestamp] writes bytes 0-5 only: bytes 6-15 are as
    before.  [EncodeEntropy] calls the byte source exactly 10 times (the
    source ends in the state 10 calls lead to, and a source that counts its
    calls counts 10), stores the 10 results in call order in bytes 6-15, and
    leaves bytes 0-5 as before. *)
Theorem encode_frames {S} (rng : S -> Z * S) (s : S) (t : Z) (u : ULID) :
  length (data u) = 16%nat ->
  (length (data (EncodeTimestamp t u)) = 16%nat /\
   forall i, (6 <= i)%nat -> data (EncodeTimestamp t u) !! i = data u !! i) /\
  (let '(bytes, s') := draws rng 10 s in
   let '(u', s'') := EncodeEntropy rng u s in
   s'' = s' /\
   snd (snd (EncodeEntropy (counting rng) u (s, 0%nat))) = 10%nat /\
   length (data u') = 16%nat /\
   (forall k, (k < 10)%nat -> data u' !! (6 + k)%nat = bytes !! k) /\
   (forall i, (i < 6)%nat -> data u' !! i = data u !! i)).
Proof.
  intros Hlen. split.
  - rewrite EncodeTimestamp_data by exact Hlen. split.
    + rewrite length_app, length_drop, Hlen. reflexivity.
    + intros i Hi. rewrite lookup_app_r by (cbn; lia).
      rewrite lookup_drop. cbn [length]. f_equal. lia.
  - rewrite (EncodeEntropy_draws (counting rng)) by exact Hlen.
    rewrite (EncodeEntropy_draws rng) by exact Hlen.
    rewrite draws_counting. pose proof (draws_length rng 10 s) as Hd.
    destruct (draws rng 10 s) as [bytes s']. cbn [fst snd data] in *.
    split; [reflexivity|]. split; [reflexivity|].
    assert (length (take 6 (data u)) = 6%nat) as H6 by (rewrite length_take; lia).
    split; [rewrite length_app; lia|]. split.
    + intros k Hk. rewrite lookup_app_r by lia. f_equal. lia.
    + intros i Hi. rewrite lookup_app_l by lia. apply lookup_take_lt. lia.
Qed.

Lemma encode_frames_witness :
  length (data ULID_zero) = 16%nat /\
  data (EncodeTimestamp 1700000000000 ULID_zero) !! 9%nat = Some 0 /\
  fst (EncodeEntropy counter_source ULID_zero 3%nat) =
    mkULID [0; 0; 0; 0; 0; 0; 3; 4; 5; 6; 7; 8; 9; 10; 11; 12].
Proof.
  pose proof (encode_frames counter_source 3%nat 1700000000000 ULID_zero eq_refl)
    as [[_ Ht] He].
  split; [reflexivity|]. split.
  - rewrite (Ht 9%nat) by lia. reflexivity.
  - reflexivity.
Defined.

(** ** Lexicographic order and positional notation *)

Lemma lex_compare_refl a : lex_compare a a = Eq.
Proof. induction a as [|x a IH]; cbn; [reflexivity|]. rewrite Z.compare_refl. exact IH. Qed.

Lemma lex_compare_eq a b : lex_compare a b = Eq <-> a = b.
Proof.
  split; [|intros ->; apply lex_compare_refl].
  revert b. induction a as [|x a IH]; intros [|y b]; cbn; try discriminate; [reflexivity|].
  destruct (Z.compare_spec x y) as [Hxy| |]; try discriminate.
  intros Hab. subst. f_equal. apply IH, Hab.
Qed.

Lemma lex_compare_app a1 a2 b1 b2 :
  length a1 = length b1 ->
  lex_compare (a1 ++ a2) (b1 ++ b2) =
    match lex_compare a1 b1 with Eq => lex_compare a2 b2 | c => c end.
Proof.
  revert b1. induction a1 as [|x a1 IH]; intros [|y b1] Hlen; try discriminate Hlen.
  - reflexivity.
  - cbn. destruct (x ?= y); try reflexivity. apply IH. cbn in Hlen. lia.
Qed.

(** The first position where two sequences differ decides. *)
Lemma lex_compare_first_diff a b i x y :
  (forall j, (j < i)%nat -> a !! j = b !! j) ->
  a !! i = Some x -> b !! i = Some y -> x <> y ->
  lex_compare a b = (x ?= y).
Proof.
  revert a b. induction i as [|i IH]; intros [|x' a] [|y' b] Hpre Ha Hb Hxy;
    try discriminate.
  - cbn in Ha, Hb. injection Ha as ->. injection Hb as ->. cbn.
    destruct (Z.compare_spec x y); try reflexivity. contradiction.
  - cbn in Ha, Hb. cbn.
    assert (x' = y') as -> by (specialize (Hpre 0%nat ltac:(lia)); cbn in Hpre; congruence).
    rewrite Z.compare_refl. apply IH; try assumption.
    intros j Hj. apply (Hpre (Datatypes.S j)). lia.
Qed.

Lemma digits_length base n x : length (digits base n x) = n.
Proof. induction n as [|n IH]; cbn; [reflexivity | rewrite IH; reflexivity]. Qed.

(** Comparing [n] digits, most significant first, compares the numbers
    they denote. *)
Lemma digits_lex base n x y :
  0 < base ->
  lex_compare (digits base n x) (digits base n y)
    = (x mod base ^ Z.of_nat n ?= y mod base ^ Z.of_nat n).
Proof.
  intros Hbase. induction n as [|n IH].
  - cbn. rewrite !Z.mod_1_r. reflexivity.
  - cbn [digits lex_compare]. rewrite IH.
    replace (Z.of_nat (Datatypes.S n)) with (Z.of_nat n + 1) by lia.
    rewrite Z.pow_add_r, Z.pow_1_r by lia.
    assert (0 < base ^ Z.of_nat n) as HB by (apply Z.pow_pos_nonneg; lia).
    rewrite !Z.rem_mul_r by lia.
    set (B := base ^ Z.of_nat n) in *.
    pose proof (Z.mod_pos_bound x B HB). pose proof (Z.mod_pos_bound y B HB).
    pose proof (Z.mod_pos_bound (x / B) base Hbase).
    pose proof (Z.mod_pos_bound (y / B) base Hbase).
    set (hx := (x / B) mod base) in *. set (hy := (y / B) mod base) in *.
    set (lx := x mod B) in *. set (ly := y mod B) in *.
    destruct (Z.compare_spec hx hy) as [-> | Hlt | Hgt].
    + destruct (Z.compare_spec lx ly); symmetry;
        [apply Z.compare_eq_iff | apply Z.compare_lt_iff | apply Z.compare_gt_iff]; nia.
    + symmetry. apply Z.compare_lt_iff. nia.
    + symmetry. apply Z.compare_gt_iff. nia.
Qed.

(** ** Comparison *)

Lemma compare_step x y rest c :
  rest = sign_of c ->
  (if negb (x =? y) then lt_sign x y else rest)
    = sign_of (match x ?= y with Eq => c | Lt => Lt | Gt => Gt end).
Proof.
  intros ->. unfold lt_sign.
  destruct (Z.compare_spec x y) as [-> | Hlt | Hgt].
  - rewrite Z.eqb_refl. reflexivity.
  - replace (x =? y) with false by (symmetry; apply Z.eqb_neq; lia).
    replace (x <? y) with true by (symmetry; apply Z.ltb_lt; lia). reflexivity.
  - replace (x =? y) with false by (symmetry; apply Z.eqb_neq; lia).
    replace (x <? y) with false by (symmetry; apply Z.ltb_ge; lia). reflexivity.
Qed.

(** The unrolled comparison is the lexicographic one. *)
Lemma CompareULIDs_lex a b :
  length (data a) = 16%nat -> length (data b) = 16%nat ->
  CompareULIDs a b = sign_of (lex_compare (data a) (data b)).
Proof.
  intros Ha Hb. destruct a as [la], b as [lb]. cbn [data] in *.
  destruct_bytes la Ha. destruct_bytes lb Hb.
  unfold CompareULIDs, get. cbn [data lookup_total list_lookup_total lex_compare].
  repeat apply compare_step. reflexivity.
Qed.

Lemma Uint128_CompareULIDs_sign x y : Uint128.CompareULIDs x y = sign_of (x ?= y).
Proof.
  unfold Uint128.CompareULIDs.
  destruct (Z.compare_spec x y) as [-> | Hlt | Hgt].
  - rewrite Z.ltb_irrefl, Z.eqb_refl. reflexivity.
  - replace (x =? y) with false by (symmetry; apply Z.eqb_neq; lia).
    replace (x <? y) with true by (symmetry; apply Z.ltb_lt; lia). reflexivity.
  - replace (x =? y) with false by (symmetry; apply Z.eqb_neq; lia).
    replace (x <? y) with false by (symmetry; apply Z.ltb_ge; lia). reflexivity.
Qed.

Lemma CompareULIDs_bytes_of x y :
  Uint128.ULID_wf x -> Uint128.ULID_wf y ->
  Uint128.CompareULIDs x y = CompareULIDs (bytes_of x) (bytes_of y).
Proof.
  intros Hx Hy. rewrite Uint128_CompareULIDs_sign.
  rewrite CompareULIDs_lex by apply digits_length.
  unfold bytes_of. cbn [data]. rewrite digits_lex by lia.
  change (256 ^ Z.of_nat 16) with (2 ^ 128).
  unfold Uint128.ULID_wf in *. rewrite !Z.mod_small by lia. reflexivity.
Qed.

(** C6. [CompareULIDs] returns -1, 0 or 1; it returns 0 exactly when all
    16 bytes agree, and otherwise -1 or 1 as the first byte that differs is
    smaller or larger, bytes compared as unsigned numbers and byte 0 first.
    The scalar representation returns the same on the same bytes. *)
Theorem CompareULIDs_spec (a b : ULID) :
  ULID_wf a -> ULID_wf b ->
  (CompareULIDs a b = -1 \/ CompareULIDs a b = 0 \/ CompareULIDs a b = 1) /\
  (CompareULIDs a b = 0 <-> forall i, (i < 16)%nat -> a.[i] = b.[i]) /\
  (forall i, (i < 16)%nat ->
     (forall j, (j < i)%nat -> a.[j] = b.[j]) -> a.[i] <> b.[i] ->
     CompareULIDs a b = if a.[i] <? b.[i] then -1 else 1) /\
  (forall x y, Uint128.ULID_wf x -> Uint128.ULID_wf y ->
     bytes_of x = a -> bytes_of y = b ->
     Uint128.CompareULIDs x y = CompareULIDs a b).
Proof.
  intros [Ha _] [Hb _].
  assert (forall u i, length (data u) = 16%nat -> (i < 16)%nat ->
            data u !! i = Some (get u i)) as Hget.
  { intros u i Hu Hi. unfold get. apply list_lookup_lookup_total_lt. lia. }
  rewrite CompareULIDs_lex by assumption. repeat split.
  - destruct (lex_compare (data a) (data b)); cbn; tauto.
  - intros H i Hi.
    assert (lex_compare (data a) (data b) = Eq) as E
      by (destruct (lex_compare (data a) (data b)); [reflexivity | discriminate H ..]).
    apply lex_compare_eq in E. unfold get. rewrite E. reflexivity.
  - intros H.
    assert (data a = data b) as ->; [|rewrite lex_compare_refl; reflexivity].
    apply list_eq. intros i. destruct (Nat.lt_ge_cases i 16) as [Hi|Hi].
    + rewrite !Hget by assumption. f_equal. apply H, Hi.
    + rewrite !lookup_ge_None_2 by lia. reflexivity.
  - intros i Hi Hpre Hne.
    rewrite (lex_compare_first_diff (data a) (data b) i (get a i) (get b i)).
    + destruct (Z.compare_spec (get a i) (get b i)) as [E | Hlt | Hgt].
      * contradiction.
      * replace (get a i <? get b i) with true by (symmetry; apply Z.ltb_lt; lia).
        reflexivity.
      * replace (get a i <? get b i) with false by (symmetry; apply Z.ltb_ge; lia).
        reflexivity.
    + intros j Hj. rewrite !Hget by (assumption || lia). f_equal. apply Hpre, Hj.
    + apply Hget; assumption.
    + apply Hget; assumption.
    + exact Hne.
  - intros x y Hx Hy <- <-. rewrite <- CompareULIDs_lex by assumption.
    apply CompareULIDs_bytes_of; assumption.
Qed.

Lemma CompareULIDs_spec_witness :
  let a := mkULID [1; 93; 142; 92; 54; 0; 7; 7; 7; 7; 7; 7; 7; 7; 7; 7] in
  let b := mkULID [1; 93; 142; 92; 54; 0; 7; 7; 7; 200; 0; 0; 0; 0; 0; 0] in
  ULID_wf a /\ ULID_wf b /\
  (CompareULIDs a b = -1 \/ CompareULIDs a b = 0 \/ CompareULIDs a b = 1).
Proof.
  intros a b.
  assert (ULID_wf a) as Ha.
  { split; [reflexivity|].
    repeat (apply Forall_cons; split; [unfold is_byte; lia|]). apply Forall_nil. exact I. }
  assert (ULID_wf b) as Hb.
  { split; [reflexivity|].
    repeat (apply Forall_cons; split; [unfold is_byte; lia|]). apply Forall_nil. exact I. }
  split; [exact Ha|]. split; [exact Hb|].
  exact (proj1 (CompareULIDs_spec a b Ha Hb)).
Defined.

(** ** Order of identifiers by timestamp *)

Lemma EncodeTimestamp_digits t u :
  length (data u) = 16%nat ->
  data (EncodeTimestamp t u) = digits 256 6 t ++ drop 6 (data u).
Proof.
  intros Hlen. rewrite EncodeTimestamp_data by exact Hlen. f_equal.
  unfold u8. rewrite !Z.shiftr_div_pow2 by lia.
  cbn [digits]. rewrite <- (Z.div_1_r t) at 6. reflexivity.
Qed.

Lemma digits_32_10 t :
  digits 32 10 t =
    [ (t / 2 ^ 45) mod 2 ^ 5; (t / 2 ^ 40) mod 2 ^ 5; (t / 2 ^ 35) mod 2 ^ 5;
      (t / 2 ^ 30) mod 2 ^ 5; (t / 2 ^ 25) mod 2 ^ 5; (t / 2 ^ 20) mod 2 ^ 5;
      (t / 2 ^ 15) mod 2 ^ 5; (t / 2 ^ 10) mod 2 ^ 5; (t / 2 ^ 5) mod 2 ^ 5;
      (t / 2 ^ 0) mod 2 ^ 5 ].
Proof. reflexivity. Qed.

Ltac digit_eq :=
  apply (bits_eq_below 5);
  [lia | index_range | apply Z.mod_pos_bound; lia | for_each_below 5%nat bit_goal].

(** The first ten characters spell the timestamp in base 32. *)
Lemma MarshalTo_indices_timestamp t u :
  length (data u) = 16%nat -> 0 <= t < 2 ^ 48 ->
  MarshalTo_indices (EncodeTimestamp t u) =
    digits 32 10 t ++ drop 10 (MarshalTo_indices (EncodeTimestamp t u)).
Proof.
  intros Hlen Ht. rewrite digits_32_10.
  destruct u as [l]. cbn [data] in Hlen. destruct_bytes l Hlen.
  unfold MarshalTo_indices, EncodeTimestamp, set, get.
  cbn [data insert list_insert lookup_total list_lookup_total drop app].
  do 9 (f_equal; [digit_eq|]). f_equal. digit_eq.
Qed.

Lemma Ascii_compare_Encoding i j :
  is_index i -> is_index j ->
  Ascii.compare (Encoding_at i) (Encoding_at j) = (i ?= j).
Proof.
  intros Hi Hj. apply index_cases in Hi, Hj.
  assert (forallb (fun i => forallb (fun j =>
            match Ascii.compare (Encoding_at i) (Encoding_at j), i ?= j with
            | Eq, Eq | Lt, Lt | Gt, Gt => true
            | _, _ => false
            end) (map Z.of_nat (seq 0 32))) (map Z.of_nat (seq 0 32)) = true) as H
    by (vm_compute; reflexivity).
  rewrite forallb_forall in H. specialize (H i Hi).
  rewrite forallb_forall in H. specialize (H j Hj).
  destruct (Ascii.compare (Encoding_at i) (Encoding_at j)), (i ?= j);
    (reflexivity || discriminate H).
Qed.

(** The alphabet is in increasing order, so comparing two encoded texts
    compares the sequences of 5-bit values. *)
Lemma String_compare_encoded a b :
  Forall is_index a -> Forall is_index b ->
  String.compare (string_of_list_ascii (map Encoding_at a))
                 (string_of_list_ascii (map Encoding_at b)) = lex_compare a b.
Proof.
  intros Ha. revert b. induction Ha as [|x a Hx Ha IH]; intros b Hb.
  - destruct Hb; reflexivity.
  - destruct Hb as [|y b Hy Hb]; [reflexivity|].
    cbn [map string_of_list_ascii String.compare lex_compare].
    rewrite Ascii_compare_Encoding by assumption.
    destruct (x ?= y); try reflexivity. apply IH, Hb.
Qed.

Lemma EncodeTimestamp_length t u :
  length (data u) = 16%nat -> length (data (EncodeTimestamp t u)) = 16%nat.
Proof.
  intros Hlen. rewrite EncodeTimestamp_data, length_app, length_drop, Hlen by exact Hlen.
  reflexivity.
Qed.

(** C2, within the 48 bits of the timestamp field: for timestamps
    [0 <= t1 < t2 < 2 ^ 48] and any two identifiers (any entropy), the one
    stamped with [t1] is below the one stamped with [t2], for [CompareULIDs]
    and for the lexicographic order of the texts [Marshal] produces. *)
Theorem timestamp_order (t1 t2 : Z) (u1 u2 : ULID) :
  0 <= t1 -> t1 < t2 -> t2 < 2 ^ 48 -> ULID_wf u1 -> ULID_wf u2 ->
  CompareULIDs (EncodeTimestamp t1 u1) (EncodeTimestamp t2 u2) = -1 /\
  String.compare (Marshal (EncodeTimestamp t1 u1)) (Marshal (EncodeTimestamp t2 u2)) = Lt.
Proof.
  intros H0 Hlt H48 [Hlen1 _] [Hlen2 _]. split.
  - rewrite CompareULIDs_lex by (apply EncodeTimestamp_length; assumption).
    rewrite !EncodeTimestamp_digits by assumption.
    rewrite lex_compare_app by (rewrite !digits_length; reflexivity).
    rewrite digits_lex by lia. change (256 ^ Z.of_nat 6) with (2 ^ 48).
    rewrite !Z.mod_small by lia.
    replace (t1 ?= t2) with Lt by (symmetry; apply Z.compare_lt_iff; exact Hlt).
    reflexivity.
  - rewrite !Marshal_chars, !MarshalTo_map.
    rewrite String_compare_encoded by apply MarshalTo_indices_range.
    rewrite (MarshalTo_indices_timestamp t1 u1), (MarshalTo_indices_timestamp t2 u2)
      by (assumption || lia).
    rewrite lex_compare_app by (rewrite !digits_length; reflexivity).
    rewrite digits_lex by lia. change (32 ^ Z.of_nat 10) with (2 ^ 50).
    assert (2 ^ 48 < 2 ^ 50) by (apply Z.pow_lt_mono_r; lia).
    rewrite !Z.mod_small by lia.
    replace (t1 ?= t2) with Lt by (symmetry; apply Z.compare_lt_iff; exact Hlt).
    reflexivity.
Qed.

Lemma timestamp_order_witness :
  let u1 := mkULID [0; 0; 0; 0; 0; 0; 255; 255; 255; 255; 255; 255; 255; 255; 255; 255] in
  ULID_wf u1 /\
  CompareULIDs (EncodeTimestamp 1700000000000 u1)
               (EncodeTimestamp 1700000000001 ULID_zero) = -1 /\
  String.compare (Marshal (EncodeTimestamp 1700000000000 u1))
                 (Marshal (EncodeTimestamp 1700000000001 ULID_zero)) = Lt.
Proof.
  intros u1.
  assert (ULID_wf u1) as Hu1.
  { split; [reflexivity|].
    repeat (apply Forall_cons; split; [unfold is_byte; lia|]). apply Forall_nil. exact I. }
  split; [exact Hu1|].
  apply (timestamp_order 1700000000000 1700000000001 u1 ULID_zero);
    [lia | lia | reflexivity | exact Hu1 | exact ULID_zero_wf].
Defined.

(** C2, as stated for all timestamps: a timestamp that needs more than 48
    bits wraps, and the later identifier then compares below the earlier. *)
Lemma timestamp_order_wraps :
  2 ^ 48 - 1 < 2 ^ 48 /\
  CompareULIDs (EncodeTimestamp (2 ^ 48 - 1) ULID_zero)
               (EncodeTimestamp (2 ^ 48) ULID_zero) = 1 /\
  String.compare (Marshal (EncodeTimestamp (2 ^ 48 - 1) ULID_zero))
                 (Marshal (EncodeTimestamp (2 ^ 48) ULID_zero)) = Gt.
Proof. repeat split; vm_compute; reflexivity. Qed.

(** ** The scalar representation against the array representation *)

(** Literal powers, evaluated. *)
Ltac eval_pows :=
  repeat match goal with
  | |- context [Z.pow (Zpos ?p) ?e] =>
      let v := eval vm_compute in (Z.pow (Zpos p) e) in
      change (Z.pow (Zpos p) e) with v
  end.

Lemma bytes_of_data u : data (bytes_of u) = Uint128.MarshalBinaryTo u.
Proof.
  unfold bytes_of, Uint128.MarshalBinaryTo, u8. cbn [data digits].
  rewrite !Z.shiftr_div_pow2 by lia. eval_pows. rewrite Z.div_1_r. reflexivity.
Qed.

Lemma bytes_of_eq u : bytes_of u = mkULID (Uint128.MarshalBinaryTo u).
Proof. rewrite <- bytes_of_data. destruct (bytes_of u). reflexivity. Qed.

Lemma digits_range base n x :
  0 < base -> Forall (fun d => 0 <= d < base) (digits base n x).
Proof.
  intros Hbase. induction n as [|n IH]; cbn [digits].
  - apply List.Forall_nil.
  - apply List.Forall_cons; [apply Z.mod_pos_bound, Hbase | exact IH].
Qed.

Lemma bytes_of_wf u : ULID_wf (bytes_of u).
Proof.
  split.
  - apply digits_length.
  - apply (digits_range 256). lia.
Qed.

Lemma MarshalTo_bytes_of u : Uint128.MarshalTo u = MarshalTo (bytes_of u).
Proof.
  rewrite bytes_of_eq. unfold MarshalTo, Uint128.MarshalBinaryTo. read_data. reflexivity.
Qed.

Lemma Marshal_bytes_of u : Uint128.Marshal u = Marshal (bytes_of u).
Proof. unfold Uint128.Marshal, Marshal. rewrite MarshalTo_bytes_of. reflexivity. Qed.

Lemma MarshalBinaryTo_bytes_of u :
  Uint128.MarshalBinaryTo u = MarshalBinaryTo (bytes_of u).
Proof.
  rewrite bytes_of_eq. unfold MarshalBinaryTo, Uint128.MarshalBinaryTo.
  read_data. reflexivity.
Qed.

Lemma Time_bytes_of u : Uint128.Time u = Time (bytes_of u).
Proof.
  rewrite bytes_of_eq. unfold Time, Uint128.MarshalBinaryTo. read_data. reflexivity.
Qed.

(** One step of the scalar decoders, [ulid <<= 8; ulid |= e], seen from
    the bytes of the result. *)
Lemma acc_byte0 a e : u8 (u128 (a ≪ 8) .| e) = u8 e.
Proof.
  apply Z.bits_inj'. intros n Hn.
  rewrite !u8_testbit, Z.lor_spec, u128_testbit, Z.shiftl_spec by lia.
  destruct (Z.ltb_spec n 8); [|reflexivity].
  rewrite (Z.testbit_neg_r a) by lia. rewrite andb_false_r. reflexivity.
Qed.

Lemma acc_byte a e s :
  8 <= s -> s + 8 <= 128 ->
  u8 ((u128 (a ≪ 8) .| e) ≫ s) = u8 (a ≫ (s - 8)) .| u8 (e ≫ s).
Proof.
  intros Hs Hs'. apply Z.bits_inj'. intros n Hn.
  rewrite Z.lor_spec, !u8_testbit, !Z.shiftr_spec, Z.lor_spec, u128_testbit,
    Z.shiftl_spec by lia.
  destruct (Z.ltb_spec n 8); [|reflexivity].
  replace (n + s <? 128) with true by (symmetry; apply Z.ltb_lt; lia).
  replace (n + s - 8) with (n + (s - 8)) by lia. reflexivity.
Qed.

Lemma u8_u128 x : u8 (u128 x) = u8 x.
Proof.
  apply Z.bits_inj'. intros n Hn. rewrite !u8_testbit, u128_testbit by lia.
  destruct (Z.ltb_spec n 8); [|reflexivity].
  replace (n <? 128) with true by (symmetry; apply Z.ltb_lt; lia). reflexivity.
Qed.

(** The byte at a literal shift of a value built by such steps. *)
Ltac peel_bytes :=
  repeat match goal with
  | |- context [u8 ((u128 (?a ≪ 8) .| ?e) ≫ ?s)] =>
      let s' := eval vm_compute in (s - 8) in
      rewrite (acc_byte a e s ltac:(lia) ltac:(lia)); change (s - 8) with s'
  end;
  rewrite ?Z.shiftr_0_r, ?acc_byte0, ?u8_u128.

Ltac lor_u8_range :=
  repeat (apply (lor_below 8); [lia | |]); apply u8_range.

(** Two bytes, the left one an [|] of narrowed values, agree bit by bit. *)
Ltac byte_eq :=
  apply (bits_eq_below 8);
  [ lia | lor_u8_range | first [apply u8_range | assumption]
  | for_each_below 8%nat bit_goal ].

Ltac split_Forall :=
  repeat match goal with
         | H : Forall _ (_ :: _) |- _ => apply Forall_cons in H; destruct H as [? H]
         end.

Lemma UnmarshalBinaryFrom_bytes_of b v :
  length b = 16%nat -> Forall is_byte b -> length (data v) = 16%nat ->
  option_map bytes_of (Uint128.UnmarshalBinaryFrom b) = UnmarshalBinaryFrom b v.
Proof.
  intros Hb Hbytes Hv. destruct v as [lv]. cbn [data] in Hv. destruct_bytes lv Hv.
  unfold Uint128.UnmarshalBinaryFrom, UnmarshalBinaryFrom. rewrite Hb.
  cbn [Nat.leb option_map]. f_equal. rewrite bytes_of_eq.
  destruct_bytes b Hb. split_Forall.
  unfold set. cbn [nth data insert list_insert]. f_equal.
  unfold Uint128.MarshalBinaryTo.
  peel_bytes.
  (do 15 (f_equal; [byte_eq|])). f_equal. apply u8_small. assumption.
Qed.

Lemma alphabet_decodes cs c :
  In c (list_ascii_of_string "0123456789ABCDEFGHJKMNPQRSTVWXYZ") ->
  in_table (int_of_char cs c) = true /\ is_index (dec_at (int_of_char cs c)).
Proof.
  revert c. apply (proj1 (List.Forall_forall _ _)).
  repeat (apply List.Forall_cons;
          [split; [destruct cs; reflexivity | destruct cs; vm_compute; split; congruence]|]).
  apply List.Forall_nil.
Qed.

Lemma valid_text_reads cs str :
  valid_text str ->
  Struct.reads_defined cs str = true /\
  forall k, (k < 26)%nat -> is_index (Struct.D cs str k).
Proof.
  intros [Hlen Hall]. split.
  - unfold reads_defined. apply andb_true_intro. split; [apply Nat.leb_le, Hlen|].
    apply forallb_forall. intros c Hc. apply alphabet_decodes.
    rewrite Forall_forall in Hall. apply Hall, list_elem_of_In, Hc.
  - intros k Hk. unfold D. apply alphabet_decodes.
    rewrite Forall_forall in Hall. apply Hall.
    apply list_elem_of_lookup. exists k.
    rewrite lookup_take_lt by lia.
    destruct (lookup_lt_is_Some_2 str k) as [c Hc]; [lia|].
    rewrite (nth_lookup_Some _ _ NUL _ Hc). exact Hc.
Qed.

Lemma UnmarshalFrom_bytes_of cs str v :
  valid_text str -> length (data v) = 16%nat ->
  option_map bytes_of (Uint128.UnmarshalFrom cs str) = UnmarshalFrom cs str v.
Proof.
  intros Hstr Hv. destruct (valid_text_reads cs str Hstr) as [Hreads Hidx].
  destruct v as [lv]. cbn [data] in Hv. destruct_bytes lv Hv.
  unfold Uint128.UnmarshalFrom, UnmarshalFrom.
  change (Uint128.reads_defined cs str) with (reads_defined cs str).
  change (Uint128.D cs str) with (D cs str).
  rewrite Hreads. cbn [option_map]. f_equal. rewrite bytes_of_eq.
  unfold set. cbn [data insert list_insert]. f_equal.
  unfold Uint128.MarshalBinaryTo.
  do 26 (let k := fresh "k" in
         match goal with |- context [D cs str ?i] =>
           pose proof (Hidx i ltac:(lia)); generalize dependent (D cs str i); intros k; intros
         end).
  clear Hidx Hreads Hstr.
  peel_bytes.
  do 14 (f_equal; [byte_eq|]). f_equal. byte_eq.
Qed.

(** C3, on the inputs the alphabet covers: with a scalar related to its 16
    bytes, most significant first, the two representations produce the same
    text, the same bytes, the same comparison result and the same timestamp,
    and decode the same identifier from 16 bytes and from every text of 26
    symbols of the alphabet. *)
Theorem representations_agree (char_signed : bool) :
  (forall u,
     Uint128.MarshalTo u = MarshalTo (bytes_of u) /\
     Uint128.Marshal u = Marshal (bytes_of u) /\
     Uint128.MarshalBinaryTo u = MarshalBinaryTo (bytes_of u) /\
     Uint128.MarshalBinary u = MarshalBinary (bytes_of u) /\
     Uint128.Time u = Time (bytes_of u)) /\
  (forall u1 u2, Uint128.ULID_wf u1 -> Uint128.ULID_wf u2 ->
     Uint128.CompareULIDs u1 u2 = CompareULIDs (bytes_of u1) (bytes_of u2)) /\
  (forall b, length b = 16%nat -> Forall is_byte b ->
     option_map bytes_of (Uint128.UnmarshalBinary b) = UnmarshalBinary b) /\
  (forall str, valid_text str ->
     option_map bytes_of (Uint128.UnmarshalFrom char_signed str)
       = UnmarshalFrom char_signed str ULID_zero) /\
  (forall s, valid_text (list_ascii_of_string s) ->
     option_map bytes_of (Uint128.Unmarshal char_signed s) = Unmarshal char_signed s).
Proof.
  split; [|split; [|split; [|split]]].
  - intros u. split; [apply MarshalTo_bytes_of|]. split; [apply Marshal_bytes_of|].
    split; [apply MarshalBinaryTo_bytes_of|].
    split; [apply MarshalBinaryTo_bytes_of | apply Time_bytes_of].
  - apply CompareULIDs_bytes_of.
  - intros b Hlen Hb. apply UnmarshalBinaryFrom_bytes_of; [exact Hlen | exact Hb | reflexivity].
  - intros str Hstr. apply UnmarshalFrom_bytes_of; [exact Hstr | reflexivity].
  - intros s [Hlen Hall]. unfold Uint128.Unmarshal, Unmarshal, c_str.
    apply UnmarshalFrom_bytes_of; [|reflexivity]. split.
    + rewrite length_app. lia.
    + rewrite take_app_le by exact Hlen. exact Hall.
Qed.

Lemma representations_agree_witness :
  let s := "01ARZ3NDEKTSV4RRFFQ69G5FAV"%string in
  valid_text (list_ascii_of_string s) /\
  option_map bytes_of (Uint128.Unmarshal true s) = Unmarshal true s.
Proof.
  intros s.
  assert (valid_text (list_ascii_of_string s)) as Hs.
  { split; [cbn; lia|]. cbn [take list_ascii_of_string s].
    repeat (apply List.Forall_cons; [cbn; tauto|]). apply List.Forall_nil. }
  split; [exact Hs|].
  exact (proj2 (proj2 (proj2 (proj2 (representations_agree true)))) s Hs).
Defined.

(** C3, as stated for every text: a character outside the alphabet decodes
    to 0xFF, whose high bits the scalar decoder lets into the preceding
    byte while the array decoder narrows them away. *)
Lemma representations_differ_on_invalid_text :
  let str := list_ascii_of_string "0000U000000000000000000000" in
  length str = 26%nat /\
  UnmarshalFrom false str ULID_zero
    = Some (mkULID [0; 0; 254; 0; 0; 0; 0; 0; 0; 0; 0; 0; 0; 0; 0; 0]) /\
  option_map bytes_of (Uint128.UnmarshalFrom false str)
    = Some (mkULID [0; 1; 254; 0; 0; 0; 0; 0; 0; 0; 0; 0; 0; 0; 0; 0]) /\
  option_map bytes_of (Uint128.UnmarshalFrom false str) <> UnmarshalFrom false str ULID_zero /\
  option_map bytes_of (Uint128.UnmarshalFrom true str) <> UnmarshalFrom true str ULID_zero.
Proof.
  intros str. split; [reflexivity|]. split; [vm_compute; reflexivity|].
  split; [vm_compute; reflexivity|].
  split; intros H; vm_compute in H; discriminate H.
Qed.

(** ** Decoding without validation *)

Lemma ascii_char_in_table cs c :
  (N_of_ascii c < 128)%N -> in_table (int_of_char cs c) = true.
Proof.
  intros Hc. unfold in_table, int_of_char.
  replace (128 <=? Z.of_N (N_of_ascii c)) with false by (symmetry; apply Z.leb_gt; lia).
  rewrite andb_false_r. apply andb_true_intro.
  split; [apply Z.leb_le | apply Z.ltb_lt]; lia.
Qed.

Lemma ascii_text_reads cs str : ascii_text str -> reads_defined cs str = true.
Proof.
  intros [Hlen Hall]. unfold reads_defined. apply andb_true_intro.
  split; [apply Nat.leb_le, Hlen|].
  apply forallb_forall. intros c Hc. apply ascii_char_in_table.
  rewrite Forall_forall in Hall. apply Hall, list_elem_of_In, Hc.
Qed.

(** Among the 7-bit characters the table holds the sentinel exactly at
    those outside the alphabet, and a 5-bit value at the others. *)
Lemma dec_sentinel cs c :
  (N_of_ascii c < 128)%N ->
  (dec_at (int_of_char cs c) = 0xFF <->
     ~ In c (list_ascii_of_string "0123456789ABCDEFGHJKMNPQRSTVWXYZ")) /\
  (In c (list_ascii_of_string "0123456789ABCDEFGHJKMNPQRSTVWXYZ") ->
     is_index (dec_at (int_of_char cs c))).
Proof.
  intros Hc.
  set (alphabet := list_ascii_of_string "0123456789ABCDEFGHJKMNPQRSTVWXYZ").
  assert (forallb (fun n =>
            let c := ascii_of_N n in
            let d := dec_at (int_of_char cs c) in
            if existsb (Ascii.eqb c) alphabet then d <? 32 else d =? 255)
          (map N.of_nat (seq 0 128)) = true) as Hall
    by (destruct cs; vm_compute; reflexivity).
  rewrite forallb_forall in Hall. specialize (Hall (N_of_ascii c)).
  rewrite ascii_N_embedding in Hall. cbv zeta in Hall.
  assert (In (N_of_ascii c) (map N.of_nat (seq 0 128))) as Hin.
  { apply in_map_iff. exists (N.to_nat (N_of_ascii c)). split; [lia | apply in_seq; lia]. }
  specialize (Hall Hin).
  assert (0 <= dec_at (int_of_char cs c)) as Hnn.
  { unfold dec_at. destruct (nth_in_or_default (Z.to_nat (int_of_char cs c)) dec 255) as [H | ->];
      [|lia].
    revert H. generalize (nth (Z.to_nat (int_of_char cs c)) dec 255).
    apply (proj1 (List.Forall_forall _ _)).
    unfold dec. repeat (apply List.Forall_cons; [lia|]). apply List.Forall_nil. }
  destruct (existsb (Ascii.eqb c) alphabet) eqn:Hex.
  - apply existsb_exists in Hex as (c' & Hc' & Heq). apply Ascii.eqb_eq in Heq. subst c'.
    apply Z.ltb_lt in Hall. split; [split|].
    + intros H. lia.
    + intros H. contradiction.
    + intros _. unfold is_index. lia.
  - apply Z.eqb_eq in Hall. split; [split|].
    + intros _ Hin'. assert (existsb (Ascii.eqb c) alphabet = true) as E.
      { apply existsb_exists. exists c. split; [exact Hin' | apply Ascii.eqb_refl]. }
      congruence.
    + intros _. exact Hall.
    + intros Hin'. assert (existsb (Ascii.eqb c) alphabet = true) as E.
      { apply existsb_exists. exists c. split; [exact Hin' | apply Ascii.eqb_refl]. }
      congruence.
Qed.

Lemma UnmarshalFrom_wf cs str v u :
  length (data v) = 16%nat -> UnmarshalFrom cs str v = Some u -> ULID_wf u.
Proof.
  intros Hv. destruct v as [lv]. cbn [data] in Hv. destruct_bytes lv Hv.
  unfold UnmarshalFrom. destruct (reads_defined cs str); [|discriminate].
  intros [= <-]. unfold set. cbn [data insert list_insert]. split; [reflexivity|].
  cbn [data]. repeat (apply List.Forall_cons; [unfold is_byte; apply u8_range|]).
  apply List.Forall_nil.
Qed.

(** C5, as stated: a text ending in a lower-case letter is decoded, and an
    identifier comes back with the sentinel in its last byte. *)
Lemma UnmarshalFrom_accepts_lowercase :
  let str := list_ascii_of_string "0000000000000000000000000a" in
  length str = 26%nat /\
  ~ In (nth 25 str NUL) (list_ascii_of_string "0123456789ABCDEFGHJKMNPQRSTVWXYZ") /\
  UnmarshalFrom true str ULID_zero
    = Some (mkULID [0; 0; 0; 0; 0; 0; 0; 0; 0; 0; 0; 0; 0; 0; 0; 255]) /\
  Unmarshal true "0000000000000000000000000a"
    = Some (mkULID [0; 0; 0; 0; 0; 0; 0; 0; 0; 0; 0; 0; 0; 0; 0; 255]) /\
  Uint128.Unmarshal true "0000000000000000000000000a" = Some 255 /\
  Wrapper._cpp_ulid_to_bytes Wrapper.struct_hh true str ULID_zero
    = Some [0; 0; 0; 0; 0; 0; 0; 0; 0; 0; 0; 0; 0; 0; 0; 255].
Proof.
  intros str. split; [reflexivity|]. split.
  - cbn. intros H. repeat (destruct H as [H|H]; [discriminate H|]). exact H.
  - repeat split; vm_compute; reflexivity.
Qed.

(** ** Identifiers at a given time *)

(** The conversion to [int64_t] discards the fraction: it is the floor of
    a value that is not negative and the ceiling of a negative one. *)
Lemma int64_of_double_truncates p ms :
  int64_of_double p = Some ms ->
  exists q, Q_of_double p = Some q /\
            ms = if Qle_bool 0 q then Qfloor q else Qceiling q.
Proof.
  destruct p as [s | s | | s m e]; cbn [int64_of_double Q_of_double]; try discriminate.
  - intros [= <-]. exists 0%Q. split; reflexivity.
  - destruct (_ && _); [|discriminate]. intros [= <-]. eexists. split; [reflexivity|].
    destruct (Z.leb_spec 0 e) as [He | He].
    + rewrite Qfloor_Z. unfold Qceiling. rewrite <- inject_Z_opp, Qfloor_Z, Z.opp_involutive.
      assert (0 < 2 ^ e) by (apply Z.pow_pos_nonneg; lia).
      destruct s; [|destruct (Qle_bool _ _); lia].
      destruct (Qle_bool _ _); change (Z.neg m) with (- Z.pos m); lia.
    + assert (0 < 2 ^ (- e)) as Hpos by (apply Z.pow_pos_nonneg; lia).
      unfold Qceiling, Qfloor, Qle_bool, Qopp. cbn [Qnum Qden].
      rewrite Z2Pos.id by exact Hpos.
      destruct s.
      * replace (0 * _ <=? Z.neg m * 1) with false by (symmetry; apply Z.leb_gt; lia).
        reflexivity.
      * replace (0 * _ <=? Z.pos m * 1) with true by (symmetry; apply Z.leb_le; lia).
        reflexivity.
Qed.

Lemma bytes_to_timestamp_prefix b b' :
  take 6 b = take 6 b' -> (6 <= length b)%nat -> (6 <= length b')%nat ->
  Wrapper._cpp_bytes_to_timestamp b = Wrapper._cpp_bytes_to_timestamp b'.
Proof.
  intros Htake Hb Hb'. unfold Wrapper._cpp_bytes_to_timestamp.
  replace (6 <=? length b)%nat with true by (symmetry; apply Nat.leb_le, Hb).
  replace (6 <=? length b')%nat with true by (symmetry; apply Nat.leb_le, Hb').
  assert (forall i, (i < 6)%nat -> nth i b 0 = nth i b' 0) as Hn.
  { intros i Hi. rewrite <- (take_drop 6 b), <- (take_drop 6 b'), Htake.
    rewrite !app_nth1 by (rewrite length_take; lia). reflexivity. }
  cbv zeta. rewrite !Hn by lia. reflexivity.
Qed.

Lemma EncodeEntropyRand_draws {S} (rand : S -> Z * S) RAND_MAX u s :
  length (data u) = 16%nat ->
  EncodeEntropyRand rand RAND_MAX u s =
    (mkULID (take 6 (data u) ++ fst (draws (rand_byte rand RAND_MAX) 10 s)),
     snd (draws (rand_byte rand RAND_MAX) 10 s)).
Proof. apply (EncodeEntropy_draws (rand_byte rand RAND_MAX)). Qed.

Lemma draws_rand_byte {S} (rand : S -> Z * S) RAND_MAX n s :
  Forall is_byte (fst (draws (rand_byte rand RAND_MAX) n s)).
Proof.
  revert s. induction n as [|n IH]; intros s; cbn [draws]; [apply List.Forall_nil|].
  unfold rand_byte at 1, bind, ret. destruct (rand s) as [r s1]. specialize (IH s1).
  destruct (draws _ n s1) as [bs s2]. cbn [fst] in *.
  apply List.Forall_cons; [unfold is_byte; apply u8_range | exact IH].
Qed.

(** The identifier [_cpp_ulid_at_time] and [_cpp_ulid_at_time_bytes] build
    in the array representation. *)
Lemma at_time_struct {S} (rand : S -> Z * S) RAND_MAX s ms :
  let u := fst (EncodeEntropyRand rand RAND_MAX (EncodeTimestamp ms ULID_zero) s) in
  ULID_wf u /\
  Wrapper._cpp_bytes_to_timestamp (MarshalBinaryTo u) = Some (ms mod 2 ^ 48).
Proof.
  intros u. unfold u.
  assert (length (data (EncodeTimestamp ms ULID_zero)) = 16%nat) as Hlen
    by (apply EncodeTimestamp_length; reflexivity).
  rewrite EncodeEntropyRand_draws by exact Hlen. cbn [fst].
  pose proof (draws_length (rand_byte rand RAND_MAX) 10 s) as Hd.
  pose proof (draws_rand_byte rand RAND_MAX 10 s) as Hb.
  destruct (draws _ 10 s) as [bs s']. cbn [fst] in *.
  assert (length (take 6 (data (EncodeTimestamp ms ULID_zero))) = 6%nat) as H6
    by (rewrite length_take; lia).
  assert (ULID_wf (mkULID (take 6 (data (EncodeTimestamp ms ULID_zero)) ++ bs))) as Hwf.
  { split; cbn [data]; [rewrite length_app; lia|].
    apply Forall_app. split; [|exact Hb].
    rewrite EncodeTimestamp_data by reflexivity. cbn [take app].
    repeat (apply List.Forall_cons; [unfold is_byte; apply u8_range|]).
    apply List.Forall_nil. }
  split; [exact Hwf|].
  rewrite MarshalBinaryTo_data by apply Hwf. cbn [data].
  rewrite <- (bytes_to_timestamp_encoded ms ULID_zero) by reflexivity.
  unfold MarshalBinary. rewrite MarshalBinaryTo_data by exact Hlen.
  apply bytes_to_timestamp_prefix.
  - rewrite take_app_le by lia. rewrite take_take. reflexivity.
  - rewrite length_app. lia.
  - lia.
Qed.

Ltac u8_eq :=
  apply (bits_eq_below 8);
  [ lia | apply u8_range | first [apply u8_range | assumption]
  | for_each_below 8%nat bit_goal ].

Lemma EncodeTimestamp_bytes_of t u :
  bytes_of (Uint128.EncodeTimestamp t u) = EncodeTimestamp t (bytes_of u).
Proof.
  rewrite !bytes_of_eq. unfold EncodeTimestamp, set, Uint128.MarshalBinaryTo.
  cbn [data insert list_insert]. f_equal.
  unfold Uint128.EncodeTimestamp.
  let m := eval vm_compute in (u128 (u128 (1 ≪ 80) - 1)) in
  change (u128 (u128 (1 ≪ 80) - 1)) with m.
  cbv zeta.
  (do 15 (f_equal; [u8_eq|])). f_equal. u8_eq.
Qed.

Lemma EncodeEntropy_bytes_of {S} (rng : S -> Z * S) u s :
  (forall s, is_byte (fst (rng s))) ->
  (bytes_of (fst (Uint128.EncodeEntropy rng u s)), snd (Uint128.EncodeEntropy rng u s))
    = EncodeEntropy rng (bytes_of u) s.
Proof.
  intros Hrng. rewrite (bytes_of_eq u).
  unfold Uint128.EncodeEntropy, EncodeEntropy, bind, ret, set.
  cbn [data insert list_insert Uint128.MarshalBinaryTo].
  repeat match goal with
         | |- context [rng ?x] =>
             let r := fresh "r" in let s' := fresh "s" in
             pose proof (Hrng x); destruct (rng x) as [r s']
         end.
  cbn [fst snd] in *. f_equal. rewrite bytes_of_eq. f_equal.
  unfold Uint128.MarshalBinaryTo.
  (do 15 (f_equal; [u8_eq|])). f_equal. u8_eq.
Qed.

Lemma rand_scaled_byte {S} (rand : S -> Z * S) RAND_MAX s :
  0 < RAND_MAX < 2 ^ 31 -> (forall s, 0 <= fst (rand s) <= RAND_MAX) ->
  is_byte (fst (Uint128.rand_scaled rand RAND_MAX s)).
Proof.
  intros HR Hrand. unfold Uint128.rand_scaled, bind, ret.
  specialize (Hrand s). destruct (rand s) as [r s']. cbn [fst] in *.
  assert (2 ^ 31 * 255 < 2 ^ 64) by reflexivity.
  unfold u64, is_byte. rewrite Z.mod_small by lia. split.
  - apply Z.div_pos; lia.
  - apply Z.div_lt_upper_bound; lia.
Qed.

Lemma rand_byte_scaled {S} (rand : S -> Z * S) RAND_MAX s :
  0 < RAND_MAX < 2 ^ 31 -> (forall s, 0 <= fst (rand s) <= RAND_MAX) ->
  rand_byte rand RAND_MAX s = Uint128.rand_scaled rand RAND_MAX s.
Proof.
  intros HR Hrand. pose proof (rand_scaled_byte rand RAND_MAX s HR Hrand) as Hb.
  unfold rand_byte, Uint128.rand_scaled, bind, ret in *.
  destruct (rand s) as [r s']. cbn [fst] in Hb. rewrite u8_small by exact Hb. reflexivity.
Qed.

Lemma EncodeEntropy_ext {S} (f g : S -> Z * S) u s :
  (forall s, f s = g s) -> EncodeEntropy f u s = EncodeEntropy g u s.
Proof.
  intros H. unfold EncodeEntropy, bind, ret.
  repeat (rewrite H; destruct (g _) as [? ?]). reflexivity.
Qed.

Lemma EncodeEntropyRand_bytes_of {S} (rand : S -> Z * S) RAND_MAX u s :
  0 < RAND_MAX < 2 ^ 31 -> (forall s, 0 <= fst (rand s) <= RAND_MAX) ->
  (bytes_of (fst (Uint128.EncodeEntropyRand rand RAND_MAX u s)),
   snd (Uint128.EncodeEntropyRand rand RAND_MAX u s))
    = EncodeEntropyRand rand RAND_MAX (bytes_of u) s.
Proof.
  intros HR Hrand.
  change (Uint128.EncodeEntropyRand rand RAND_MAX u s)
    with (Uint128.EncodeEntropy (Uint128.rand_scaled rand RAND_MAX) u s).
  rewrite EncodeEntropy_bytes_of by (intros; apply rand_scaled_byte; assumption).
  change (EncodeEntropyRand rand RAND_MAX (bytes_of u) s)
    with (EncodeEntropy (rand_byte rand RAND_MAX) (bytes_of u) s).
  symmetry. apply EncodeEntropy_ext. intros. apply rand_byte_scaled; assumption.
Qed.

Lemma EncodeEntropyRand_after_timestamp {S} (rand : S -> Z * S) RAND_MAX ms y y' s :
  length (data y) = 16%nat -> length (data y') = 16%nat ->
  EncodeEntropyRand rand RAND_MAX (EncodeTimestamp ms y) s
    = EncodeEntropyRand rand RAND_MAX (EncodeTimestamp ms y') s.
Proof.
  intros Hy Hy'.
  rewrite !EncodeEntropyRand_draws by (apply EncodeTimestamp_length; assumption).
  rewrite !EncodeTimestamp_data by assumption. reflexivity.
Qed.

(** C8, as the code has it: the timestamp of the identifier built at
    [epoch_time] is the [double] product [epoch_time * 1000] with its
    fraction discarded, modulo [2 ^ 48]: its floor when the product is not
    negative, its ceiling when it is.  Both builds write the same bytes and
    the same text. *)
Theorem at_time_truncates {S} (rand : S -> Z * S) (RAND_MAX : Z) (s : S)
    (char_signed : bool) (epoch_time : double)
    (ulid_s : ULID) (ulid_u : Uint128.ULID) (ms : Z) :
  0 < RAND_MAX < 2 ^ 31 -> (forall s, 0 <= fst (rand s) <= RAND_MAX) ->
  Wrapper.declared Wrapper.struct_hh ulid_s ->
  Wrapper.declared Wrapper.uint128_hh ulid_u ->
  int64_of_double (double_mul epoch_time (double_of_int 1000)) = Some ms ->
  (exists q, Q_of_double (double_mul epoch_time (double_of_int 1000)) = Some q /\
             ms = if Qle_bool 0 q then Qfloor q else Qceiling q) /\
  (exists u s', ULID_wf u /\
     Wrapper._cpp_bytes_to_timestamp (MarshalBinaryTo u) = Some (ms mod 2 ^ 48) /\
     Wrapper._cpp_ulid_at_time_bytes Wrapper.struct_hh rand RAND_MAX epoch_time ulid_s s
       = (Some (MarshalBinaryTo u), s') /\
     Wrapper._cpp_ulid_at_time_bytes Wrapper.uint128_hh rand RAND_MAX epoch_time ulid_u s
       = (Some (MarshalBinaryTo u), s') /\
     Wrapper._cpp_ulid_at_time Wrapper.struct_hh rand RAND_MAX epoch_time ulid_s s
       = (Some (MarshalTo u), s') /\
     Wrapper._cpp_ulid_at_time Wrapper.uint128_hh rand RAND_MAX epoch_time ulid_u s
       = (Some (MarshalTo u), s') /\
     UnmarshalFrom char_signed (MarshalTo u) ULID_zero = Some u).
Proof.
  intros HR Hrand Hs _ Hms. cbn [Wrapper.declared Wrapper.struct_hh] in Hs. subst ulid_s.
  split; [apply int64_of_double_truncates, Hms|].
  pose proof (at_time_struct rand RAND_MAX s ms) as [Hwf Hts].
  pose proof (EncodeEntropyRand_bytes_of rand RAND_MAX
                (Uint128.EncodeTimestamp ms ulid_u) s HR Hrand) as H128.
  rewrite EncodeTimestamp_bytes_of in H128.
  rewrite (EncodeEntropyRand_after_timestamp rand RAND_MAX ms (bytes_of ulid_u) ULID_zero)
    in H128 by (apply bytes_of_wf || reflexivity).
  unfold Wrapper._cpp_ulid_at_time_bytes, Wrapper._cpp_ulid_at_time. rewrite Hms.
  cbn [Wrapper.EncodeTimestamp Wrapper.EncodeEntropyRand Wrapper.MarshalTo
       Wrapper.MarshalBinaryTo Wrapper.struct_hh Wrapper.uint128_hh].
  unfold bind, ret.
  destruct (EncodeEntropyRand rand RAND_MAX (EncodeTimestamp ms ULID_zero) s) as [u s'].
  destruct (Uint128.EncodeEntropyRand rand RAND_MAX (Uint128.EncodeTimestamp ms ulid_u) s)
    as [U s128].
  cbn [fst snd] in *. injection H128 as HU Hs. subst s128.
  exists u, s'. split; [exact Hwf|]. split; [exact Hts|].
  split; [reflexivity|].
  split; [rewrite MarshalBinaryTo_bytes_of, HU; reflexivity|].
  split; [reflexivity|].
  split; [rewrite MarshalTo_bytes_of, HU; reflexivity|].
  rewrite <- (app_nil_r (MarshalTo u)).
  apply UnmarshalFrom_MarshalTo; [exact Hwf | reflexivity].
Qed.

Lemma lcg_range s : 0 <= fst (lcg s) <= 2147483647.
Proof.
  unfold lcg. cbn [fst].
  pose proof (Z.mod_pos_bound (1103515245 * s + 12345) (2 ^ 31) ltac:(lia)) as H.
  change (2 ^ 31) with 2147483648 in *. lia.
Defined.

Lemma at_time_truncates_witness :
  int64_of_double (double_mul (double_of_int 1700000000) (double_of_int 1000))
    = Some 1700000000000 /\
  Wrapper._cpp_ulid_at_time_bytes Wrapper.struct_hh lcg 2147483647
    (double_of_int 1700000000) ULID_zero 42
  = Wrapper._cpp_ulid_at_time_bytes Wrapper.uint128_hh lcg 2147483647
    (double_of_int 1700000000) 777 42.
Proof.
  assert (int64_of_double (double_mul (double_of_int 1700000000) (double_of_int 1000))
            = Some 1700000000000) as Hms by (vm_compute; reflexivity).
  split; [exact Hms|].
  assert (Uint128.ULID_wf 777) as H777 by (split; [lia | reflexivity]).
  destruct (at_time_truncates lcg 2147483647 42 true (double_of_int 1700000000)
              ULID_zero 777 1700000000000
              (conj eq_refl eq_refl) lcg_range eq_refl H777 Hms)
    as (_ & u & s' & _ & _ & Hs & H128 & _).
  rewrite Hs, H128. reflexivity.
Defined.

(** C8, as stated: at [epoch_time = -2^-10] the product is [-125/128]
    exactly, its floor is -1, and the identifier carries the timestamp 0
    rather than [-1 mod 2^48]. *)
Lemma at_time_not_floor :
  let p := double_mul minus_2_pow_minus_10 (double_of_int 1000) in
  valid_binary 53 1024 minus_2_pow_minus_10 = true /\
  (exists q, Q_of_double p = Some q /\ (q == - (125 # 128))%Q /\ Qfloor q = -1) /\
  int64_of_double p = Some 0 /\
  (exists bytes,
     fst (Wrapper._cpp_ulid_at_time_bytes Wrapper.struct_hh lcg 2147483647
            minus_2_pow_minus_10 ULID_zero 42) = Some bytes /\
     fst (Wrapper._cpp_ulid_at_time_bytes Wrapper.uint128_hh lcg 2147483647
            minus_2_pow_minus_10 777 42) = Some bytes /\
     Wrapper._cpp_bytes_to_timestamp bytes = Some 0) /\
  0 <> (-1) mod 2 ^ 48.
Proof.
  intros p. split; [reflexivity|]. split.
  { eexists. split; [vm_compute; reflexivity|]. split; reflexivity. }
  split; [vm_compute; reflexivity|]. split.
  { eexists. split; [vm_compute; reflexivity|]. split; vm_compute; reflexivity. }
  vm_compute. discriminate.
Qed.


(** ** The same facts in the scalar representation *)

Lemma dec_at_byte i : is_byte (dec_at i).
Proof.
  unfold dec_at. destruct (nth_in_or_default (Z.to_nat i) dec 255) as [H | ->];
    [|unfold is_byte; lia].
  revert H. generalize (nth (Z.to_nat i) dec 255).
  apply (proj1 (List.Forall_forall _ _)).
  unfold dec. repeat (apply List.Forall_cons; [unfold is_byte; lia|]). apply List.Forall_nil.
Qed.

Lemma bytes_of_inj x y :
  Uint128.ULID_wf x -> Uint128.ULID_wf y -> bytes_of x = bytes_of y -> x = y.
Proof.
  unfold Uint128.ULID_wf. intros Hx Hy H.
  assert (lex_compare (digits 256 16 x) (digits 256 16 y) = Eq) as E.
  { apply lex_compare_eq. unfold bytes_of in H. congruence. }
  rewrite digits_lex in E by lia. change (256 ^ Z.of_nat 16) with (2 ^ 128) in E.
  rewrite !Z.mod_small in E by lia. apply Z.compare_eq, E.
Qed.

Lemma Uint128_UnmarshalFrom_wf cs str u :
  Uint128.UnmarshalFrom cs str = Some u -> Uint128.ULID_wf u.
Proof.
  unfold Uint128.UnmarshalFrom. destruct (Uint128.reads_defined cs str); [|discriminate].
  intros [= <-]. unfold Uint128.ULID_wf.
  apply (lor_below 128); [lia | apply Z.mod_pos_bound; lia |].
  pose proof (dec_at_byte (int_of_char cs (nth 24 str NUL))) as H24.
  pose proof (dec_at_byte (int_of_char cs (nth 25 str NUL))) as H25.
  unfold Uint128.D, is_byte in *.
  assert (2 ^ 13 < 2 ^ 128) by (apply Z.pow_lt_mono_r; lia).
  enough (0 <= (dec_at (int_of_char cs (nth 24 str NUL)) ≪ 5)
               .| dec_at (int_of_char cs (nth 25 str NUL)) < 2 ^ 13) by lia.
  apply (lor_below 13); [lia | rewrite Z.shiftl_mul_pow2 by lia; lia | lia].
Qed.

Lemma Marshal_valid_text u : valid_text (list_ascii_of_string (Marshal u)).
Proof.
  rewrite Marshal_chars, list_ascii_of_string_of_list_ascii. split; [cbn; lia|].
  rewrite take_ge by (cbn; lia).
  rewrite MarshalTo_map. apply Forall_map_index; [|apply MarshalTo_indices_range].
  intros i Hi. apply Encoding_at_alphabet, Hi.
Qed.

(** The text round trip holds for the scalar as well. *)
Lemma Uint128_text_round_trip cs u :
  Uint128.ULID_wf u -> Uint128.Unmarshal cs (Uint128.Marshal u) = Some u.
Proof.
  intros Hu.
  pose proof (UnmarshalFrom_bytes_of cs (c_str (Uint128.Marshal u)) ULID_zero) as H.
  rewrite Marshal_bytes_of in *.
  assert (valid_text (c_str (Marshal (bytes_of u)))) as Hv.
  { destruct (Marshal_valid_text (bytes_of u)) as [Hlen Hall]. unfold c_str. split.
    - rewrite length_app. lia.
    - rewrite take_app_le by exact Hlen. exact Hall. }
  specialize (H Hv eq_refl).
  assert (UnmarshalFrom cs (c_str (Marshal (bytes_of u))) ULID_zero = Some (bytes_of u))
    as Hrt.
  { unfold c_str. rewrite Marshal_chars, list_ascii_of_string_of_list_ascii.
    apply UnmarshalFrom_MarshalTo; [apply bytes_of_wf | reflexivity]. }
  rewrite Hrt in H. unfold Uint128.Unmarshal.
  destruct (Uint128.UnmarshalFrom cs (c_str (Marshal (bytes_of u)))) as [U|] eqn:HU;
    [|discriminate H].
  cbn [option_map] in H. f_equal.
  apply bytes_of_inj; [eapply Uint128_UnmarshalFrom_wf, HU | exact Hu | congruence].
Qed.

(** * Further properties of the identifier codec *)

(** ** The binary form *)

Lemma UnmarshalBinaryFrom_data b v :
  (16 <= length b)%nat -> length (data v) = 16%nat ->
  UnmarshalBinaryFrom b v = Some (mkULID (take 16 b)).
Proof.
  intros Hb Hv. unfold UnmarshalBinaryFrom.
  destruct v as [lv]. cbn [data] in Hv. destruct_bytes lv Hv.
  do 16 (destruct b as [|? b]; [cbn in Hb; lia|]). reflexivity.
Qed.

Lemma Uint128_UnmarshalBinaryFrom_take b :
  (16 <= length b)%nat ->
  Uint128.UnmarshalBinaryFrom b = Uint128.UnmarshalBinaryFrom (take 16 b).
Proof.
  intros Hb. do 16 (destruct b as [|? b]; [cbn in Hb; lia|]).
  unfold Uint128.UnmarshalBinaryFrom. cbn [length Nat.leb take nth]. reflexivity.
Qed.

Lemma Uint128_UnmarshalBinaryFrom_wf b x :
  Forall is_byte b -> Uint128.UnmarshalBinaryFrom b = Some x -> Uint128.ULID_wf x.
Proof.
  intros Hb. unfold Uint128.UnmarshalBinaryFrom.
  destruct (16 <=? length b)%nat eqn:E; [|discriminate].
  intros [= <-]. apply (lor_below 128); [lia | apply Z.mod_pos_bound; lia |].
  apply Nat.leb_le in E.
  assert (is_byte (nth 15 b 0)) as H15.
  { rewrite Forall_forall in Hb. apply Hb, list_elem_of_In, nth_In. lia. }
  unfold is_byte in H15. assert (2 ^ 8 < 2 ^ 128) by (apply Z.pow_lt_mono_r; lia). lia.
Qed.

(** The scalar decoded from 16 bytes has those bytes. *)
Lemma Uint128_UnmarshalBinaryFrom_bytes c :
  length c = 16%nat -> Forall is_byte c ->
  exists x, Uint128.UnmarshalBinaryFrom c = Some x /\
            Uint128.ULID_wf x /\ bytes_of x = mkULID c.
Proof.
  intros Hc Hcb.
  pose proof (UnmarshalBinaryFrom_bytes_of c ULID_zero Hc Hcb eq_refl) as H.
  rewrite UnmarshalBinaryFrom_data in H by (rewrite ?Hc; cbn; lia).
  rewrite take_ge in H by lia.
  destruct (Uint128.UnmarshalBinaryFrom c) as [x|] eqn:E; [|discriminate H].
  exists x. split; [reflexivity|]. split.
  - eapply Uint128_UnmarshalBinaryFrom_wf; eassumption.
  - cbn [option_map] in H. congruence.
Qed.

(** Every array of 16 bytes is the byte form of a 128-bit scalar. *)
Lemma bytes_of_surj a :
  ULID_wf a -> exists x, Uint128.ULID_wf x /\ bytes_of x = a.
Proof.
  intros [Hlen Hb].
  pose proof (UnmarshalBinaryFrom_bytes_of (data a) ULID_zero Hlen Hb eq_refl) as H.
  rewrite UnmarshalBinaryFrom_data in H by (rewrite ?Hlen; cbn; lia).
  rewrite take_ge in H by lia.
  destruct (Uint128.UnmarshalBinaryFrom (data a)) as [x|] eqn:E; [|discriminate H].
  exists x. split; [eapply Uint128_UnmarshalBinaryFrom_wf; eassumption|].
  cbn [option_map] in H. destruct a. cbn [data] in H. congruence.
Qed.

(** X1. In the array representation the binary form round-trips in both
    directions: decoding the 16 bytes written for an identifier gives the
    identifier back, and writing the identifier decoded from a buffer
    gives back the first 16 bytes of the buffer; what follows them is not
    read, and what the destination held before does not matter. *)
Theorem array_binary_round_trip (u v : ULID) (b : list Z) :
  length (data u) = 16%nat -> length (data v) = 16%nat -> (16 <= length b)%nat ->
  UnmarshalBinaryFrom (MarshalBinaryTo u) v = Some u /\
  option_map MarshalBinaryTo (UnmarshalBinaryFrom b v) = Some (take 16 b).
Proof.
  intros Hu Hv Hb. split.
  - rewrite UnmarshalBinaryFrom_data by (cbn; lia || exact Hv).
    rewrite MarshalBinaryTo_data by exact Hu.
    rewrite take_ge by lia. destruct u. reflexivity.
  - rewrite UnmarshalBinaryFrom_data by assumption. cbn [option_map]. f_equal.
    apply MarshalBinaryTo_data. cbn [data]. rewrite length_take. lia.
Qed.

Lemma array_binary_round_trip_witness :
  let u := mkULID [1; 93; 142; 92; 54; 0; 7; 7; 7; 200; 0; 0; 0; 0; 0; 255] in
  let b := [9; 8; 7; 6; 5; 4; 3; 2; 1; 0; 255; 254; 253; 252; 251; 250; 77; 78] in
  UnmarshalBinaryFrom (MarshalBinaryTo u) ULID_zero = Some u /\
  option_map MarshalBinaryTo (UnmarshalBinaryFrom b ULID_zero) = Some (take 16 b).
Proof.
  intros u b.
  apply (array_binary_round_trip u ULID_zero b); [reflexivity | reflexivity | cbn; lia].
Defined.

Lemma Uint128_UnmarshalBinaryFrom_MarshalBinaryTo u :
  Uint128.ULID_wf u -> Uint128.UnmarshalBinaryFrom (Uint128.MarshalBinaryTo u) = Some u.
Proof.
  intros Hu.
  destruct (Uint128_UnmarshalBinaryFrom_bytes (Uint128.MarshalBinaryTo u))
    as (x & Hx & Hwf & Hbytes).
  - reflexivity.
  - rewrite <- bytes_of_data. apply bytes_of_wf.
  - rewrite Hx. f_equal. apply bytes_of_inj; [exact Hwf | exact Hu |].
    rewrite Hbytes. symmetry. apply bytes_of_eq.
Qed.

(** X2. The same for the 128-bit scalar: the 16 bytes written for a scalar
    decode to that scalar, and the scalar decoded from a buffer of bytes
    writes back as the first 16 bytes of the buffer. *)
Theorem Uint128_binary_round_trip (u : Uint128.ULID) (b : list Z) :
  Uint128.ULID_wf u -> (16 <= length b)%nat -> Forall is_byte b ->
  Uint128.UnmarshalBinaryFrom (Uint128.MarshalBinaryTo u) = Some u /\
  option_map Uint128.MarshalBinaryTo (Uint128.UnmarshalBinaryFrom b) = Some (take 16 b).
Proof.
  intros Hu Hlen Hb.
  pose proof Uint128_UnmarshalBinaryFrom_bytes as Hdec.
  split; [apply Uint128_UnmarshalBinaryFrom_MarshalBinaryTo, Hu|].
  rewrite Uint128_UnmarshalBinaryFrom_take by exact Hlen.
  destruct (Hdec (take 16 b)) as (x & Hx & Hwf & Hbytes).
  - rewrite length_take. lia.
  - apply Forall_take, Hb.
  - rewrite Hx. cbn [option_map]. f_equal.
    rewrite <- bytes_of_data, Hbytes. reflexivity.
Qed.

Lemma Uint128_binary_round_trip_witness :
  let b := [9; 8; 7; 6; 5; 4; 3; 2; 1; 0; 255; 254; 253; 252; 251; 250; 77; 78] in
  Uint128.UnmarshalBinaryFrom (Uint128.MarshalBinaryTo (2 ^ 127 + 12345)) = Some (2 ^ 127 + 12345) /\
  option_map Uint128.MarshalBinaryTo (Uint128.UnmarshalBinaryFrom b) = Some (take 16 b).
Proof.
  intros b. apply (Uint128_binary_round_trip (2 ^ 127 + 12345) b).
  - split; [lia | reflexivity].
  - cbn; lia.
  - repeat (apply List.Forall_cons; [unfold is_byte; lia|]). apply List.Forall_nil.
Defined.

(** ** The text form of the scalar *)

Lemma MarshalTo_valid_text u rest : valid_text (MarshalTo u ++ rest).
Proof.
  pose proof (Marshal_valid_text u) as [Hlen Hall].
  rewrite Marshal_chars, list_ascii_of_string_of_list_ascii in Hlen, Hall.
  split; [rewrite length_app; lia|].
  rewrite take_app_le by exact Hlen. exact Hall.
Qed.

(** X3. The text round trip holds for the 128-bit scalar too: the 26
    characters written for a scalar decode to that scalar, whatever
    follows them in the buffer, and [Unmarshal] inverts [Marshal]. *)
Theorem Uint128_text_encode_decode (char_signed : bool) (u : Uint128.ULID)
    (rest : list ascii) :
  Uint128.ULID_wf u ->
  Uint128.UnmarshalFrom char_signed (Uint128.MarshalTo u ++ rest) = Some u /\
  Uint128.Unmarshal char_signed (Uint128.Marshal u) = Some u.
Proof.
  intros Hu. split; [|apply Uint128_text_round_trip, Hu].
  rewrite MarshalTo_bytes_of.
  pose proof (UnmarshalFrom_bytes_of char_signed (MarshalTo (bytes_of u) ++ rest) ULID_zero
                (MarshalTo_valid_text _ _) eq_refl) as H.
  rewrite UnmarshalFrom_MarshalTo in H by (apply bytes_of_wf || reflexivity).
  destruct (Uint128.UnmarshalFrom char_signed (MarshalTo (bytes_of u) ++ rest)) as [x|] eqn:E;
    [|discriminate H].
  cbn [option_map] in H. f_equal.
  apply bytes_of_inj; [eapply Uint128_UnmarshalFrom_wf, E | exact Hu | congruence].
Qed.

Lemma Uint128_text_encode_decode_witness :
  Uint128.UnmarshalFrom true
    (Uint128.MarshalTo (2 ^ 127 + 12345) ++ list_ascii_of_string "tail") = Some (2 ^ 127 + 12345) /\
  Uint128.Unmarshal true (Uint128.Marshal (2 ^ 127 + 12345)) = Some (2 ^ 127 + 12345).
Proof.
  apply (Uint128_text_encode_decode true (2 ^ 127 + 12345) (list_ascii_of_string "tail")).
  split; [lia | reflexivity].
Defined.

(** ** The text is the number in base 32 *)

Lemma digits_32_26 x :
  digits 32 26 x =
    [ (x / 2 ^ 125) mod 2 ^ 5; (x / 2 ^ 120) mod 2 ^ 5; (x / 2 ^ 115) mod 2 ^ 5;
      (x / 2 ^ 110) mod 2 ^ 5; (x / 2 ^ 105) mod 2 ^ 5; (x / 2 ^ 100) mod 2 ^ 5;
      (x / 2 ^ 95) mod 2 ^ 5; (x / 2 ^ 90) mod 2 ^ 5; (x / 2 ^ 85) mod 2 ^ 5;
      (x / 2 ^ 80) mod 2 ^ 5; (x / 2 ^ 75) mod 2 ^ 5; (x / 2 ^ 70) mod 2 ^ 5;
      (x / 2 ^ 65) mod 2 ^ 5; (x / 2 ^ 60) mod 2 ^ 5; (x / 2 ^ 55) mod 2 ^ 5;
      (x / 2 ^ 50) mod 2 ^ 5; (x / 2 ^ 45) mod 2 ^ 5; (x / 2 ^ 40) mod 2 ^ 5;
      (x / 2 ^ 35) mod 2 ^ 5; (x / 2 ^ 30) mod 2 ^ 5; (x / 2 ^ 25) mod 2 ^ 5;
      (x / 2 ^ 20) mod 2 ^ 5; (x / 2 ^ 15) mod 2 ^ 5; (x / 2 ^ 10) mod 2 ^ 5;
      (x / 2 ^ 5) mod 2 ^ 5; (x / 2 ^ 0) mod 2 ^ 5 ].
Proof. reflexivity. Qed.

(** The 26 indices [MarshalTo] looks up are the base-32 digits of the
    128-bit number the 16 bytes spell. *)
Lemma MarshalTo_indices_digits x :
  Uint128.ULID_wf x -> MarshalTo_indices (bytes_of x) = digits 32 26 x.
Proof.
  unfold Uint128.ULID_wf. intros Hx. rewrite digits_32_26, bytes_of_eq.
  unfold MarshalTo_indices, Uint128.MarshalBinaryTo. read_data.
  do 25 (f_equal; [digit_eq|]). f_equal. digit_eq.
Qed.

Lemma lex_compare_digits_wf base n x y :
  0 < base -> 0 <= x < base ^ Z.of_nat n -> 0 <= y < base ^ Z.of_nat n ->
  lex_compare (digits base n x) (digits base n y) = (x ?= y).
Proof.
  intros Hb Hx Hy. rewrite digits_lex by exact Hb. rewrite !Z.mod_small by assumption.
  reflexivity.
Qed.

(** Comparing the texts of two identifiers compares their bytes. *)
Lemma String_compare_MarshalTo a b :
  ULID_wf a -> ULID_wf b ->
  String.compare (string_of_list_ascii (MarshalTo a)) (string_of_list_ascii (MarshalTo b))
    = lex_compare (data a) (data b).
Proof.
  intros Ha Hb.
  destruct (bytes_of_surj a Ha) as (x & Hx & <-).
  destruct (bytes_of_surj b Hb) as (y & Hy & <-).
  rewrite !MarshalTo_map.
  rewrite String_compare_encoded by apply MarshalTo_indices_range.
  rewrite !MarshalTo_indices_digits by assumption.
  unfold bytes_of. cbn [data]. unfold Uint128.ULID_wf in Hx, Hy.
  assert (2 ^ 128 < 32 ^ Z.of_nat 26) by reflexivity.
  rewrite !lex_compare_digits_wf; try lia;
    reflexivity || (change (256 ^ Z.of_nat 16) with (2 ^ 128); lia).
Qed.

(** X4. The text order is the byte order, for all identifiers and not
    only across timestamps: comparing the texts of two identifiers as
    strings gives the lexicographic comparison of their 16 bytes, which is
    what [CompareULIDs] reports. *)
Theorem text_order_is_byte_order (a b : ULID) :
  ULID_wf a -> ULID_wf b ->
  String.compare (Marshal a) (Marshal b) = lex_compare (data a) (data b) /\
  CompareULIDs a b = sign_of (String.compare (Marshal a) (Marshal b)).
Proof.
  intros Ha Hb.
  assert (String.compare (Marshal a) (Marshal b) = lex_compare (data a) (data b)) as E.
  { rewrite !Marshal_chars. apply String_compare_MarshalTo; assumption. }
  split; [exact E|]. rewrite E. apply CompareULIDs_lex; [apply Ha | apply Hb].
Qed.

Lemma text_order_is_byte_order_witness :
  let a := mkULID [1; 93; 142; 92; 54; 0; 7; 7; 7; 7; 7; 7; 7; 7; 7; 8] in
  let b := mkULID [1; 93; 142; 92; 54; 0; 7; 7; 7; 7; 7; 7; 7; 7; 7; 7] in
  String.compare (Marshal a) (Marshal b) = lex_compare (data a) (data b) /\
  CompareULIDs a b = sign_of (String.compare (Marshal a) (Marshal b)).
Proof.
  intros a b. apply (text_order_is_byte_order a b).
  - split; [reflexivity|]. cbn [data].
    repeat (apply List.Forall_cons; [unfold is_byte; lia|]). apply List.Forall_nil.
  - split; [reflexivity|]. cbn [data].
    repeat (apply List.Forall_cons; [unfold is_byte; lia|]). apply List.Forall_nil.
Defined.

(** ** From text to identifier and back *)

Lemma Encoding_at_dec cs c :
  In c (list_ascii_of_string "0123456789ABCDEFGHJKMNPQRSTVWXYZ") ->
  Encoding_at (dec_at (int_of_char cs c)) = c.
Proof.
  revert c. apply (proj1 (List.Forall_forall _ _)).
  repeat (apply List.Forall_cons; [destruct cs; reflexivity|]).
  apply List.Forall_nil.
Qed.

Lemma octal_decodes cs c :
  In c (list_ascii_of_string "01234567") -> 0 <= dec_at (int_of_char cs c) < 8.
Proof.
  revert c. apply (proj1 (List.Forall_forall _ _)).
  repeat (apply List.Forall_cons; [destruct cs; vm_compute; split; congruence|]).
  apply List.Forall_nil.
Qed.

(** A 5-bit value recomputed from the bytes it was packed into. *)
Ltac index_eq :=
  apply (bits_eq_below 5);
  [ lia | index_range
  | first [ assumption
          | match goal with
            | |- _ <= ?k mod 2 ^ 3 < _ =>
                pose proof (Z.mod_pos_bound k (2 ^ 3) ltac:(lia));
                change (2 ^ 3) with 8 in *; change (2 ^ 5) with 32; lia
            end ]
  | for_each_below 5%nat bit_goal ].

(** The indices [MarshalTo] recovers from the bytes [UnmarshalFrom]
    packed are the 26 decoded values, the first one without its top two
    bits, which do not fit in 128. *)
Lemma MarshalTo_indices_UnmarshalFrom cs str v u :
  valid_text str -> length (data v) = 16%nat ->
  UnmarshalFrom cs str v = Some u ->
  MarshalTo_indices u = D cs str 0 mod 2 ^ 3 :: map (D cs str) (seq 1 25).
Proof.
  intros Hstr Hv. destruct (valid_text_reads cs str Hstr) as [Hreads Hidx].
  destruct v as [lv]. cbn [data] in Hv. destruct_bytes lv Hv.
  unfold UnmarshalFrom. rewrite Hreads. intros [= <-].
  unfold MarshalTo_indices, set. cbn [data insert list_insert seq map]. read_data.
  do 26 (let k := fresh "k" in
         match goal with |- context [D cs str ?i] =>
           pose proof (Hidx i ltac:(lia)); generalize dependent (D cs str i); intros k; intros
         end).
  clear Hidx Hreads Hstr.
  change is_index with (fun i => 0 <= i < 2 ^ 5) in *. cbv beta in *.
  do 25 (f_equal; [index_eq|]). f_equal. index_eq.
Qed.

Lemma valid_text_chars cs str k :
  valid_text str -> (k < 26)%nat ->
  In (nth k str NUL) (list_ascii_of_string "0123456789ABCDEFGHJKMNPQRSTVWXYZ") /\
  Encoding_at (D cs str k) = nth k str NUL.
Proof.
  intros [Hlen Hall] Hk.
  assert (In (nth k str NUL) (list_ascii_of_string "0123456789ABCDEFGHJKMNPQRSTVWXYZ")) as Hin.
  { rewrite Forall_forall in Hall. apply Hall.
    apply list_elem_of_lookup. exists k.
    rewrite lookup_take_lt by lia.
    destruct (lookup_lt_is_Some_2 str k) as [c Hc]; [lia|].
    rewrite (nth_lookup_Some _ _ NUL _ Hc). exact Hc. }
  split; [exact Hin|]. unfold D. apply Encoding_at_dec, Hin.
Qed.

Lemma take_drop_nth {A} (d : A) (l : list A) n m :
  (n + m <= length l)%nat ->
  take m (drop n l) = map (fun k => nth k l d) (seq n m).
Proof.
  revert n. induction m as [|m IH]; intros n Hn; [reflexivity|].
  cbn [seq map]. rewrite <- IH by lia.
  destruct (lookup_lt_is_Some_2 l n) as [c Hc]; [lia|].
  rewrite (nth_lookup_Some _ _ d _ Hc).
  rewrite (drop_S l c n Hc). reflexivity.
Qed.

Lemma MarshalTo_UnmarshalFrom cs str v u :
  valid_text str -> length (data v) = 16%nat ->
  UnmarshalFrom cs str v = Some u ->
  MarshalTo u = Encoding_at (D cs str 0 mod 2 ^ 3) :: take 25 (drop 1 str).
Proof.
  intros Hstr Hv Hu. rewrite MarshalTo_map.
  rewrite (MarshalTo_indices_UnmarshalFrom cs str v u Hstr Hv Hu).
  cbn [map]. f_equal. rewrite (take_drop_nth NUL) by (destruct Hstr; lia).
  rewrite map_map. apply map_ext_in. intros k Hk. apply in_seq in Hk.
  apply valid_text_chars; [exact Hstr | lia].
Qed.

Lemma UnmarshalFrom_valid_text cs str v :
  valid_text str -> length (data v) = 16%nat ->
  exists u x, UnmarshalFrom cs str v = Some u /\
              Uint128.UnmarshalFrom cs str = Some x /\ bytes_of x = u.
Proof.
  intros Hstr Hv. pose proof (UnmarshalFrom_bytes_of cs str v Hstr Hv) as H.
  destruct (valid_text_reads cs str Hstr) as [Hreads _].
  assert (exists u, UnmarshalFrom cs str v = Some u) as [u Hu]
    by (unfold UnmarshalFrom; rewrite Hreads; eauto).
  rewrite Hu in H.
  destruct (Uint128.UnmarshalFrom cs str) as [x|]; [|discriminate H].
  exists u, x. split; [exact Hu|]. split; [reflexivity|].
  cbn [option_map] in H. congruence.
Qed.

(** X5. Decoding then encoding a canonical text gives the text back, in
    both representations: for 26 symbols of the alphabet of which the
    first is one of 0 to 7, the identifier [UnmarshalFrom] builds is
    written by [MarshalTo] as the same 26 symbols. *)
Theorem decode_encode_round_trip (char_signed : bool) (str : list ascii) (v : ULID) :
  valid_text str -> In (nth 0 str NUL) (list_ascii_of_string "01234567") ->
  length (data v) = 16%nat ->
  exists u x,
    UnmarshalFrom char_signed str v = Some u /\ MarshalTo u = take 26 str /\
    Uint128.UnmarshalFrom char_signed str = Some x /\ Uint128.MarshalTo x = take 26 str.
Proof.
  intros Hstr H0 Hv.
  destruct (UnmarshalFrom_valid_text char_signed str v Hstr Hv) as (u & x & Hu & Hx & Hux).
  assert (MarshalTo u = take 26 str) as E.
  { rewrite (MarshalTo_UnmarshalFrom char_signed str v u Hstr Hv Hu).
    pose proof (octal_decodes char_signed _ H0) as Hd.
    change (2 ^ 3) with 8. unfold D at 1. rewrite Z.mod_small by exact Hd.
    fold (D char_signed str 0).
    rewrite (proj2 (valid_text_chars char_signed str 0 Hstr ltac:(lia))).
    destruct Hstr as [Hlen _]. destruct str as [|c str]; [cbn in Hlen; lia|].
    reflexivity. }
  exists u, x. repeat split; try assumption.
  rewrite MarshalTo_bytes_of, Hux. exact E.
Qed.

Lemma decode_encode_round_trip_witness :
  let str := list_ascii_of_string "01ARZ3NDEKTSV4RRFFQ69G5FAV" in
  exists u x,
    UnmarshalFrom true str ULID_zero = Some u /\ MarshalTo u = take 26 str /\
    Uint128.UnmarshalFrom true str = Some x /\ Uint128.MarshalTo x = take 26 str.
Proof.
  intros str. apply (decode_encode_round_trip true str ULID_zero).
  - split; [cbn; lia|].
    repeat (apply List.Forall_cons; [cbn; tauto|]). apply List.Forall_nil.
  - cbn. tauto.
  - reflexivity.
Defined.

(** X6. A text above the largest identifier is not rejected: the top two
    bits of the first symbol are dropped.  For any 26 symbols of the
    alphabet the decoded identifier is written back with the first symbol
    reduced modulo 8 and the other 25 unchanged, in both
    representations. *)
Theorem decode_drops_overflow (char_signed : bool) (str : list ascii) (v : ULID) :
  valid_text str -> length (data v) = 16%nat ->
  exists u x,
    UnmarshalFrom char_signed str v = Some u /\
    Uint128.UnmarshalFrom char_signed str = Some x /\
    MarshalTo u = Encoding_at (D char_signed str 0 mod 8) :: take 25 (drop 1 str) /\
    Uint128.MarshalTo x = MarshalTo u.
Proof.
  intros Hstr Hv.
  destruct (UnmarshalFrom_valid_text char_signed str v Hstr Hv) as (u & x & Hu & Hx & Hux).
  exists u, x. repeat split; try assumption.
  - exact (MarshalTo_UnmarshalFrom char_signed str v u Hstr Hv Hu).
  - rewrite MarshalTo_bytes_of, Hux. reflexivity.
Qed.

Lemma decode_drops_overflow_witness :
  let str := list_ascii_of_string "ZZZZZZZZZZZZZZZZZZZZZZZZZZ" in
  exists u x,
    UnmarshalFrom false str ULID_zero = Some u /\
    Uint128.UnmarshalFrom false str = Some x /\
    MarshalTo u = Encoding_at (D false str 0 mod 8) :: take 25 (drop 1 str) /\
    Uint128.MarshalTo x = MarshalTo u.
Proof.
  intros str. apply (decode_drops_overflow false str ULID_zero).
  - split; [cbn; lia|].
    repeat (apply List.Forall_cons; [cbn; tauto|]). apply List.Forall_nil.
  - reflexivity.
Defined.

(** ** The codec as arithmetic *)

Lemma fold_number_digits base n : forall x acc,
  0 < base ->
  fold_left (fun acc d => acc * base + d) (digits base n x) acc
    = acc * base ^ Z.of_nat n + x mod base ^ Z.of_nat n.
Proof.
  induction n as [|n IH]; intros x acc Hbase.
  - cbn [digits fold_left]. change (Z.of_nat 0) with 0.
    rewrite Z.pow_0_r, Z.mod_1_r. lia.
  - cbn [digits fold_left]. rewrite IH by exact Hbase.
    rewrite Nat2Z.inj_succ, Z.pow_succ_r by lia.
    rewrite (Z.mul_comm base (base ^ Z.of_nat n)).
    rewrite (Z.rem_mul_r x (base ^ Z.of_nat n) base) by lia.
    lia.
Qed.

Lemma number_digits base n x :
  0 < base -> number base (digits base n x) = x mod base ^ Z.of_nat n.
Proof. intros Hbase. unfold number. rewrite fold_number_digits by exact Hbase. lia. Qed.

Lemma number_bytes_of x : Uint128.ULID_wf x -> number 256 (data (bytes_of x)) = x.
Proof.
  intros Hx. unfold bytes_of. cbn [data]. rewrite number_digits by lia.
  change (256 ^ Z.of_nat 16) with (2 ^ 128). apply Z.mod_small, Hx.
Qed.

(** X7. The text of an identifier is a base-32 numeral: the 26
    characters [MarshalTo] writes are the 26 base-32 digits, most
    significant first and spelled in the alphabet, of the 128-bit value,
    which for the array is the number its 16 bytes spell in base 256. *)
Theorem MarshalTo_base32 (u : ULID) (x : Uint128.ULID) :
  ULID_wf u -> Uint128.ULID_wf x ->
  MarshalTo u = map Encoding_at (digits 32 26 (number 256 (data u))) /\
  Uint128.MarshalTo x = map Encoding_at (digits 32 26 x) /\
  Uint128.MarshalBinaryTo x = digits 256 16 x.
Proof.
  intros Hu Hx. split; [|split].
  - destruct (bytes_of_surj u Hu) as (y & Hy & <-).
    rewrite number_bytes_of by exact Hy.
    rewrite MarshalTo_map, MarshalTo_indices_digits by exact Hy. reflexivity.
  - rewrite MarshalTo_bytes_of, MarshalTo_map, MarshalTo_indices_digits by exact Hx.
    reflexivity.
  - rewrite <- bytes_of_data. reflexivity.
Qed.

Lemma MarshalTo_base32_witness :
  let u := mkULID [1; 93; 142; 92; 54; 0; 240; 15; 170; 85; 255; 128; 127; 19; 55; 196] in
  MarshalTo u = map Encoding_at (digits 32 26 (number 256 (data u))) /\
  Uint128.MarshalTo (2 ^ 127 + 12345) = map Encoding_at (digits 32 26 (2 ^ 127 + 12345)) /\
  Uint128.MarshalBinaryTo (2 ^ 127 + 12345) = digits 256 16 (2 ^ 127 + 12345).
Proof.
  intros u. apply (MarshalTo_base32 u (2 ^ 127 + 12345)).
  - split; [reflexivity|]. cbn [data].
    repeat (apply List.Forall_cons; [unfold is_byte; lia|]). apply List.Forall_nil.
  - split; [lia | reflexivity].
Defined.

Lemma fold_number_shift base ds : forall acc,
  fold_left (fun acc d => acc * base + d) ds acc
    = acc * base ^ Z.of_nat (length ds) + fold_left (fun acc d => acc * base + d) ds 0.
Proof.
  induction ds as [|e ds IH]; intros acc.
  - cbn [fold_left length]. change (Z.of_nat 0) with 0. rewrite Z.pow_0_r. lia.
  - cbn [fold_left length]. rewrite (IH (acc * base + e)), (IH (0 * base + e)).
    rewrite Nat2Z.inj_succ, Z.pow_succ_r by lia. lia.
Qed.

Lemma number_app base l1 l2 :
  number base (l1 ++ l2) = number base l1 * base ^ Z.of_nat (length l2) + number base l2.
Proof. unfold number. rewrite fold_left_app. apply fold_number_shift. Qed.

Lemma number_range base ds :
  0 < base -> Forall (fun d => 0 <= d < base) ds ->
  0 <= number base ds < base ^ Z.of_nat (length ds).
Proof.
  intros Hbase Hds. induction Hds as [|d ds Hd Hds IH].
  - cbn. lia.
  - change (d :: ds) with ([d] ++ ds). rewrite number_app, length_app. cbn [length].
    change (number base [d]) with (0 * base + d).
    change (Z.of_nat (1 + length ds)) with (Z.of_nat (Datatypes.S (length ds))).
    rewrite Nat2Z.inj_succ, Z.pow_succ_r by lia.
    pose proof (Z.pow_pos_nonneg base (Z.of_nat (length ds)) Hbase ltac:(lia)).
    nia.
Qed.

Lemma number_cons base d ds :
  number base (d :: ds) = d * base ^ Z.of_nat (length ds) + number base ds.
Proof.
  change (d :: ds) with ([d] ++ ds). rewrite number_app.
  unfold number at 1. cbn [fold_left]. lia.
Qed.

(** Of a numeral of 26 base-32 digits only the low three bits of the first
    digit fit in 128 bits. *)
Lemma number_top_digit d0 ds :
  0 <= d0 < 32 -> length ds = 25%nat -> Forall (fun d => 0 <= d < 32) ds ->
  number 32 (d0 mod 8 :: ds) = number 32 (d0 :: ds) mod 2 ^ 128.
Proof.
  intros Hd0 Hlen Hds. rewrite !number_cons, Hlen.
  pose proof (number_range 32 ds ltac:(lia) Hds) as HN. rewrite Hlen in HN.
  assert (32 ^ Z.of_nat 25 = 2 ^ 125) as E25 by reflexivity. rewrite E25 in *.
  assert (2 ^ 128 = 8 * 2 ^ 125) as -> by reflexivity.
  assert (0 < 2 ^ 125) as HP by reflexivity.
  pose proof (Z.div_mod d0 8 ltac:(lia)) as Hdm.
  pose proof (Z.mod_pos_bound d0 8 ltac:(lia)) as Hm.
  clear E25. set (P := 2 ^ 125) in *. clearbody P.
  apply Z.mod_unique_pos with (q := d0 / 8); nia.
Qed.

(** X8. Decoding a text of 26 symbols of the alphabet computes the value
    of the base-32 numeral, modulo 2^128: with each symbol read as its
    5-bit value, the scalar [UnmarshalFrom] returns is that number reduced
    modulo 2^128, and the 16 bytes the array version fills spell the same
    number in base 256. *)
Theorem UnmarshalFrom_base32 (char_signed : bool) (str : list ascii) (v : ULID) :
  valid_text str -> length (data v) = 16%nat ->
  let value := number 32 (map (D char_signed str) (seq 0 26)) in
  Uint128.UnmarshalFrom char_signed str = Some (value mod 2 ^ 128) /\
  exists u, UnmarshalFrom char_signed str v = Some u /\
            number 256 (data u) = value mod 2 ^ 128.
Proof.
  intros Hstr Hv value.
  destruct (UnmarshalFrom_valid_text char_signed str v Hstr Hv) as (u & x & Hu & Hx & Hux).
  pose proof (Uint128_UnmarshalFrom_wf _ _ _ Hx) as Hxwf.
  pose proof (MarshalTo_indices_UnmarshalFrom char_signed str v u Hstr Hv Hu) as Hidx.
  rewrite <- Hux, MarshalTo_indices_digits in Hidx by exact Hxwf.
  destruct (valid_text_reads char_signed str Hstr) as [_ Hrange].
  assert (Forall (fun d => 0 <= d < 32) (map (D char_signed str) (seq 1 25))) as Hds.
  { apply Forall_fmap, Forall_forall. intros k Hk.
    apply list_elem_of_In, in_seq in Hk. apply (Hrange k). lia. }
  assert (@eq Z x (value mod 2 ^ 128)) as Hval.
  { rewrite <- (Z.mod_small x (32 ^ Z.of_nat 26)).
    - rewrite <- (number_digits 32 26 x) by lia. rewrite Hidx.
      apply (number_top_digit (D char_signed str 0)
               (map (D char_signed str) (seq 1 25))).
      + apply (Hrange 0%nat). lia.
      + rewrite length_map, length_seq. reflexivity.
      + exact Hds.
    - unfold Uint128.ULID_wf in Hxwf.
      assert (2 ^ 128 < 32 ^ Z.of_nat 26) by reflexivity. lia. }
  split; [rewrite Hx; f_equal; exact Hval|].
  exists u. split; [exact Hu|]. rewrite <- Hux, number_bytes_of by exact Hxwf. exact Hval.
Qed.

Lemma UnmarshalFrom_base32_witness :
  let str := list_ascii_of_string "ZZZZZZZZZZZZZZZZZZZZZZZZZZ" in
  Uint128.UnmarshalFrom false str
    = Some (number 32 (map (D false str) (seq 0 26)) mod 2 ^ 128).
Proof.
  intros str. refine (proj1 (UnmarshalFrom_base32 false str ULID_zero _ eq_refl)).
  split; [cbn; lia|].
  repeat (apply List.Forall_cons; [cbn; tauto|]). apply List.Forall_nil.
Defined.

(** ** The fields of the scalar *)

Lemma Uint128_EncodeTimestamp_wf t u : Uint128.ULID_wf (Uint128.EncodeTimestamp t u).
Proof.
  unfold Uint128.EncodeTimestamp, Uint128.ULID_wf.
  let m := eval vm_compute in (u128 (u128 (1 ≪ 80) - 1)) in
  change (u128 (u128 (1 ≪ 80) - 1)) with m.
  cbv zeta. apply (lor_below 128); [lia | apply Z.mod_pos_bound; lia |].
  match goal with |- _ <= u .& ?m < _ => pose proof (land_mask_range u m ltac:(lia)) end.
  assert (1208925819614629174706175 < 2 ^ 128) by reflexivity. lia.
Qed.

(** The count of milliseconds [Time] reads from a scalar: its upper 48
    bits. *)
Lemma Uint128_Time_quotient u : Uint128.ULID_wf u -> Uint128.Time u = u / 2 ^ 80.
Proof.
  intros Hu.
  rewrite Time_bytes_of, bytes_of_eq. unfold Uint128.MarshalBinaryTo.
  destruct (Time_bytes (u8 (u ≫ 120)) (u8 (u ≫ 112)) (u8 (u ≫ 104)) (u8 (u ≫ 96))
              (u8 (u ≫ 88)) (u8 (u ≫ 80))
              [u8 (u ≫ 72); u8 (u ≫ 64); u8 (u ≫ 56); u8 (u ≫ 48); u8 (u ≫ 40);
               u8 (u ≫ 32); u8 (u ≫ 24); u8 (u ≫ 16); u8 (u ≫ 8); u8 u]
              (u8_range _) (u8_range _) (u8_range _) (u8_range _) (u8_range _)
              (u8_range _)) as [E Hr].
  unfold Uint128.ULID_wf in Hu.
  apply (bits_eq_below 48); [lia | exact Hr | |].
  - split; [apply Z.div_pos; lia|].
    apply Z.div_lt_upper_bound; [lia|]. rewrite <- Z.pow_add_r by lia. exact (proj2 Hu).
  - rewrite E. for_each_below 48%nat bit_goal.
Qed.

(** X9. In the scalar the timestamp is the upper 48 bits.  [Time] returns
    the time point of that many milliseconds: the value divided by 2^80,
    converted to the ticks of the clock, which is the quotient times the
    ticks per millisecond whenever that product is below 2^63.
    [EncodeTimestamp] replaces the quotient by the timestamp modulo 2^48
    and keeps the remainder, the 80 bits of entropy. *)
Theorem Uint128_timestamp_field (ticks_per_ms t : Z) (u : Uint128.ULID) :
  Uint128.ULID_wf u ->
  Uint128.Time_point ticks_per_ms u = time_point_of_ms ticks_per_ms (u / 2 ^ 80) /\
  (0 <= ticks_per_ms -> u / 2 ^ 80 * ticks_per_ms < 2 ^ 63 ->
   Uint128.Time_point ticks_per_ms u = u / 2 ^ 80 * ticks_per_ms) /\
  Uint128.EncodeTimestamp t u = (t mod 2 ^ 48) * 2 ^ 80 + u mod 2 ^ 80.
Proof.
  intros Hu.
  assert (Uint128.Time_point ticks_per_ms u = time_point_of_ms ticks_per_ms (u / 2 ^ 80))
    as E by (unfold Uint128.Time_point; rewrite Uint128_Time_quotient by exact Hu; reflexivity).
  split; [exact E|]. split.
  - intros Hticks Hfit. rewrite E. unfold time_point_of_ms. apply i64_small.
    assert (0 <= u / 2 ^ 80) by (apply Z.div_pos; unfold Uint128.ULID_wf in Hu; lia).
    assert (0 < 2 ^ 63) by reflexivity. nia.
  - pose proof (Uint128_EncodeTimestamp_wf t u) as Hwf.
    rewrite <- (number_bytes_of _ Hwf), EncodeTimestamp_bytes_of.
    rewrite EncodeTimestamp_digits by apply bytes_of_wf.
    unfold bytes_of at 1. cbn [data].
    change (drop 6 (digits 256 16 u)) with (digits 256 10 u).
    rewrite number_app, !number_digits, digits_length by lia.
    reflexivity.
Qed.

Lemma Uint128_timestamp_field_witness :
  let u := 1700000000123 * 2 ^ 80 + 12345 in
  Uint128.Time_point 1000000 u = u / 2 ^ 80 * 1000000 /\
  Uint128.EncodeTimestamp 1700000000124 u
    = (1700000000124 mod 2 ^ 48) * 2 ^ 80 + u mod 2 ^ 80.
Proof.
  intros u.
  destruct (Uint128_timestamp_field 1000000 1700000000124 u) as (_ & H1 & H2).
  - split; [discriminate | reflexivity].
  - split; [apply H1; [discriminate | reflexivity] | exact H2].
Defined.

(** ** [CompareULIDs] as a comparator *)

Lemma lex_compare_antisym a b : lex_compare b a = CompOpp (lex_compare a b).
Proof.
  revert b. induction a as [|x a IH]; intros [|y b]; try reflexivity.
  cbn [lex_compare]. rewrite (Z.compare_antisym x y).
  destruct (x ?= y); cbn [CompOpp]; [apply IH | reflexivity | reflexivity].
Qed.

Lemma lex_compare_trans c a b d :
  lex_compare a b = c -> lex_compare b d = c -> lex_compare a d = c.
Proof.
  revert b d. induction a as [|x a IH]; intros [|y b] [|z d]; cbn [lex_compare];
    try congruence.
  destruct (Z.compare_spec x y) as [E | Hxy | Hxy].
  - subst y. destruct (x ?= z); [apply IH | congruence | congruence].
  - intros <-. destruct (Z.compare_spec y z) as [E | Hyz | Hyz]; try congruence.
    + subst z. intros _. apply Z.compare_lt_iff in Hxy. rewrite Hxy. reflexivity.
    + intros _. assert (x < z) as H by lia. apply Z.compare_lt_iff in H.
      rewrite H. reflexivity.
  - intros <-. destruct (Z.compare_spec y z) as [E | Hyz | Hyz]; try congruence.
    + subst z. intros _. assert (y < x) as H by lia. apply Z.compare_gt_iff in H.
      rewrite H. reflexivity.
    + intros _. assert (z < x) as H by lia. apply Z.compare_gt_iff in H.
      rewrite H. reflexivity.
Qed.

Lemma sign_of_inj c c' : sign_of c = sign_of c' -> c = c'.
Proof. destruct c, c'; cbn; congruence || lia. Qed.

Lemma sign_of_opp c : sign_of (CompOpp c) = - sign_of c.
Proof. destruct c; reflexivity. Qed.

(** X10. [CompareULIDs] is a consistent three-way comparison, fit to sort
    with: swapping the arguments negates the result, and it is transitive
    (two results -1 in a row give -1, likewise for 0 and for 1).  The
    scalar version has the same two properties. *)
Theorem CompareULIDs_order (a b c : ULID) (x y z : Uint128.ULID) (r : comparison) :
  length (data a) = 16%nat -> length (data b) = 16%nat -> length (data c) = 16%nat ->
  CompareULIDs b a = - CompareULIDs a b /\
  (CompareULIDs a b = sign_of r -> CompareULIDs b c = sign_of r ->
   CompareULIDs a c = sign_of r) /\
  Uint128.CompareULIDs y x = - Uint128.CompareULIDs x y /\
  (Uint128.CompareULIDs x y = sign_of r -> Uint128.CompareULIDs y z = sign_of r ->
   Uint128.CompareULIDs x z = sign_of r).
Proof.
  intros Ha Hb Hc. unfold Uint128.ULID in *. rewrite !CompareULIDs_lex by assumption.
  rewrite !Uint128_CompareULIDs_sign. repeat split.
  - rewrite lex_compare_antisym. apply sign_of_opp.
  - intros H1 H2. apply sign_of_inj in H1, H2. f_equal.
    eapply lex_compare_trans; eassumption.
  - rewrite (Z.compare_antisym x y). apply sign_of_opp.
  - intros H1 H2. apply sign_of_inj in H1, H2. f_equal.
    destruct r.
    + apply Z.compare_eq_iff in H1. apply Z.compare_eq_iff in H2.
      apply Z.compare_eq_iff. lia.
    + apply (proj1 (Z.compare_lt_iff _ _)) in H1. apply (proj1 (Z.compare_lt_iff _ _)) in H2.
      apply Z.compare_lt_iff. lia.
    + apply (proj1 (Z.compare_gt_iff _ _)) in H1. apply (proj1 (Z.compare_gt_iff _ _)) in H2.
      apply Z.compare_gt_iff. lia.
Qed.

Lemma CompareULIDs_order_witness :
  let a := mkULID [0; 0; 0; 0; 0; 1; 9; 9; 9; 9; 9; 9; 9; 9; 9; 9] in
  let b := mkULID [0; 0; 0; 0; 0; 2; 0; 0; 0; 0; 0; 0; 0; 0; 0; 0] in
  let c := mkULID [0; 0; 0; 0; 0; 2; 0; 0; 0; 0; 0; 0; 0; 0; 0; 1] in
  CompareULIDs a c = sign_of Lt /\ Uint128.CompareULIDs 5 7 = sign_of Lt.
Proof.
  intros a b c.
  destruct (CompareULIDs_order a b c 5 6 7 Lt eq_refl eq_refl eq_refl)
    as (_ & Ht & _ & Hs).
  split; [apply Ht; reflexivity | apply Hs; reflexivity].
Defined.

(** ** [Unmarshal] does not check the length of its argument *)

Lemma c_str_length s : length (c_str s) = Datatypes.S (String.length s).
Proof.
  unfold c_str. rewrite length_app. cbn [length].
  assert (length (list_ascii_of_string s) = String.length s) as ->.
  { induction s as [|c s IH]; [reflexivity|]. cbn. f_equal. exact IH. }
  lia.
Qed.

(** X11. [Unmarshal] reads 26 characters of [str.c_str()] whatever the
    length of [str].  With fewer than 25 characters the reads leave the
    string's buffer (no result, in either representation).  With exactly
    25 seven-bit characters the 26th read is the terminator, whose table
    entry is 0xFF, and the result is an identifier ending in the byte
    0xFF. *)
Theorem Unmarshal_unchecked_length (char_signed : bool) (s : string) :
  ((String.length s < 25)%nat ->
     Unmarshal char_signed s = None /\ Uint128.Unmarshal char_signed s = None) /\
  (String.length s = 25%nat ->
   Forall (fun c => (N_of_ascii c < 128)%N) (list_ascii_of_string s) ->
   exists u, Unmarshal char_signed s = Some u /\ ULID_wf u /\ u.[15] = 0xFF).
Proof.
  split.
  - intros Hlen.
    assert (reads_defined char_signed (c_str s) = false) as H.
    { unfold reads_defined. rewrite c_str_length.
      destruct (Nat.leb_spec 26 (Datatypes.S (String.length s))); [lia | reflexivity]. }
    split.
    + unfold Unmarshal, UnmarshalFrom. rewrite H. reflexivity.
    + unfold Uint128.Unmarshal, Uint128.UnmarshalFrom.
      change (Uint128.reads_defined char_signed (c_str s))
        with (reads_defined char_signed (c_str s)).
      rewrite H. reflexivity.
  - intros Hlen Hascii.
    assert (length (list_ascii_of_string s) = 25%nat) as Hl.
    { pose proof (c_str_length s) as E. unfold c_str in E.
      rewrite length_app in E. cbn [length] in E. lia. }
    assert (ascii_text (c_str s)) as Htext.
    { split; [rewrite c_str_length; lia|].
      unfold c_str. rewrite take_ge by (rewrite length_app; cbn [length]; lia).
      apply Forall_app. split; [exact Hascii|].
      apply List.Forall_cons; [reflexivity | apply List.Forall_nil]. }
    pose proof (ascii_text_reads char_signed _ Htext) as Hreads.
    unfold Unmarshal.
    destruct (UnmarshalFrom char_signed (c_str s) ULID_zero) as [u|] eqn:E.
    + exists u. split; [reflexivity|]. split.
      * eapply UnmarshalFrom_wf; [|exact E]. reflexivity.
      * revert E. unfold UnmarshalFrom. rewrite Hreads. intros [= <-].
        unfold set, ULID_zero. cbn [data insert list_insert]. read_data.
        assert (D char_signed (c_str s) 25 = 0xFF) as ->.
        { unfold D, c_str. rewrite app_nth2 by lia. rewrite Hl.
          destruct char_signed; reflexivity. }
        apply u8_ext; [unfold is_byte; lia|].
        for_each_below 8%nat ltac:(push_testbit; eval_index; eval_literals;
                                   rewrite ?orb_true_r; reflexivity).
    + exfalso. revert E. unfold UnmarshalFrom. rewrite Hreads. discriminate.
Qed.

Lemma Unmarshal_unchecked_length_witness :
  (Unmarshal true "01ARZ3NDEKTSV4RRFFQ69G5F" = None /\
   Uint128.Unmarshal true "01ARZ3NDEKTSV4RRFFQ69G5F" = None) /\
  exists u, Unmarshal true "01ARZ3NDEKTSV4RRFFQ69G5FA" = Some u /\ ULID_wf u /\ u.[15] = 0xFF.
Proof.
  split.
  - apply (proj1 (Unmarshal_unchecked_length true "01ARZ3NDEKTSV4RRFFQ69G5F")).
    cbn. lia.
  - apply (proj2 (Unmarshal_unchecked_length true "01ARZ3NDEKTSV4RRFFQ69G5FA")).
    + reflexivity.
    + repeat (apply List.Forall_cons; [reflexivity|]). apply List.Forall_nil.
Defined.

(** ** Encoding a time point and entropy *)

Lemma Time_EncodeTimestamp t u :
  length (data u) = 16%nat -> Time (EncodeTimestamp t u) = t mod 2 ^ 48.
Proof.
  intros Hlen.
  assert (Time (EncodeTimestamp t u) = Time (EncodeTimestamp t ULID_zero)) as ->.
  { destruct (EncodeTimestamp t u) as [l] eqn:E.
    destruct (EncodeTimestamp t ULID_zero) as [l0] eqn:E0.
    apply (f_equal data) in E, E0. cbn [data] in E, E0.
    rewrite EncodeTimestamp_data in E, E0 by (exact Hlen || reflexivity).
    subst l l0. cbn [app].
    rewrite (proj1 (Time_bytes _ _ _ _ _ _ _ (u8_range _) (u8_range _) (u8_range _)
                      (u8_range _) (u8_range _) (u8_range _))).
    rewrite (proj1 (Time_bytes _ _ _ _ _ _ _ (u8_range _) (u8_range _) (u8_range _)
                      (u8_range _) (u8_range _) (u8_range _))).
    reflexivity. }
  pose proof (Time_timestamp (EncodeTimestamp t ULID_zero)
                (EncodeTimestamp_wf t _ ULID_zero_wf)) as H1.
  pose proof (bytes_to_timestamp_encoded t ULID_zero eq_refl) as H2.
  congruence.
Qed.

Lemma Time_take6 u u' :
  take 6 (data u) = take 6 (data u') ->
  (6 <= length (data u))%nat -> (6 <= length (data u'))%nat -> Time u = Time u'.
Proof.
  destruct u as [l], u' as [l']. cbn [data]. intros E Hl Hl'.
  do 6 (destruct l as [|? l]; [cbn in Hl; lia|]).
  do 6 (destruct l' as [|? l']; [cbn in Hl'; lia|]).
  cbn [take] in E. injection E as -> -> -> -> -> ->.
  unfold Time. read_data. reflexivity.
Qed.

Lemma Encode_draws {S} (ticks_per_ms : Z) (rng : S -> Z * S) tp u s :
  length (data u) = 16%nat ->
  Encode ticks_per_ms tp rng u s =
    (mkULID (digits 256 6 (Z.quot tp ticks_per_ms) ++ fst (draws rng 10 s)),
     snd (draws rng 10 s)).
Proof.
  intros Hlen. unfold Encode, EncodeTime, ms_of_time_point.
  rewrite EncodeEntropy_draws by (apply EncodeTimestamp_length, Hlen).
  rewrite EncodeTimestamp_digits by exact Hlen.
  rewrite take_app_le by (rewrite digits_length; lia).
  rewrite take_ge by (rewrite digits_length; lia). reflexivity.
Qed.

(** X12. [Encode] overwrites the whole identifier: whatever the 16 bytes
    were, the result is the six bytes of the time point's count of
    milliseconds (the count of ticks divided by the ticks per millisecond,
    truncated toward zero), most significant first, followed by the next
    ten values of the source in the order drawn.  [Create] is [Encode] on
    a zeroed identifier.  The time point [Time] returns for the result is
    that of the count modulo 2^48, converted to ticks; for a time point
    from the epoch on whose count fits the 48 bits it is the encoded time
    point rounded down to the millisecond. *)
Theorem Encode_overwrites {S} (ticks_per_ms : Z) (rng : S -> Z * S)
    (tp : Z) (u : ULID) (s : S) :
  length (data u) = 16%nat ->
  let ms := Z.quot tp ticks_per_ms in
  let '(bytes, s') := draws rng 10 s in
  Encode ticks_per_ms tp rng u s = (mkULID (digits 256 6 ms ++ bytes), s') /\
  Create ticks_per_ms tp rng s = Encode ticks_per_ms tp rng u s /\
  Time_point ticks_per_ms (fst (Encode ticks_per_ms tp rng u s))
    = time_point_of_ms ticks_per_ms (ms mod 2 ^ 48) /\
  (0 < ticks_per_ms -> 0 <= tp < 2 ^ 63 -> tp < 2 ^ 48 * ticks_per_ms ->
   Time_point ticks_per_ms (fst (Encode ticks_per_ms tp rng u s))
     = tp - tp mod ticks_per_ms).
Proof.
  intros Hlen ms. pose proof (Encode_draws ticks_per_ms rng tp u s Hlen) as E.
  pose proof (Encode_draws ticks_per_ms rng tp ULID_zero s eq_refl) as E0.
  destruct (draws rng 10 s) as [bytes s'] eqn:Hd. cbn [fst snd] in E, E0.
  split; [exact E|]. split; [unfold Create; congruence|].
  assert (Time (fst (Encode ticks_per_ms tp rng u s)) = ms mod 2 ^ 48) as Et.
  { rewrite E. cbn [fst].
    rewrite <- (Time_EncodeTimestamp ms ULID_zero eq_refl).
    apply Time_take6.
    - cbn [data]. rewrite EncodeTimestamp_digits by reflexivity.
      rewrite !take_app_le by (rewrite digits_length; lia). reflexivity.
    - cbn [data]. rewrite length_app, digits_length. lia.
    - rewrite EncodeTimestamp_length by reflexivity. lia. }
  split; [unfold Time_point; rewrite Et; reflexivity|].
  intros Hticks Htp Hfit. unfold Time_point, time_point_of_ms. rewrite Et.
  unfold ms. rewrite Z.quot_div_nonneg by lia.
  rewrite Z.mod_small
    by (split; [apply Z.div_pos; lia | apply Z.div_lt_upper_bound; lia]).
  pose proof (Z.div_mod tp ticks_per_ms ltac:(lia)) as Hdm.
  pose proof (Z.mod_pos_bound tp ticks_per_ms Hticks) as Hm.
  pose proof (Z.mod_le tp ticks_per_ms ltac:(lia) Hticks).
  assert (0 < 2 ^ 63) by reflexivity.
  rewrite i64_small by lia. lia.
Qed.

Lemma Encode_overwrites_witness :
  let u := mkULID [9; 9; 9; 9; 9; 9; 9; 9; 9; 9; 9; 9; 9; 9; 9; 9] in
  Encode 1000000 1700000000123456789 counter_source u 3%nat
    = (mkULID (digits 256 6 1700000000123 ++ [3; 4; 5; 6; 7; 8; 9; 10; 11; 12]), 13%nat) /\
  Create 1000000 1700000000123456789 counter_source 3%nat
    = Encode 1000000 1700000000123456789 counter_source u 3%nat /\
  Time_point 1000000 (fst (Encode 1000000 1700000000123456789 counter_source u 3%nat))
    = 1700000000123456789 - 1700000000123456789 mod 1000000.
Proof.
  intros u.
  destruct (Encode_overwrites 1000000 counter_source 1700000000123456789 u 3%nat eq_refl)
    as (H1 & H2 & _ & H4).
  split; [exact H1|]. split; [exact H2|].
  apply H4; [reflexivity | split; [discriminate | reflexivity] | reflexivity].
Defined.

(** X13. [EncodeTimeNow] has a resolution of one second: it encodes
    [time(nullptr)] seconds as that many thousand milliseconds, so the
    timestamp read back is [1000 * now_s] modulo 2^48, and so is the
    timestamp of an identifier made by [EncodeNowRand] or [CreateNowRand].
    [EncodeTimeSystemClockNow] keeps the milliseconds of the clock. *)
Theorem EncodeTimeNow_whole_seconds {S} (ticks_per_ms now_s now : Z)
    (rand : S -> Z * S) (RAND_MAX : Z) (u : ULID) (s : S) :
  0 < ticks_per_ms ->
  - 2 ^ 63 <= now_s * (1000 * ticks_per_ms) < 2 ^ 63 ->
  length (data u) = 16%nat ->
  Time (EncodeTimeNow ticks_per_ms now_s u) = (1000 * now_s) mod 2 ^ 48 /\
  Time (fst (EncodeNowRand ticks_per_ms now_s rand RAND_MAX u s))
    = (1000 * now_s) mod 2 ^ 48 /\
  Time (fst (CreateNowRand ticks_per_ms now_s rand RAND_MAX s))
    = (1000 * now_s) mod 2 ^ 48 /\
  Time (EncodeTimeSystemClockNow ticks_per_ms now u)
    = Z.quot now ticks_per_ms mod 2 ^ 48.
Proof.
  intros Hticks Hrange Hlen.
  assert (forall v, EncodeTimeNow ticks_per_ms now_s v = EncodeTimestamp (1000 * now_s) v) as E.
  { intros v. unfold EncodeTimeNow, EncodeTime, ms_of_time_point, from_time_t.
    rewrite i64_small by exact Hrange.
    replace (now_s * (1000 * ticks_per_ms)) with (1000 * now_s * ticks_per_ms) by lia.
    rewrite Z.quot_mul by lia. reflexivity. }
  assert (forall v, length (data v) = 16%nat ->
            Time (fst (EncodeEntropyRand rand RAND_MAX (EncodeTimestamp (1000 * now_s) v) s))
              = (1000 * now_s) mod 2 ^ 48) as Hrand.
  { intros v Hv.
    rewrite EncodeEntropyRand_draws by (apply EncodeTimestamp_length, Hv). cbn [fst].
    rewrite <- (Time_EncodeTimestamp (1000 * now_s) v Hv).
    apply Time_take6.
    - cbn [data]. rewrite take_app_le by (rewrite length_take, EncodeTimestamp_length; [lia | exact Hv]).
      rewrite take_take. reflexivity.
    - cbn [data]. rewrite length_app, length_take, EncodeTimestamp_length by exact Hv. lia.
    - rewrite EncodeTimestamp_length by exact Hv. lia. }
  repeat split.
  - rewrite E. apply Time_EncodeTimestamp, Hlen.
  - unfold EncodeNowRand. rewrite E. apply Hrand, Hlen.
  - unfold CreateNowRand, EncodeNowRand. rewrite E. apply Hrand. reflexivity.
  - unfold EncodeTimeSystemClockNow, EncodeTime, ms_of_time_point.
    apply Time_EncodeTimestamp, Hlen.
Qed.

Lemma EncodeTimeNow_whole_seconds_witness :
  Time (EncodeTimeNow 1000000 1700000000 ULID_zero) = (1000 * 1700000000) mod 2 ^ 48 /\
  Time (fst (CreateNowRand 1000000 1700000000 lcg 2147483647 42))
    = (1000 * 1700000000) mod 2 ^ 48.
Proof.
  destruct (EncodeTimeNow_whole_seconds 1000000 1700000000 1700000000123456789
              lcg 2147483647 ULID_zero 42) as (H1 & _ & H3 & _).
  - lia.
  - split; reflexivity || discriminate.
  - reflexivity.
  - split; [exact H1 | exact H3].
Defined.

(** X14. Reading the time of an identifier back gives the encoded time
    point rounded down to the millisecond: for a time point from the epoch
    on whose millisecond count fits the 48 bits, [Time] after [EncodeTime]
    is the count of ticks minus its remainder modulo the ticks per
    millisecond. *)
Theorem EncodeTime_rounds_down (ticks_per_ms tp : Z) (u : ULID) :
  0 < ticks_per_ms -> 0 <= tp < 2 ^ 63 -> tp < 2 ^ 48 * ticks_per_ms ->
  length (data u) = 16%nat ->
  Time (EncodeTime ticks_per_ms tp u) = tp / ticks_per_ms /\
  Time_point ticks_per_ms (EncodeTime ticks_per_ms tp u) = tp - tp mod ticks_per_ms.
Proof.
  intros Hticks Htp Hfit Hlen.
  assert (Time (EncodeTime ticks_per_ms tp u) = tp / ticks_per_ms) as E.
  { unfold EncodeTime, ms_of_time_point. rewrite Time_EncodeTimestamp by exact Hlen.
    rewrite Z.quot_div_nonneg by lia. apply Z.mod_small. split.
    - apply Z.div_pos; lia.
    - apply Z.div_lt_upper_bound; lia. }
  split; [exact E|].
  unfold Time_point, time_point_of_ms. rewrite E.
  pose proof (Z.div_mod tp ticks_per_ms ltac:(lia)) as Hdm.
  pose proof (Z.mod_pos_bound tp ticks_per_ms Hticks) as Hm.
  assert (0 < 2 ^ 63) by reflexivity.
  pose proof (Z.mod_le tp ticks_per_ms ltac:(lia) Hticks).
  rewrite i64_small by lia. lia.
Qed.

Lemma EncodeTime_rounds_down_witness :
  Time (EncodeTime 1000000 1700000000123456789 ULID_zero) = 1700000000123456789 / 1000000 /\
  Time_point 1000000 (EncodeTime 1000000 1700000000123456789 ULID_zero)
    = 1700000000123456789 - 1700000000123456789 mod 1000000.
Proof.
  apply (EncodeTime_rounds_down 1000000 1700000000123456789 ULID_zero).
  - lia.
  - split; reflexivity || discriminate.
  - reflexivity.
  - reflexivity.
Defined.

(** ** The scalar encoders *)

Lemma bytes_of_0 : bytes_of 0 = ULID_zero.
Proof. reflexivity. Qed.

Lemma pair_fst_snd {A B} (p : A * B) (a : A) (b : B) f :
  (f (fst p), snd p) = (a, b) -> f (fst p) = a /\ snd p = b.
Proof. intros [= -> ->]. split; reflexivity. Qed.

(** X15. The scalar encoders compute what the array encoders compute: with
    a scalar read as its 16 bytes, most significant first,
    [EncodeTimestamp], [EncodeEntropy], [EncodeEntropyRand], [Encode],
    [Create] and [CreateNowRand] of [ulid_uint128.hh] give the identifier
    that those of [ulid_struct.hh] give, and leave the source in the same
    state. *)
Theorem Uint128_encoders_agree {S} (ticks_per_ms : Z) (rng rand : S -> Z * S)
    (RAND_MAX t tp now_s : Z) (u : Uint128.ULID) (s : S) :
  (forall s, is_byte (fst (rng s))) ->
  0 < RAND_MAX < 2 ^ 31 -> (forall s, 0 <= fst (rand s) <= RAND_MAX) ->
  let via (r : Uint128.ULID * S) := (bytes_of (fst r), snd r) in
  bytes_of (Uint128.EncodeTimestamp t u) = EncodeTimestamp t (bytes_of u) /\
  via (Uint128.EncodeEntropy rng u s) = EncodeEntropy rng (bytes_of u) s /\
  via (Uint128.EncodeEntropyRand rand RAND_MAX u s)
    = EncodeEntropyRand rand RAND_MAX (bytes_of u) s /\
  via (Uint128.Encode ticks_per_ms tp rng u s) = Encode ticks_per_ms tp rng (bytes_of u) s /\
  via (Uint128.Create ticks_per_ms tp rng s) = Create ticks_per_ms tp rng s /\
  via (Uint128.CreateNowRand ticks_per_ms now_s rand RAND_MAX s)
    = CreateNowRand ticks_per_ms now_s rand RAND_MAX s.
Proof.
  intros Hrng HRM Hrand via. unfold via.
  split; [apply EncodeTimestamp_bytes_of|].
  split; [apply EncodeEntropy_bytes_of, Hrng|].
  split; [apply EncodeEntropyRand_bytes_of; assumption|].
  split; [|split].
  - unfold Uint128.Encode, Encode, Uint128.EncodeTime, EncodeTime.
    rewrite EncodeEntropy_bytes_of by exact Hrng.
    rewrite EncodeTimestamp_bytes_of. reflexivity.
  - unfold Uint128.Create, Create, Uint128.Encode, Encode, Uint128.EncodeTime, EncodeTime.
    rewrite EncodeEntropy_bytes_of by exact Hrng.
    rewrite EncodeTimestamp_bytes_of, bytes_of_0. reflexivity.
  - unfold Uint128.CreateNowRand, CreateNowRand, Uint128.EncodeNowRand, EncodeNowRand,
      Uint128.EncodeTimeNow, EncodeTimeNow, Uint128.EncodeTime, EncodeTime.
    rewrite EncodeEntropyRand_bytes_of by assumption.
    rewrite EncodeTimestamp_bytes_of, bytes_of_0. reflexivity.
Qed.

Lemma byte_counter_range s : is_byte (fst (byte_counter s)).
Proof. cbn [byte_counter fst]. apply Z.mod_pos_bound. lia. Defined.

Lemma Uint128_encoders_agree_witness :
  bytes_of (fst (Uint128.Create 1000000 1700000000123456789 byte_counter 250))
    = fst (Create 1000000 1700000000123456789 byte_counter 250) /\
  bytes_of (fst (Uint128.CreateNowRand 1000000 1700000000 lcg 2147483647 42))
    = fst (CreateNowRand 1000000 1700000000 lcg 2147483647 42).
Proof.
  destruct (Uint128_encoders_agree 1000000 byte_counter lcg 2147483647
              0 1700000000123456789 1700000000 0 250) as (_ & _ & _ & _ & H & _).
  - exact byte_counter_range.
  - split; reflexivity.
  - apply lcg_range.
  - destruct (Uint128_encoders_agree 1000000 byte_counter lcg 2147483647
              0 1700000000123456789 1700000000 0 42) as (_ & _ & _ & _ & _ & H').
    + exact byte_counter_range.
    + split; reflexivity.
    + apply lcg_range.
    + split; [exact (f_equal fst H) | exact (f_equal fst H')].
Defined.

(** X16. The scalar keeps the timestamp the way the array does: the time
    point [Time] returns after [EncodeTimestamp] is that of the timestamp
    modulo 2^48 milliseconds, converted to ticks, and filling in the
    entropy afterwards from a source of bytes does not change it;
    [_cpp_bytes_to_timestamp] of the bytes written returns the timestamp
    modulo 2^48. *)
Theorem Uint128_keeps_timestamp {S} (ticks_per_ms : Z) (rng : S -> Z * S) (t : Z)
    (u : Uint128.ULID) (s : S) :
  (forall s, is_byte (fst (rng s))) ->
  Uint128.Time_point ticks_per_ms (Uint128.EncodeTimestamp t u)
    = time_point_of_ms ticks_per_ms (t mod 2 ^ 48) /\
  Uint128.Time_point ticks_per_ms
    (fst (Uint128.EncodeEntropy rng (Uint128.EncodeTimestamp t u) s))
    = time_point_of_ms ticks_per_ms (t mod 2 ^ 48) /\
  Wrapper._cpp_bytes_to_timestamp
    (Uint128.MarshalBinaryTo
       (fst (Uint128.EncodeEntropy rng (Uint128.EncodeTimestamp t u) s)))
    = Some (t mod 2 ^ 48).
Proof.
  intros Hrng.
  assert (Uint128.Time (Uint128.EncodeTimestamp t u) = t mod 2 ^ 48) as E1.
  { rewrite Time_bytes_of, EncodeTimestamp_bytes_of.
    apply Time_EncodeTimestamp. apply bytes_of_wf. }
  assert (Uint128.Time (fst (Uint128.EncodeEntropy rng (Uint128.EncodeTimestamp t u) s))
            = t mod 2 ^ 48) as E2.
  { rewrite <- E1. rewrite !Time_bytes_of.
    pose proof (EncodeEntropy_bytes_of rng (Uint128.EncodeTimestamp t u) s Hrng) as H.
    apply (f_equal fst) in H. cbn [fst] in H. rewrite H.
    rewrite EncodeEntropy_draws by apply bytes_of_wf. cbn [fst].
    apply Time_take6; cbn [data].
    - rewrite take_app_le by (rewrite length_take; rewrite (proj1 (bytes_of_wf _)); lia).
      apply take_take.
    - rewrite length_app, length_take, (proj1 (bytes_of_wf _)). lia.
    - rewrite (proj1 (bytes_of_wf _)). lia. }
  split; [unfold Uint128.Time_point; rewrite E1; reflexivity|].
  split; [unfold Uint128.Time_point; rewrite E2; reflexivity|].
  rewrite MarshalBinaryTo_bytes_of.
  change (MarshalBinaryTo ?x) with (MarshalBinary x).
  rewrite Time_timestamp by apply bytes_of_wf.
  rewrite <- Time_bytes_of, E2. reflexivity.
Qed.

Lemma Uint128_keeps_timestamp_witness :
  Uint128.Time_point 1000000 (Uint128.EncodeTimestamp 1700000000123 (2 ^ 128 - 1))
    = time_point_of_ms 1000000 (1700000000123 mod 2 ^ 48) /\
  Wrapper._cpp_bytes_to_timestamp
    (Uint128.MarshalBinaryTo
       (fst (Uint128.EncodeEntropy byte_counter
               (Uint128.EncodeTimestamp 1700000000123 (2 ^ 128 - 1)) 0)))
    = Some (1700000000123 mod 2 ^ 48).
Proof.
  destruct (Uint128_keeps_timestamp 1000000 byte_counter 1700000000123 (2 ^ 128 - 1) 0)
    as (H1 & _ & H3).
  - exact byte_counter_range.
  - split; [exact H1 | exact H3].
Defined.

(** ** The constructor from a 64-bit value *)

Lemma ULID_from_uint64_bytes val :
  0 <= val < 2 ^ 64 -> ULID_from_uint64 val = bytes_of val.
Proof.
  intros Hval. rewrite bytes_of_eq.
  unfold ULID_from_uint64, ULID_zero, set, Uint128.MarshalBinaryTo.
  cbn [data insert list_insert]. f_equal.
  do 7 (f_equal; [symmetry; apply u8_ext; [unfold is_byte; lia|];
                  for_each_below 8%nat bit_goal|]).
  (* the lower eight bytes are the same shifts, taken 8 bits at a time *)
  f_equal. symmetry. apply u8_ext; [unfold is_byte; lia|].
  for_each_below 8%nat bit_goal.
Qed.

(** X17. [ULID(uint64_t val)] makes the identifier whose 128-bit value is
    [val]: its upper eight bytes are zero, so its timestamp is 0; the
    scalar decoded from its bytes is [val]; and the identifiers made from
    two values compare as the values do. *)
Theorem ULID_from_uint64_value (val val' : Z) :
  0 <= val < 2 ^ 64 -> 0 <= val' < 2 ^ 64 ->
  ULID_wf (ULID_from_uint64 val) /\
  take 8 (data (ULID_from_uint64 val)) = [0; 0; 0; 0; 0; 0; 0; 0] /\
  Time (ULID_from_uint64 val) = 0 /\
  Uint128.UnmarshalBinaryFrom (MarshalBinaryTo (ULID_from_uint64 val)) = Some val /\
  CompareULIDs (ULID_from_uint64 val) (ULID_from_uint64 val') = sign_of (val ?= val').
Proof.
  intros Hval Hval'.
  assert (2 ^ 64 < 2 ^ 128) as Hlt by reflexivity.
  assert (Uint128.ULID_wf val) as Hwf by (unfold Uint128.ULID_wf; lia).
  assert (Uint128.ULID_wf val') as Hwf' by (unfold Uint128.ULID_wf; lia).
  split; [rewrite ULID_from_uint64_bytes by exact Hval; apply bytes_of_wf|].
  split; [reflexivity|].
  split; [reflexivity|].
  split.
  - rewrite ULID_from_uint64_bytes by exact Hval.
    rewrite <- MarshalBinaryTo_bytes_of.
    apply Uint128_UnmarshalBinaryFrom_MarshalBinaryTo, Hwf.
  - rewrite !ULID_from_uint64_bytes by assumption.
    rewrite <- CompareULIDs_bytes_of by assumption.
    apply Uint128_CompareULIDs_sign.
Qed.

Lemma ULID_from_uint64_value_witness :
  Uint128.UnmarshalBinaryFrom (MarshalBinaryTo (ULID_from_uint64 (2 ^ 64 - 2))) = Some (2 ^ 64 - 2) /\
  CompareULIDs (ULID_from_uint64 (2 ^ 64 - 2)) (ULID_from_uint64 255) = sign_of (2 ^ 64 - 2 ?= 255).
Proof.
  destruct (ULID_from_uint64_value (2 ^ 64 - 2) 255) as (_ & _ & _ & H1 & H2).
  - split; reflexivity || discriminate.
  - split; reflexivity || discriminate.
  - split; [exact H1 | exact H2].
Defined.

(** ** The bytes [EncodeEntropyRand] draws *)

(** X18. [EncodeEntropyRand] scales [std::rand()] by [255 / RAND_MAX],
    rounding down: every byte it stores is [r * 255 / RAND_MAX] for the
    value [r] returned, it grows with [r], and it is 0xFF only when [r] is
    [RAND_MAX] itself, one value among [RAND_MAX + 1]. *)
Theorem rand_byte_scaling {S} (rand : S -> Z * S) (RAND_MAX : Z) (s s' : S) :
  0 < RAND_MAX < 2 ^ 31 ->
  0 <= fst (rand s) <= RAND_MAX -> 0 <= fst (rand s') <= RAND_MAX ->
  let r := fst (rand s) in
  let b := fst (rand_byte rand RAND_MAX s) in
  b = r * 255 / RAND_MAX /\
  0 <= b <= 255 /\
  (b = 255 <-> r = RAND_MAX) /\
  (r <= fst (rand s') -> b <= fst (rand_byte rand RAND_MAX s')).
Proof.
  intros HRM Hr Hr' r b.
  assert (forall q, 0 <= fst (rand q) <= RAND_MAX ->
            fst (rand_byte rand RAND_MAX q) = fst (rand q) * 255 / RAND_MAX /\
            0 <= fst (rand q) * 255 / RAND_MAX <= 255) as Hb.
  { intros q Hq. unfold rand_byte, bind, ret. destruct (rand q) as [x q'].
    cbn [fst] in *.
    assert (2 ^ 31 * 255 < 2 ^ 64) by reflexivity.
    assert (0 <= x * 255 / RAND_MAX <= 255) as Hdiv.
    { split; [apply Z.div_pos; lia|].
      apply Z.div_le_upper_bound; lia. }
    unfold u64. rewrite (Z.mod_small (x * 255)) by lia.
    split; [apply u8_small; lia | exact Hdiv]. }
  destruct (Hb s Hr) as [Eb Hrange]. destruct (Hb s' Hr') as [Eb' _].
  fold r in Eb, Hrange. fold b in Eb.
  split; [exact Eb|]. split; [rewrite Eb; exact Hrange|]. split.
  - rewrite Eb. split.
    + intros H255.
      assert (255 * RAND_MAX <= r * 255).
      { pose proof (Z.mul_div_le (r * 255) RAND_MAX ltac:(lia)). lia. }
      fold r in Hr. lia.
    + intros ->. rewrite (Z.mul_comm RAND_MAX), Z.div_mul by lia. reflexivity.
  - intros Hle. rewrite Eb, Eb'. apply Z.div_le_mono; [lia|]. fold r. lia.
Qed.

Lemma rand_byte_scaling_witness :
  fst (rand_byte lcg 2147483647 42) = fst (lcg 42) * 255 / 2147483647 /\
  0 <= fst (rand_byte lcg 2147483647 42) <= 255.
Proof.
  destruct (rand_byte_scaling lcg 2147483647 42 42) as (H1 & H2 & _).
  - split; reflexivity.
  - apply lcg_range.
  - apply lcg_range.
  - split; [exact H1 | exact H2].
Defined.

(** ** The wrappers of [ulid_wrapper.cpp] *)

(** X19. Converting 16 bytes to text and the text back to bytes returns
    the bytes, whichever header the wrapper is compiled with, and the two
    builds produce the same 26 characters. *)
Theorem wrapper_bytes_text_bytes (char_signed : bool) (b : list Z)
    (us us' : Struct.ULID) (uu uu' : Uint128.ULID) :
  length b = 16%nat -> Forall is_byte b ->
  Wrapper.declared Wrapper.struct_hh us -> Wrapper.declared Wrapper.struct_hh us' ->
  exists txt,
    length txt = 26%nat /\
    Wrapper._cpp_bytes_to_ulid Wrapper.struct_hh b us = Some txt /\
    Wrapper._cpp_bytes_to_ulid Wrapper.uint128_hh b uu = Some txt /\
    Wrapper._cpp_ulid_to_bytes Wrapper.struct_hh char_signed txt us' = Some b /\
    Wrapper._cpp_ulid_to_bytes Wrapper.uint128_hh char_signed txt uu' = Some b.
Proof.
  intros Hlen Hb Hs Hs'. cbn [Wrapper.declared Wrapper.struct_hh] in Hs, Hs'. subst us us'.
  assert (ULID_wf (mkULID b)) as Hwf by (split; assumption).
  exists (MarshalTo (mkULID b)). split; [reflexivity|].
  unfold Wrapper._cpp_bytes_to_ulid, Wrapper._cpp_ulid_to_bytes.
  cbn [Wrapper.UnmarshalFrom Wrapper.UnmarshalBinaryFrom Wrapper.MarshalTo
       Wrapper.MarshalBinaryTo Wrapper.struct_hh Wrapper.uint128_hh].
  destruct (Uint128_UnmarshalBinaryFrom_bytes b Hlen Hb) as (x & Hx & Hxwf & Hxb).
  assert (UnmarshalFrom char_signed (MarshalTo (mkULID b)) ULID_zero = Some (mkULID b)) as Hrt.
  { rewrite <- (app_nil_r (MarshalTo (mkULID b))).
    apply UnmarshalFrom_MarshalTo; [exact Hwf | reflexivity]. }
  split; [|split; [|split]].
  - rewrite UnmarshalBinaryFrom_data by (rewrite ?Hlen; cbn; lia).
    rewrite take_ge by lia. reflexivity.
  - rewrite Hx, MarshalTo_bytes_of, Hxb. reflexivity.
  - rewrite Hrt. f_equal. apply MarshalBinaryTo_data. exact Hlen.
  - pose proof (UnmarshalFrom_bytes_of char_signed (MarshalTo (mkULID b)) ULID_zero
                  ltac:(rewrite <- (app_nil_r (MarshalTo _)); apply MarshalTo_valid_text)
                  eq_refl) as H.
    rewrite Hrt in H.
    destruct (Uint128.UnmarshalFrom char_signed (MarshalTo (mkULID b))) as [y|];
      [|discriminate H].
    cbn [option_map] in H. assert (bytes_of y = mkULID b) as E by congruence.
    f_equal. rewrite <- bytes_of_data, E. reflexivity.
Qed.

Lemma wrapper_bytes_text_bytes_witness :
  let b := [1; 93; 142; 92; 54; 0; 240; 15; 170; 85; 255; 128; 127; 19; 55; 196] in
  exists txt,
    length txt = 26%nat /\
    Wrapper._cpp_bytes_to_ulid Wrapper.struct_hh b ULID_zero = Some txt /\
    Wrapper._cpp_bytes_to_ulid Wrapper.uint128_hh b 777 = Some txt /\
    Wrapper._cpp_ulid_to_bytes Wrapper.struct_hh true txt ULID_zero = Some b /\
    Wrapper._cpp_ulid_to_bytes Wrapper.uint128_hh true txt 999 = Some b.
Proof.
  intros b. apply (wrapper_bytes_text_bytes true b ULID_zero ULID_zero 777 999).
  - reflexivity.
  - repeat (apply List.Forall_cons; [unfold is_byte; lia|]). apply List.Forall_nil.
  - reflexivity.
  - reflexivity.
Defined.

(** What [_cpp_ulid] and [_cpp_ulid_bytes] write, in either build. *)
Lemma cpp_ulid_value {S} (rand : S -> Z * S) (RAND_MAX ticks_per_ms now : Z) (s : S)
    (ulid_u : Uint128.ULID) :
  0 < RAND_MAX < 2 ^ 31 -> (forall s, 0 <= fst (rand s) <= RAND_MAX) ->
  let ms := Z.quot now ticks_per_ms in
  let r := EncodeEntropyRand rand RAND_MAX (EncodeTimestamp ms ULID_zero) s in
  ULID_wf (fst r) /\
  data (fst r) = digits 256 6 ms ++ fst (draws (rand_byte rand RAND_MAX) 10 s) /\
  Wrapper._cpp_bytes_to_timestamp (MarshalBinaryTo (fst r)) = Some (ms mod 2 ^ 48) /\
  Wrapper._cpp_ulid_bytes Wrapper.struct_hh rand RAND_MAX ticks_per_ms now ULID_zero s
    = (MarshalBinaryTo (fst r), snd r) /\
  Wrapper._cpp_ulid_bytes Wrapper.uint128_hh rand RAND_MAX ticks_per_ms now ulid_u s
    = (MarshalBinaryTo (fst r), snd r) /\
  Wrapper._cpp_ulid Wrapper.struct_hh rand RAND_MAX ticks_per_ms now ULID_zero s
    = (MarshalTo (fst r), snd r) /\
  Wrapper._cpp_ulid Wrapper.uint128_hh rand RAND_MAX ticks_per_ms now ulid_u s
    = (MarshalTo (fst r), snd r).
Proof.
  intros HR Hrand ms r.
  pose proof (at_time_struct rand RAND_MAX s ms) as [Hwf Hts]. fold r in Hwf, Hts.
  pose proof (EncodeEntropyRand_bytes_of rand RAND_MAX
                (Uint128.EncodeTimestamp ms ulid_u) s HR Hrand) as H128.
  rewrite EncodeTimestamp_bytes_of in H128.
  rewrite (EncodeEntropyRand_after_timestamp rand RAND_MAX ms (bytes_of ulid_u) ULID_zero)
    in H128 by (apply bytes_of_wf || reflexivity).
  fold r in H128.
  assert (data (fst r) = digits 256 6 ms ++ fst (draws (rand_byte rand RAND_MAX) 10 s)) as Hd.
  { unfold r. rewrite EncodeEntropyRand_draws by (apply EncodeTimestamp_length; reflexivity).
    cbn [fst data]. rewrite EncodeTimestamp_digits by reflexivity.
    rewrite take_app_le by (rewrite digits_length; lia).
    rewrite take_ge by (rewrite digits_length; lia). reflexivity. }
  unfold Wrapper._cpp_ulid_bytes, Wrapper._cpp_ulid, Wrapper.EncodeTimeSystemClockNow,
    ms_of_time_point.
  cbn [Wrapper.EncodeTimestamp Wrapper.EncodeEntropyRand Wrapper.MarshalTo
       Wrapper.MarshalBinaryTo Wrapper.struct_hh Wrapper.uint128_hh].
  unfold bind, ret. fold ms. fold r.
  destruct r as [u s'].
  destruct (Uint128.EncodeEntropyRand rand RAND_MAX (Uint128.EncodeTimestamp ms ulid_u) s)
    as [U s128].
  cbn [fst snd] in *. injection H128 as HU Hs. subst s128.
  split; [exact Hwf|]. split; [exact Hd|]. split; [exact Hts|].
  split; [reflexivity|].
  split; [rewrite MarshalBinaryTo_bytes_of, HU; reflexivity|].
  split; [reflexivity|].
  rewrite MarshalTo_bytes_of, HU. reflexivity.
Qed.

(** X20. [_cpp_ulid] and [_cpp_ulid_bytes] make the same identifier from
    the same reading of the clock and the same state of [rand], in the
    text and in the binary form, whichever header is compiled in: its
    timestamp is the clock's count of ticks divided by the ticks per
    millisecond, truncated, modulo 2^48; the text converts back to the
    bytes. *)
Theorem cpp_ulid_now {S} (rand : S -> Z * S) (RAND_MAX ticks_per_ms now : Z) (s : S)
    (char_signed : bool) (ulid_s : ULID) (ulid_u : Uint128.ULID) :
  0 < RAND_MAX < 2 ^ 31 -> (forall s, 0 <= fst (rand s) <= RAND_MAX) ->
  Wrapper.declared Wrapper.struct_hh ulid_s ->
  let ms := Z.quot now ticks_per_ms in
  exists u s', ULID_wf u /\
    Time u = ms mod 2 ^ 48 /\
    Wrapper._cpp_bytes_to_timestamp (MarshalBinaryTo u) = Some (ms mod 2 ^ 48) /\
    Wrapper._cpp_ulid_bytes Wrapper.struct_hh rand RAND_MAX ticks_per_ms now ulid_s s
      = (MarshalBinaryTo u, s') /\
    Wrapper._cpp_ulid_bytes Wrapper.uint128_hh rand RAND_MAX ticks_per_ms now ulid_u s
      = (MarshalBinaryTo u, s') /\
    Wrapper._cpp_ulid Wrapper.struct_hh rand RAND_MAX ticks_per_ms now ulid_s s
      = (MarshalTo u, s') /\
    Wrapper._cpp_ulid Wrapper.uint128_hh rand RAND_MAX ticks_per_ms now ulid_u s
      = (MarshalTo u, s') /\
    Wrapper._cpp_ulid_to_bytes Wrapper.struct_hh char_signed (MarshalTo u) ulid_s
      = Some (MarshalBinaryTo u).
Proof.
  intros HR Hrand Hs ms. cbn [Wrapper.declared Wrapper.struct_hh] in Hs. subst ulid_s.
  destruct (cpp_ulid_value rand RAND_MAX ticks_per_ms now s ulid_u HR Hrand)
    as (Hwf & _ & Hts & H1 & H2 & H3 & H4).
  fold ms in Hwf, Hts, H1, H2, H3, H4.
  destruct (EncodeEntropyRand rand RAND_MAX (EncodeTimestamp ms ULID_zero) s) as [u s'].
  cbn [fst snd] in *.
  exists u, s'. split; [exact Hwf|].
  split.
  { pose proof (Time_timestamp u Hwf) as Ht. unfold MarshalBinary in Ht. congruence. }
  split; [exact Hts|]. split; [exact H1|]. split; [exact H2|].
  split; [exact H3|]. split; [exact H4|].
  unfold Wrapper._cpp_ulid_to_bytes.
  cbn [Wrapper.UnmarshalFrom Wrapper.MarshalBinaryTo Wrapper.struct_hh].
  rewrite <- (app_nil_r (MarshalTo u)).
  rewrite UnmarshalFrom_MarshalTo by (exact Hwf || reflexivity). reflexivity.
Qed.

Lemma cpp_ulid_now_witness :
  exists u s', ULID_wf u /\
    Time u = Z.quot 1700000000123456789 1000000 mod 2 ^ 48 /\
    Wrapper._cpp_ulid Wrapper.struct_hh lcg 2147483647 1000000 1700000000123456789 ULID_zero 42
      = (MarshalTo u, s') /\
    Wrapper._cpp_ulid Wrapper.uint128_hh lcg 2147483647 1000000 1700000000123456789 777 42
      = (MarshalTo u, s').
Proof.
  destruct (cpp_ulid_now lcg 2147483647 1000000 1700000000123456789 42 true ULID_zero 777)
    as (u & s' & Hwf & Ht & _ & _ & _ & H1 & H2 & _).
  - split; reflexivity.
  - apply lcg_range.
  - reflexivity.
  - exists u, s'. repeat split; assumption || apply Hwf.
Defined.

Lemma lex_compare_timestamps ms1 ms2 l1 l2 :
  0 <= ms1 -> ms1 < ms2 -> ms2 < 2 ^ 48 ->
  lex_compare (digits 256 6 ms1 ++ l1) (digits 256 6 ms2 ++ l2) = Lt.
Proof.
  intros H0 Hlt H48.
  rewrite lex_compare_app by (rewrite !digits_length; reflexivity).
  rewrite digits_lex by lia. change (256 ^ Z.of_nat 6) with (2 ^ 48).
  rewrite !Z.mod_small by lia.
  assert ((ms1 ?= ms2) = Lt) as -> by (apply Z.compare_lt_iff; lia). reflexivity.
Qed.

(** X21. Identifiers generated at a later millisecond sort later,
    whatever [rand] returns: if the clock readings of two calls fall in
    milliseconds [ms1 < ms2] of the 48-bit range, the text [_cpp_ulid]
    writes in the first call is below the text of the second as a string,
    and the bytes [_cpp_ulid_bytes] writes are below lexicographically, in
    either build. *)
Theorem cpp_ulid_sortable {S} (hh : Wrapper.ulid_hh) (rand : S -> Z * S)
    (RAND_MAX ticks_per_ms now1 now2 : Z) (s1 s2 : S) (ulid1 ulid2 : Wrapper.ULID hh) :
  hh = Wrapper.struct_hh \/ hh = Wrapper.uint128_hh ->
  Wrapper.declared hh ulid1 -> Wrapper.declared hh ulid2 ->
  0 < RAND_MAX < 2 ^ 31 -> (forall s, 0 <= fst (rand s) <= RAND_MAX) ->
  0 <= Z.quot now1 ticks_per_ms ->
  Z.quot now1 ticks_per_ms < Z.quot now2 ticks_per_ms ->
  Z.quot now2 ticks_per_ms < 2 ^ 48 ->
  String.compare
    (string_of_list_ascii (fst (Wrapper._cpp_ulid hh rand RAND_MAX ticks_per_ms now1 ulid1 s1)))
    (string_of_list_ascii (fst (Wrapper._cpp_ulid hh rand RAND_MAX ticks_per_ms now2 ulid2 s2)))
    = Lt /\
  lex_compare (fst (Wrapper._cpp_ulid_bytes hh rand RAND_MAX ticks_per_ms now1 ulid1 s1))
              (fst (Wrapper._cpp_ulid_bytes hh rand RAND_MAX ticks_per_ms now2 ulid2 s2))
    = Lt.
Proof.
  intros Hhh Hd1 Hd2 HR Hrand H0 Hlt H48.
  assert (forall (u1 u2 : Uint128.ULID),
    let r1 := EncodeEntropyRand rand RAND_MAX
                (EncodeTimestamp (Z.quot now1 ticks_per_ms) ULID_zero) s1 in
    let r2 := EncodeEntropyRand rand RAND_MAX
                (EncodeTimestamp (Z.quot now2 ticks_per_ms) ULID_zero) s2 in
    String.compare (string_of_list_ascii (MarshalTo (fst r1)))
                   (string_of_list_ascii (MarshalTo (fst r2))) = Lt /\
    lex_compare (MarshalBinaryTo (fst r1)) (MarshalBinaryTo (fst r2)) = Lt /\
    Wrapper._cpp_ulid_bytes Wrapper.struct_hh rand RAND_MAX ticks_per_ms now1 ULID_zero s1
      = (MarshalBinaryTo (fst r1), snd r1) /\
    Wrapper._cpp_ulid_bytes Wrapper.uint128_hh rand RAND_MAX ticks_per_ms now1 u1 s1
      = (MarshalBinaryTo (fst r1), snd r1) /\
    Wrapper._cpp_ulid Wrapper.struct_hh rand RAND_MAX ticks_per_ms now1 ULID_zero s1
      = (MarshalTo (fst r1), snd r1) /\
    Wrapper._cpp_ulid Wrapper.uint128_hh rand RAND_MAX ticks_per_ms now1 u1 s1
      = (MarshalTo (fst r1), snd r1) /\
    Wrapper._cpp_ulid_bytes Wrapper.struct_hh rand RAND_MAX ticks_per_ms now2 ULID_zero s2
      = (MarshalBinaryTo (fst r2), snd r2) /\
    Wrapper._cpp_ulid_bytes Wrapper.uint128_hh rand RAND_MAX ticks_per_ms now2 u2 s2
      = (MarshalBinaryTo (fst r2), snd r2) /\
    Wrapper._cpp_ulid Wrapper.struct_hh rand RAND_MAX ticks_per_ms now2 ULID_zero s2
      = (MarshalTo (fst r2), snd r2) /\
    Wrapper._cpp_ulid Wrapper.uint128_hh rand RAND_MAX ticks_per_ms now2 u2 s2
      = (MarshalTo (fst r2), snd r2)) as Hboth.
  { intros u1 u2 r1 r2.
    destruct (cpp_ulid_value rand RAND_MAX ticks_per_ms now1 s1 u1 HR Hrand)
      as (Hwf1 & Hdata1 & _ & A1 & A2 & A3 & A4).
    destruct (cpp_ulid_value rand RAND_MAX ticks_per_ms now2 s2 u2 HR Hrand)
      as (Hwf2 & Hdata2 & _ & B1 & B2 & B3 & B4).
    fold r1 in Hwf1, Hdata1, A1, A2, A3, A4. fold r2 in Hwf2, Hdata2, B1, B2, B3, B4.
    assert (lex_compare (data (fst r1)) (data (fst r2)) = Lt) as Hlex.
    { rewrite Hdata1, Hdata2. apply lex_compare_timestamps; assumption. }
    split; [rewrite String_compare_MarshalTo by assumption; exact Hlex|].
    split; [rewrite !MarshalBinaryTo_data by (apply Hwf1 || apply Hwf2); exact Hlex|].
    repeat split; assumption. }
  destruct Hhh as [-> | ->].
  - cbn [Wrapper.declared Wrapper.struct_hh] in Hd1, Hd2. subst ulid1 ulid2.
    destruct (Hboth 0 0) as (Ht & Hb & A1 & _ & A3 & _ & B1 & _ & B3 & _).
    rewrite A1, A3, B1, B3. cbn [fst]. split; assumption.
  - destruct (Hboth ulid1 ulid2) as (Ht & Hb & _ & A2 & _ & A4 & _ & B2 & _ & B4).
    rewrite A2, A4, B2, B4. cbn [fst]. split; assumption.
Qed.

Lemma cpp_ulid_sortable_witness :
  String.compare
    (string_of_list_ascii
       (fst (Wrapper._cpp_ulid Wrapper.uint128_hh lcg 2147483647 1000000
               1700000000123999999 777 42)))
    (string_of_list_ascii
       (fst (Wrapper._cpp_ulid Wrapper.uint128_hh lcg 2147483647 1000000
               1700000000124000000 999 7)))
    = Lt.
Proof.
  refine (proj1 (cpp_ulid_sortable Wrapper.uint128_hh lcg 2147483647 1000000
                   1700000000123999999 1700000000124000000 42 7 777 999
                   (or_intror eq_refl) _ _ _ lcg_range _ _ _)).
  - split; [lia | reflexivity].
  - split; [lia | reflexivity].
  - split; reflexivity.
  - discriminate.
  - reflexivity.
  - reflexivity.
Defined.

(** ** [_cpp_hexlify_16] *)

Lemma String_compare_map (f : Z -> ascii) (k : Z) a b :
  (forall i j, 0 <= i < k -> 0 <= j < k -> Ascii.compare (f i) (f j) = (i ?= j)) ->
  Forall (fun i => 0 <= i < k) a -> Forall (fun i => 0 <= i < k) b ->
  String.compare (string_of_list_ascii (map f a)) (string_of_list_ascii (map f b))
    = lex_compare a b.
Proof.
  intros Hf Ha. revert b. induction Ha as [|x a Hx Ha IH]; intros b Hb.
  - destruct Hb; reflexivity.
  - destruct Hb as [|y b Hy Hb]; [reflexivity|].
    cbn [map string_of_list_ascii String.compare lex_compare].
    rewrite Hf by assumption.
    destruct (x ?= y); try reflexivity. apply IH, Hb.
Qed.

Lemma nibble_cases i : 0 <= i < 16 -> In i (map Z.of_nat (seq 0 16)).
Proof.
  intros Hi. apply in_map_iff. exists (Z.to_nat i). split; [lia |].
  apply in_seq. lia.
Qed.

Lemma Ascii_compare_hex (f : Z -> ascii) :
  forallb (fun i => forallb (fun j =>
      match Ascii.compare (f i) (f j), i ?= j with
      | Eq, Eq | Lt, Lt | Gt, Gt => true
      | _, _ => false
      end) (map Z.of_nat (seq 0 16))) (map Z.of_nat (seq 0 16)) = true ->
  forall i j, 0 <= i < 16 -> 0 <= j < 16 -> Ascii.compare (f i) (f j) = (i ?= j).
Proof.
  intros H i j Hi Hj. apply nibble_cases in Hi, Hj.
  rewrite forallb_forall in H. specialize (H i Hi).
  rewrite forallb_forall in H. specialize (H j Hj).
  destruct (Ascii.compare (f i) (f j)), (i ?= j); (reflexivity || discriminate H).
Qed.

Lemma Ascii_compare_hexdigits i j :
  0 <= i < 16 -> 0 <= j < 16 ->
  Ascii.compare (Wrapper.hexdigits_at i) (Wrapper.hexdigits_at j) = (i ?= j).
Proof. apply Ascii_compare_hex. vm_compute. reflexivity. Qed.

Lemma nibbles_range b : Forall is_byte b -> Forall (fun i => 0 <= i < 16) (nibbles b).
Proof.
  induction 1 as [|c b Hc Hb IH]; [apply List.Forall_nil|].
  unfold is_byte in Hc. cbn [nibbles flat_map app].
  apply List.Forall_cons; [split; [apply Z.div_pos; lia | apply Z.div_lt_upper_bound; lia]|].
  apply List.Forall_cons; [apply Z.mod_pos_bound; lia | exact IH].
Qed.

Lemma nibbles_length b : length (nibbles b) = (2 * length b)%nat.
Proof. induction b as [|c b IH]; [reflexivity|]. cbn [nibbles flat_map app length] in *.
  unfold nibbles in IH. rewrite IH. lia. Qed.

(** Comparing two sequences of bytes digit by digit compares them. *)
Lemma lex_compare_nibbles a b :
  Forall is_byte a -> Forall is_byte b ->
  lex_compare (nibbles a) (nibbles b) = lex_compare a b.
Proof.
  intros Ha. revert b. induction Ha as [|x a Hx Ha IH]; intros b Hb.
  - destruct Hb; reflexivity.
  - destruct Hb as [|y b Hy Hb]; [reflexivity|].
    cbn [nibbles flat_map app lex_compare]. fold (nibbles a). fold (nibbles b).
    rewrite IH by exact Hb. unfold is_byte in Hx, Hy.
    pose proof (Z.div_mod x 16 ltac:(lia)). pose proof (Z.div_mod y 16 ltac:(lia)).
    pose proof (Z.mod_pos_bound x 16 ltac:(lia)). pose proof (Z.mod_pos_bound y 16 ltac:(lia)).
    destruct (Z.compare_spec (x / 16) (y / 16)) as [E | E | E].
    + destruct (Z.compare_spec (x mod 16) (y mod 16)) as [E' | E' | E'].
      * replace y with x by lia. rewrite Z.compare_refl. reflexivity.
      * assert (x < y) as L by lia. apply Z.compare_lt_iff in L. rewrite L. reflexivity.
      * assert (y < x) as L by lia. apply Z.compare_gt_iff in L. rewrite L. reflexivity.
    + assert (x < y) as L by lia. apply Z.compare_lt_iff in L. rewrite L. reflexivity.
    + assert (y < x) as L by lia. apply Z.compare_gt_iff in L. rewrite L. reflexivity.
Qed.

Lemma byte_nibbles c :
  c ≫ 4 = c / 16 /\ c .& 0x0f = c mod 16.
Proof.
  split.
  - rewrite Z.shiftr_div_pow2 by lia. reflexivity.
  - change 0x0f with (Z.ones 4). rewrite Z.land_ones by lia. reflexivity.
Qed.

(** The loop writes the digits of the bytes from [in_index] on into [dst]
    from [out_index] on, and nothing else. *)
Lemma hexlify_loop_spec n : forall bpre bs pre mid post,
  length bs = n -> length mid = (2 * n)%nat ->
  Wrapper.hexlify_loop n (bpre ++ bs) (length bpre) (length pre) (pre ++ mid ++ post)
    = pre ++ map Wrapper.hexdigits_at (nibbles bs) ++ post.
Proof.
  induction n as [|n IH]; intros bpre bs pre mid post Hbs Hmid.
  - destruct bs; [|discriminate Hbs]. destruct mid; [|cbn [length] in Hmid; lia]. reflexivity.
  - destruct bs as [|c bs]; [discriminate Hbs|].
    destruct mid as [|m1 [|m2 mid]]; [cbn [length] in Hmid; lia | cbn [length] in Hmid; lia |].
    cbn [Wrapper.hexlify_loop].
    rewrite app_nth2 by lia. rewrite Nat.sub_diag. cbn [nth].
    destruct (byte_nibbles c) as [-> ->].
    cbn [app].
    rewrite (insert_app_r_alt pre _ (length pre)) by lia. rewrite Nat.sub_diag.
    cbn [insert list_insert].
    rewrite (insert_app_r_alt pre _ (Datatypes.S (length pre))) by lia.
    replace (Datatypes.S (length pre) - length pre)%nat with 1%nat by lia.
    cbn [insert list_insert].
    specialize (IH (bpre ++ [c]) bs
                   (pre ++ [Wrapper.hexdigits_at (c / 16); Wrapper.hexdigits_at (c mod 16)])
                   mid post).
    rewrite !length_app in IH. cbn [length] in IH.
    replace (length bpre + 1)%nat with (Datatypes.S (length bpre)) in IH by lia.
    replace (length pre + 2)%nat with (Datatypes.S (Datatypes.S (length pre))) in IH by lia.
    rewrite <- !app_assoc in IH. cbn [app] in IH.
    rewrite IH by (cbn [length] in *; lia).
    cbn [nibbles flat_map map app]. reflexivity.
Qed.

(** Bytes past those the loop visits are not read. *)
Lemma hexlify_loop_reads n : forall (l1 l2 : list Z) i o d,
  (i + n <= length l1)%nat ->
  Wrapper.hexlify_loop n (l1 ++ l2) i o d = Wrapper.hexlify_loop n l1 i o d.
Proof.
  induction n as [|n IH]; intros l1 l2 i o d Hi; [reflexivity|].
  cbn [Wrapper.hexlify_loop]. rewrite app_nth1 by lia. apply IH. lia.
Qed.

Lemma hexlify_16_value b dst :
  (16 <= length b)%nat -> (32 <= length dst)%nat ->
  Wrapper._cpp_hexlify_16 b dst
    = Some (map Wrapper.hexdigits_at (nibbles (take 16 b)) ++ drop 32 dst).
Proof.
  intros Hb Hdst. unfold Wrapper._cpp_hexlify_16.
  destruct (Nat.leb_spec 16 (length b)); [|lia].
  destruct (Nat.leb_spec 32 (length dst)); [|lia].
  cbn [andb]. f_equal.
  rewrite <- (take_drop 16 b) at 1. rewrite <- (take_drop 32 dst) at 1.
  rewrite hexlify_loop_reads by (rewrite length_take; lia).
  apply (hexlify_loop_spec 16 [] (take 16 b) [] (take 32 dst) (drop 32 dst));
    rewrite length_take; lia.
Qed.

Lemma hexlify_16_take b dst out :
  Wrapper._cpp_hexlify_16 b dst = Some out ->
  (16 <= length b)%nat /\ (32 <= length dst)%nat /\
  take 32 out = map Wrapper.hexdigits_at (nibbles (take 16 b)).
Proof.
  intros Hout.
  assert ((16 <= length b)%nat /\ (32 <= length dst)%nat) as [Hb Hdst].
  { unfold Wrapper._cpp_hexlify_16 in Hout.
    destruct (Nat.leb_spec 16 (length b)); [|discriminate Hout].
    destruct (Nat.leb_spec 32 (length dst)); [|discriminate Hout]. split; assumption. }
  split; [exact Hb|]. split; [exact Hdst|].
  rewrite hexlify_16_value in Hout by assumption. injection Hout as <-.
  assert (length (map Wrapper.hexdigits_at (nibbles (take 16 b))) = 32%nat) as Hl.
  { rewrite length_map, nibbles_length, length_take. lia. }
  rewrite take_app_le, take_ge by lia. reflexivity.
Qed.

(** X22. [_cpp_hexlify_16] writes the 32 hexadecimal digits of the first
    16 bytes, two lowercase digits for each byte with the high digit
    first, over the first 32 characters of the destination, whatever they
    were; what follows them in the destination is left as it was, and
    bytes after the sixteenth are not read. *)
Theorem hexlify_16_digits (b : list Z) (dst : list ascii) :
  (16 <= length b)%nat -> (32 <= length dst)%nat -> Forall is_byte b ->
  exists out,
    Wrapper._cpp_hexlify_16 b dst = Some out /\
    length out = length dst /\
    take 32 out = map Wrapper.hexdigits_at (nibbles (take 16 b)) /\
    drop 32 out = drop 32 dst /\
    Forall (fun c => In c (list_ascii_of_string "0123456789abcdef")) (take 32 out).
Proof.
  intros Hb Hdst Hbytes. rewrite hexlify_16_value by assumption.
  eexists. split; [reflexivity|].
  assert (length (map Wrapper.hexdigits_at (nibbles (take 16 b))) = 32%nat) as Hl.
  { rewrite length_map, nibbles_length, length_take. lia. }
  split; [rewrite length_app, Hl, length_drop; lia|].
  split; [rewrite take_app_le, take_ge by lia; reflexivity|].
  split; [rewrite drop_app_ge, Hl, Nat.sub_diag by lia; reflexivity|].
  rewrite take_app_le, take_ge by lia.
  apply Forall_fmap. eapply Forall_impl; [apply nibbles_range, Forall_take, Hbytes|].
  intros i Hi. cbn beta. apply nibble_cases in Hi. revert i Hi.
  apply (proj1 (List.Forall_forall _ _)).
  cbn [seq map Z.of_nat Pos.of_succ_nat Pos.succ].
  repeat (apply List.Forall_cons; [cbn; tauto|]). apply List.Forall_nil.
Qed.

Lemma hexlify_16_digits_witness :
  let b := [1; 93; 142; 92; 54; 0; 240; 15; 170; 85; 255; 128; 127; 19; 55; 196; 99] in
  let dst := list_ascii_of_string "................................tail" in
  exists out,
    Wrapper._cpp_hexlify_16 b dst = Some out /\
    length out = length dst /\
    take 32 out = map Wrapper.hexdigits_at (nibbles (take 16 b)) /\
    drop 32 out = drop 32 dst /\
    Forall (fun c => In c (list_ascii_of_string "0123456789abcdef")) (take 32 out).
Proof.
  intros b dst. apply (hexlify_16_digits b dst).
  - cbn; lia.
  - cbn; lia.
  - repeat (apply List.Forall_cons; [unfold is_byte; lia|]). apply List.Forall_nil.
Defined.

(** X23. The hexadecimal text orders as the bytes do: comparing as strings
    the 32 characters written for two buffers gives the lexicographic
    comparison of their first 16 bytes.  In particular different bytes
    give different texts. *)
Theorem hexlify_16_order (b b' : list Z) (dst dst' out out' : list ascii) :
  Forall is_byte b -> Forall is_byte b' ->
  Wrapper._cpp_hexlify_16 b dst = Some out ->
  Wrapper._cpp_hexlify_16 b' dst' = Some out' ->
  String.compare (string_of_list_ascii (take 32 out)) (string_of_list_ascii (take 32 out'))
    = lex_compare (take 16 b) (take 16 b') /\
  (take 32 out = take 32 out' -> take 16 b = take 16 b').
Proof.
  intros Hbytes Hbytes' Hout Hout'.
  assert (forall c d o, Forall is_byte c -> Wrapper._cpp_hexlify_16 c d = Some o ->
            take 32 o = map Wrapper.hexdigits_at (nibbles (take 16 c))) as Hval.
  { intros c d o _ Ho. apply (hexlify_16_take c d o Ho). }
  assert (String.compare (string_of_list_ascii (take 32 out))
            (string_of_list_ascii (take 32 out')) = lex_compare (take 16 b) (take 16 b')) as E.
  { rewrite (Hval b dst out Hbytes Hout), (Hval b' dst' out' Hbytes' Hout').
    rewrite (String_compare_map Wrapper.hexdigits_at 16).
    - apply lex_compare_nibbles; apply Forall_take; assumption.
    - apply Ascii_compare_hexdigits.
    - apply nibbles_range, Forall_take, Hbytes.
    - apply nibbles_range, Forall_take, Hbytes'. }
  split; [exact E|].
  intros Heq. apply lex_compare_eq. rewrite <- E, Heq.
  rewrite (Hval b' dst' out' Hbytes' Hout').
  rewrite (String_compare_map Wrapper.hexdigits_at 16);
    [apply lex_compare_refl | apply Ascii_compare_hexdigits | |];
    apply nibbles_range, Forall_take, Hbytes'.
Qed.

Lemma hexlify_16_order_witness :
  let b := [1; 93; 142; 92; 54; 0; 240; 15; 170; 85; 255; 128; 127; 19; 55; 196] in
  let b' := [1; 93; 142; 92; 54; 0; 240; 15; 170; 85; 255; 128; 127; 19; 55; 197] in
  let dst := repeat NUL 32 in
  String.compare
    (string_of_list_ascii (take 32 (Wrapper.hexlify_loop 16 b 0 0 dst)))
    (string_of_list_ascii (take 32 (Wrapper.hexlify_loop 16 b' 0 0 dst)))
    = lex_compare (take 16 b) (take 16 b').
Proof.
  intros b b' dst.
  refine (proj1 (hexlify_16_order b b' dst dst _ _ _ _ eq_refl eq_refl)).
  - repeat (apply List.Forall_cons; [unfold is_byte; lia|]). apply List.Forall_nil.
  - repeat (apply List.Forall_cons; [unfold is_byte; lia|]). apply List.Forall_nil.
Defined.

(** ** [_uint64_to_bdaddr] *)

Lemma digits_16_12 a :
  digits 16 12 a =
    [ (a / 2 ^ 44) mod 2 ^ 4; (a / 2 ^ 40) mod 2 ^ 4; (a / 2 ^ 36) mod 2 ^ 4;
      (a / 2 ^ 32) mod 2 ^ 4; (a / 2 ^ 28) mod 2 ^ 4; (a / 2 ^ 24) mod 2 ^ 4;
      (a / 2 ^ 20) mod 2 ^ 4; (a / 2 ^ 16) mod 2 ^ 4; (a / 2 ^ 12) mod 2 ^ 4;
      (a / 2 ^ 8) mod 2 ^ 4; (a / 2 ^ 4) mod 2 ^ 4; (a / 2 ^ 0) mod 2 ^ 4 ].
Proof. reflexivity. Qed.

(** Two 4-bit values with the same four bits. *)
Ltac nibble_eq :=
  apply (bits_eq_below 4);
  [ lia
  | first [ apply Z.mod_pos_bound; lia
          | match goal with
            | |- _ <= ?x .& 15 < _ =>
                pose proof (land_mask_range x 15 ltac:(lia)); change (2 ^ 4) with 16; lia
            end ]
  | apply Z.mod_pos_bound; lia
  | for_each_below 4%nat bit_goal ].

Lemma uint64_to_bdaddr_digits address :
  Bluetooth._uint64_to_bdaddr address
    = colon_pairs (map Bluetooth.hex_table_at (digits 16 12 address)).
Proof.
  rewrite digits_16_12. unfold Bluetooth._uint64_to_bdaddr. cbn [map colon_pairs].
  change 0x0F with 15.
  repeat match goal with
         | |- ?x :: _ = ?x :: _ => f_equal
         | |- Bluetooth.hex_table_at _ :: _ :: _ = _ :: _ =>
             f_equal; [f_equal; nibble_eq|]
         end.
  do 2 f_equal. nibble_eq.
Qed.

Lemma digits_16_12_mod a : digits 16 12 (a mod 2 ^ 48) = digits 16 12 a.
Proof.
  rewrite !digits_16_12.
  do 11 (f_equal; [nibble_eq|]). f_equal. nibble_eq.
Qed.

Lemma Ascii_compare_hex_table i j :
  0 <= i < 16 -> 0 <= j < 16 ->
  Ascii.compare (Bluetooth.hex_table_at i) (Bluetooth.hex_table_at j) = (i ?= j).
Proof. apply Ascii_compare_hex. vm_compute. reflexivity. Qed.

Lemma String_compare_bdaddr a a' :
  String.compare (string_of_list_ascii (Bluetooth._uint64_to_bdaddr a))
                 (string_of_list_ascii (Bluetooth._uint64_to_bdaddr a'))
    = (a mod 2 ^ 48 ?= a' mod 2 ^ 48).
Proof.
  change (2 ^ 48) with (16 ^ Z.of_nat 12).
  rewrite <- (digits_lex 16 12 a a') by lia.
  rewrite !uint64_to_bdaddr_digits, !digits_16_12.
  cbn [map colon_pairs string_of_list_ascii String.compare lex_compare].
  rewrite !Ascii_compare_hex_table by (apply Z.mod_pos_bound; lia).
  change (Ascii.compare ":" ":") with Eq. cbv iota.
  reflexivity.
Qed.

(** X24. [_uint64_to_bdaddr] writes the 12 hexadecimal digits of the
    address modulo 2^48, most significant first, in uppercase, in pairs
    separated by colons: 17 characters.  The upper 16 bits of the address
    do not show. *)
Theorem uint64_to_bdaddr_text (address : Z) :
  Bluetooth._uint64_to_bdaddr address
    = colon_pairs (map Bluetooth.hex_table_at (digits 16 12 address)) /\
  length (Bluetooth._uint64_to_bdaddr address) = 17%nat /\
  Bluetooth._uint64_to_bdaddr address = Bluetooth._uint64_to_bdaddr (address mod 2 ^ 48) /\
  Forall (fun c => In c (list_ascii_of_string "0123456789ABCDEF:"))
         (Bluetooth._uint64_to_bdaddr address).
Proof.
  split; [apply uint64_to_bdaddr_digits|]. split; [reflexivity|]. split.
  - rewrite !uint64_to_bdaddr_digits, digits_16_12_mod. reflexivity.
  - assert (forall i, 0 <= i < 16 ->
              In (Bluetooth.hex_table_at i) (list_ascii_of_string "0123456789ABCDEF:")) as Hhex.
    { intros i Hi. apply nibble_cases in Hi. revert i Hi.
      apply (proj1 (List.Forall_forall _ _)).
      cbn [seq map Z.of_nat Pos.of_succ_nat Pos.succ].
      repeat (apply List.Forall_cons; [cbn; tauto|]). apply List.Forall_nil. }
    rewrite uint64_to_bdaddr_digits, digits_16_12. cbn [map colon_pairs].
    repeat (apply List.Forall_cons;
            [first [apply Hhex, Z.mod_pos_bound; lia | cbn; tauto]|]).
    apply List.Forall_nil.
Qed.

(** X25. The text of an address orders as the address does: comparing the
    texts of two 48-bit addresses as strings compares the addresses, so
    different addresses have different texts. *)
Theorem uint64_to_bdaddr_order (a a' : Z) :
  0 <= a < 2 ^ 48 -> 0 <= a' < 2 ^ 48 ->
  String.compare (string_of_list_ascii (Bluetooth._uint64_to_bdaddr a))
                 (string_of_list_ascii (Bluetooth._uint64_to_bdaddr a')) = (a ?= a') /\
  (Bluetooth._uint64_to_bdaddr a = Bluetooth._uint64_to_bdaddr a' -> a = a').
Proof.
  intros Ha Ha'.
  pose proof (String_compare_bdaddr a a') as E.
  rewrite !Z.mod_small in E by assumption.
  split; [exact E|].
  intros Heq. apply Z.compare_eq. rewrite <- E, Heq.
  pose proof (String_compare_bdaddr a' a') as E'. rewrite Z.compare_refl in E'. exact E'.
Qed.

Lemma uint64_to_bdaddr_order_witness :
  String.compare
    (string_of_list_ascii (Bluetooth._uint64_to_bdaddr 0xAABBCCDDEEFF))
    (string_of_list_ascii (Bluetooth._uint64_to_bdaddr 0xAABBCCDDEF00))
  = (0xAABBCCDDEEFF ?= 0xAABBCCDDEF00).
Proof.
  refine (proj1 (uint64_to_bdaddr_order 0xAABBCCDDEEFF 0xAABBCCDDEF00 _ _));
    split; reflexivity || discriminate.
Defined.

(** ** [_cpp_fnv1a_32] *)

Lemma fnv1a_range l : forall h,
  0 <= h < 2 ^ 32 ->
  0 <= fold_left (fun hash byte => (Z.lxor hash byte * 16777619) mod 2 ^ 32) l h < 2 ^ 32.
Proof.
  induction l as [|c l IH]; intros h Hh; [exact Hh|].
  cbn [fold_left]. apply IH. apply Z.mod_pos_bound. reflexivity.
Qed.

Lemma fnv1a_loop_fold chars : forall h,
  Fnv.fnv1a_loop chars h
    = fold_left (fun hash byte => (Z.lxor hash byte * 16777619) mod 2 ^ 32)
                (map Fnv.uchar (c_str_prefix chars)) h.
Proof.
  induction chars as [|c chars IH]; intros h; [reflexivity|].
  cbn [Fnv.fnv1a_loop c_str_prefix].
  destruct (Ascii.eqb c NUL); [reflexivity|].
  cbn [map fold_left]. rewrite IH. f_equal.
  unfold Fnv.u32. rewrite Z.mul_mod_idemp_r by discriminate.
  f_equal. apply Z.mul_comm.
Qed.

Lemma c_str_prefix_length l : (length (c_str_prefix l) <= length l)%nat.
Proof.
  induction l as [|c l IH]; [reflexivity|]. cbn [c_str_prefix].
  destruct (Ascii.eqb c NUL); cbn [length]; lia.
Qed.

Lemma c_str_prefix_NUL l1 l2 : c_str_prefix (l1 ++ NUL :: l2) = c_str_prefix l1.
Proof.
  induction l1 as [|c l1 IH]; [reflexivity|].
  cbn [app c_str_prefix]. destruct (Ascii.eqb c NUL); [reflexivity|]. f_equal. exact IH.
Qed.

Lemma list_ascii_of_string_app s1 s2 :
  list_ascii_of_string (s1 ++ s2) = list_ascii_of_string s1 ++ list_ascii_of_string s2.
Proof. induction s1 as [|c s1 IH]; [reflexivity|]. cbn. f_equal. exact IH. Qed.

Lemma list_ascii_of_string_length s : length (list_ascii_of_string s) = String.length s.
Proof. induction s as [|c s IH]; [reflexivity|]. cbn. f_equal. exact IH. Qed.

(** X26. [_cpp_fnv1a_32] is FNV-1a on 32 bits over the characters that
    precede the first zero character, read as unsigned bytes: for a string
    of fewer than 2^32 characters it returns that hash, a value below
    2^32. *)
Theorem fnv1a_32_is_fnv1a (data : string) :
  Z.of_nat (String.length data) < 2 ^ 32 ->
  exists hash,
    Fnv._cpp_fnv1a_32 data = Some hash /\
    hash = fnv1a_32 (map Fnv.uchar (c_str_prefix (list_ascii_of_string data))) /\
    0 <= hash < 2 ^ 32.
Proof.
  intros Hlen. unfold Fnv._cpp_fnv1a_32.
  pose proof (c_str_prefix_length (list_ascii_of_string data)) as Hp.
  rewrite list_ascii_of_string_length in Hp.
  destruct (Z.ltb_spec (Z.of_nat (length (c_str_prefix (list_ascii_of_string data)))) (2 ^ 32));
    [|lia].
  eexists. split; [reflexivity|]. rewrite fnv1a_loop_fold. split; [reflexivity|].
  apply fnv1a_range. split; reflexivity || discriminate.
Qed.

Lemma fnv1a_32_is_fnv1a_witness :
  exists hash,
    Fnv._cpp_fnv1a_32 "sensor.temperature" = Some hash /\
    hash = fnv1a_32 (map Fnv.uchar (c_str_prefix (list_ascii_of_string "sensor.temperature"))) /\
    0 <= hash < 2 ^ 32.
Proof.
  apply (fnv1a_32_is_fnv1a "sensor.temperature"). reflexivity.
Defined.

(** X27. The hash stops at the first zero character: what follows it does
    not change the result, so two strings that agree up to an embedded
    zero character have the same hash. *)
Theorem fnv1a_32_stops_at_NUL (s1 s2 s2' : string) :
  Fnv._cpp_fnv1a_32 (s1 ++ String NUL s2) = Fnv._cpp_fnv1a_32 s1 /\
  Fnv._cpp_fnv1a_32 (s1 ++ String NUL s2) = Fnv._cpp_fnv1a_32 (s1 ++ String NUL s2').
Proof.
  assert (forall s, Fnv._cpp_fnv1a_32 (s1 ++ String NUL s) = Fnv._cpp_fnv1a_32 s1) as H.
  { intros s. unfold Fnv._cpp_fnv1a_32.
    rewrite !fnv1a_loop_fold, list_ascii_of_string_app.
    cbn [list_ascii_of_string]. rewrite c_str_prefix_NUL. reflexivity. }
  split; [apply H | rewrite !H; reflexivity].
Qed.

(** ** The decoder checks nothing *)


(** ** The decoder checks nothing *)

(** The place of symbol [k] in a decoded identifier: the base-32 digit [k]
    of the 128-bit value, of which the first has only three bits. *)
Lemma digits_number_data u :
  ULID_wf u -> digits 32 26 (number 256 (data u)) = MarshalTo_indices u.
Proof.
  intros Hu. destruct (bytes_of_surj u Hu) as (y & Hy & <-).
  rewrite number_bytes_of, MarshalTo_indices_digits by exact Hy. reflexivity.
Qed.

(** A 5-bit field of the output compared bit by bit with what went in. *)
Ltac forget_bytes :=
  repeat match goal with
         | |- context [?x .& Zpos ?p] =>
             lazymatch x with
             | Z.lor _ _ => idtac
             | u8 _ => idtac
             end;
             let b := fresh "b" in generalize x; intros b
         end.

Ltac field_eq :=
  apply (bits_eq_below 5);
  [ lia
  | forget_bytes; index_range
  | first [ assumption
          | apply Z.mod_pos_bound; lia
          | split; [lia | reflexivity]
          | match goal with
            | |- _ <= ?k mod 2 ^ 3 < _ =>
                pose proof (Z.mod_pos_bound k (2 ^ 3) ltac:(lia));
                change (2 ^ 3) with 8 in *; change (2 ^ 5) with 32; lia
            end ]
  | for_each_below 5%nat bit_goal ].

Ltac field_cases k Hk tac :=
  do 26 (destruct k as [|k]; [clear Hk; tac|]); exfalso; lia.

Ltac eval_kept :=
  repeat match goal with
         | |- context [kept ?j] =>
             let m := eval vm_compute in (kept j) in change (kept j) with m
         end.

Lemma UnmarshalFrom_fields cs str v u :
  reads_defined cs str = true -> length (data v) = 16%nat ->
  UnmarshalFrom cs str v = Some u ->
  forall k, (k < 26)%nat ->
    nth k (MarshalTo_indices u) 0
      = (D cs str k
         .| ((if (k =? 25)%nat then 0 else D cs str (Datatypes.S k) ≫ 5)
             .& kept (Datatypes.S k)))
        mod 2 ^ (if (k =? 0)%nat then 3 else 5).
Proof.
  intros Hreads Hv. destruct v as [lv]. cbn [data] in Hv. destruct_bytes lv Hv.
  unfold UnmarshalFrom. rewrite Hreads. intros [= <-].
  unfold MarshalTo_indices, set. cbn [data insert list_insert]. read_data.
  assert (forall i, is_byte (D cs str i)) as Hb by (intros i; apply dec_at_byte).
  clear Hreads. intros k Hk.
  field_cases k Hk ltac:(
    cbn [nth Nat.eqb]; eval_kept;
    repeat (let d := fresh "d" in
           match goal with |- context [D cs str ?i] =>
             pose proof (Hb i); generalize dependent (D cs str i); intros d; intros
           end);
    field_eq).
Qed.

(** The expressions the scalar decoder or-s in are below 2^16, so each
    reaches two bytes of the result at most. *)
Lemma u8_shiftr_high e s : 0 <= e < 2 ^ 16 -> 16 <= s -> u8 (e ≫ s) = 0.
Proof.
  intros He Hs. rewrite Z.shiftr_div_pow2 by lia. rewrite Z.div_small; [reflexivity|].
  assert (2 ^ 16 <= 2 ^ s) by (apply Z.pow_le_mono_r; lia). lia.
Qed.

Lemma byte_below_16 d : is_byte d -> 0 <= d < 2 ^ 16.
Proof. unfold is_byte. intros H. assert (256 < 2 ^ 16) by reflexivity. lia. Qed.

Lemma shiftl_below_16 d k : is_byte d -> 0 <= k <= 8 -> 0 <= d ≪ k < 2 ^ 16.
Proof.
  unfold is_byte. intros Hd Hk. rewrite Z.shiftl_mul_pow2 by lia.
  assert (0 < 2 ^ k <= 2 ^ 8) by (split; [apply Z.pow_pos_nonneg; lia | apply Z.pow_le_mono_r; lia]).
  change (2 ^ 16) with (256 * 2 ^ 8). nia.
Qed.

Lemma shiftr_below_16 d k : is_byte d -> 0 <= k -> 0 <= d ≫ k < 2 ^ 16.
Proof.
  unfold is_byte. intros Hd Hk. rewrite Z.shiftr_div_pow2 by lia.
  assert (0 < 2 ^ k) by (apply Z.pow_pos_nonneg; lia).
  assert (256 < 2 ^ 16) by reflexivity.
  split; [apply Z.div_pos; lia|].
  apply Z.le_lt_trans with d; [|lia]. apply Z.div_le_upper_bound; nia.
Qed.

Ltac below_16 :=
  repeat (apply (lor_below 16); [lia | |]);
  first [ apply shiftl_below_16; [assumption | lia]
        | apply shiftr_below_16; [assumption | lia]
        | apply byte_below_16; assumption ].

Ltac drop_high :=
  repeat match goal with
         | |- context [u8 (?e ≫ Zpos ?p)] =>
             lazymatch goal with
             | H : 0 <= e < 2 ^ 16 |- _ =>
                 rewrite (u8_shiftr_high e (Zpos p) H ltac:(lia))
             | _ =>
                 let H := fresh "He" in assert (0 <= e < 2 ^ 16) as H by below_16
             end
         end;
  repeat match goal with H : 0 <= _ < 2 ^ 16 |- _ => clear H end;
  rewrite ?Z.lor_0_r.

Lemma Uint128_UnmarshalFrom_fields cs str x :
  reads_defined cs str = true ->
  Uint128.UnmarshalFrom cs str = Some x ->
  forall k, (k < 26)%nat ->
    nth k (MarshalTo_indices (bytes_of x)) 0
      = (D cs str k .| (if (k =? 25)%nat then 0 else D cs str (Datatypes.S k) ≫ 5))
        mod 2 ^ (if (k =? 0)%nat then 3 else 5).
Proof.
  intros Hreads. unfold Uint128.UnmarshalFrom.
  change (Uint128.reads_defined cs str) with (reads_defined cs str).
  change (Uint128.D cs str) with (D cs str).
  rewrite Hreads. intros [= <-]. clear Hreads.
  rewrite bytes_of_eq. unfold MarshalTo_indices, Uint128.MarshalBinaryTo. read_data.
  peel_bytes.
  assert (forall i, is_byte (D cs str i)) as Hb by (intros i; apply dec_at_byte).
  generalize dependent (D cs str). intros d Hb.
  pose proof (fun i (_ : In i (seq 0 27)) => Hb i) as Hall.
  apply (proj2 (List.Forall_forall _ _)) in Hall. cbn [seq] in Hall.
  repeat match type of Hall with
         | Forall _ (_ :: _) => apply Forall_cons in Hall; destruct Hall as [? Hall]
         end.
  clear Hall Hb.
  drop_high.
  intros k Hk.
  field_cases k Hk ltac:(cbn [nth Nat.eqb]; field_eq).
Qed.

(** What a field holds when the symbol is, or is not, of the alphabet. *)
Lemma field_saturated above n :
  0 <= n <= 8 -> (0xFF .| above) mod 2 ^ n = 2 ^ n - 1.
Proof.
  intros Hn. replace (2 ^ n - 1) with (Z.ones n) by (rewrite Z.ones_equiv; lia).
  apply Z.bits_inj'. intros i Hi. destruct (Z.lt_ge_cases i n) as [Hlt | Hge].
  - rewrite Z.mod_pow2_bits_low, Z.ones_spec_low, Z.lor_spec by lia.
    change 0xFF with (Z.ones 8). rewrite Z.ones_spec_low by lia. reflexivity.
  - rewrite Z.mod_pow2_bits_high, Z.ones_spec_high by lia. reflexivity.
Qed.

Lemma index_nothing_above d : is_index d -> d ≫ 5 = 0.
Proof.
  unfold is_index. intros Hd. rewrite Z.shiftr_div_pow2 by lia.
  apply Z.div_small. change (2 ^ 5) with 32. lia.
Qed.

(** C5, as the code has it: the decoder checks nothing.  Every text of 26
    seven-bit characters yields an identifier, in both representations,
    whether or not its characters belong to the alphabet.  A character is
    outside the alphabet exactly when the table maps it to the sentinel
    0xFF, and the table's value enters the shifts unchecked and unmasked:
    each five-bit field of the decoded identifier (three bits for the
    first) is the symbol's table entry or-ed with what the entry of the
    symbol to its right has above its fifth bit, as far as the byte array
    keeps it.  So the field of a symbol outside the alphabet is all ones,
    and a symbol of the alphabet whose right neighbour is of the alphabet
    too comes out as its own value. *)
Theorem UnmarshalFrom_unvalidated (char_signed : bool) (str : list ascii) :
  ascii_text str ->
  exists u x,
    UnmarshalFrom char_signed str ULID_zero = Some u /\ ULID_wf u /\
    Uint128.UnmarshalFrom char_signed str = Some x /\
    forall k, (k < 26)%nat ->
      let alphabet := list_ascii_of_string "0123456789ABCDEFGHJKMNPQRSTVWXYZ" in
      let field_u := nth k (digits 32 26 (number 256 (data u))) 0 in
      let field_x := nth k (digits 32 26 x) 0 in
      let width := if (k =? 0)%nat then 3 else 5 in
      let above :=
        if (k =? 25)%nat then 0 else D char_signed str (Datatypes.S k) ≫ 5 in
      (D char_signed str k = 0xFF <-> ~ In (nth k str NUL) alphabet) /\
      field_u = (D char_signed str k .| (above .& kept (Datatypes.S k))) mod 2 ^ width /\
      field_x = (D char_signed str k .| above) mod 2 ^ width /\
      (~ In (nth k str NUL) alphabet ->
         field_u = (if (k =? 0)%nat then 7 else 31) /\
         field_x = (if (k =? 0)%nat then 7 else 31)) /\
      (In (nth k str NUL) alphabet ->
       k = 25%nat \/ In (nth (Datatypes.S k) str NUL) alphabet ->
         field_u = (if (k =? 0)%nat then D char_signed str k mod 8 else D char_signed str k) /\
         field_x = (if (k =? 0)%nat then D char_signed str k mod 8 else D char_signed str k)).
Proof.
  intros Hstr. pose proof (ascii_text_reads char_signed str Hstr) as Hreads.
  assert (exists u, UnmarshalFrom char_signed str ULID_zero = Some u) as [u Hu]
    by (unfold UnmarshalFrom; rewrite Hreads; eauto).
  assert (exists x, Uint128.UnmarshalFrom char_signed str = Some x) as [x Hx].
  { unfold Uint128.UnmarshalFrom.
    change (Uint128.reads_defined char_signed str) with (reads_defined char_signed str).
    rewrite Hreads. eauto. }
  pose proof (UnmarshalFrom_wf char_signed str ULID_zero u eq_refl Hu) as Hwf.
  pose proof (Uint128_UnmarshalFrom_wf char_signed str x Hx) as Hxwf.
  exists u, x. split; [exact Hu|]. split; [exact Hwf|]. split; [exact Hx|].
  intros k Hk alphabet field_u field_x width above.
  assert (forall j, (j < 26)%nat -> (N_of_ascii (nth j str NUL) < 128)%N) as Hascii.
  { intros j Hj. destruct Hstr as [Hlen Hall]. rewrite Forall_forall in Hall. apply Hall.
    apply list_elem_of_lookup. exists j. rewrite lookup_take_lt by lia.
    destruct (lookup_lt_is_Some_2 str j) as [c Hc]; [lia|].
    rewrite (nth_lookup_Some _ _ NUL _ Hc). exact Hc. }
  destruct (dec_sentinel char_signed (nth k str NUL) (Hascii k Hk)) as [Hsent Hidx].
  fold (D char_signed str k) in Hsent, Hidx. fold alphabet in Hsent, Hidx.
  pose proof (UnmarshalFrom_fields char_signed str ULID_zero u Hreads eq_refl Hu k Hk)
    as Hfu.
  pose proof (Uint128_UnmarshalFrom_fields char_signed str x Hreads Hx k Hk) as Hfx.
  rewrite <- (digits_number_data u Hwf) in Hfu.
  rewrite (MarshalTo_indices_digits x Hxwf) in Hfx.
  fold field_u above width in Hfu. fold field_x above width in Hfx.
  assert (0 <= width <= 8 /\ 2 ^ width - 1 = (if (k =? 0)%nat then 7 else 31)
          /\ 2 ^ width = (if (k =? 0)%nat then 8 else 32)) as (Hw & Hones & Hpow)
    by (unfold width; destruct (k =? 0)%nat; repeat split; lia).
  split; [exact Hsent|]. split; [exact Hfu|]. split; [exact Hfx|]. split.
  - intros Hout. apply Hsent in Hout. rewrite Hfu, Hfx, Hout, <- Hones.
    split; apply field_saturated; exact Hw.
  - intros Hin Hnext. apply Hidx in Hin.
    assert (above = 0) as ->.
    { unfold above. destruct (k =? 25)%nat eqn:E; [reflexivity|].
      apply index_nothing_above.
      destruct Hnext as [-> | Hn]; [discriminate E|].
      apply (dec_sentinel char_signed (nth (Datatypes.S k) str NUL));
        [apply Hascii; apply Nat.eqb_neq in E; lia | exact Hn]. }
    rewrite Hfu, Hfx, Z.land_0_l, Z.lor_0_r, Hpow. unfold is_index in Hin.
    destruct (k =? 0)%nat; [split; reflexivity|].
    rewrite Z.mod_small by lia. split; reflexivity.
Qed.

Lemma UnmarshalFrom_unvalidated_witness :
  let str := list_ascii_of_string "0000000000000000000000000a" in
  ascii_text str /\
  exists u x,
    UnmarshalFrom true str ULID_zero = Some u /\
    Uint128.UnmarshalFrom true str = Some x /\
    (D true str 25 = 0xFF <->
       ~ In (nth 25 str NUL) (list_ascii_of_string "0123456789ABCDEFGHJKMNPQRSTVWXYZ")) /\
    nth 25 (digits 32 26 (number 256 (data u))) 0 = 31 /\
    nth 25 (digits 32 26 x) 0 = 31.
Proof.
  intros str.
  assert (ascii_text str) as Hstr.
  { split; [cbn; lia|]. cbn [take list_ascii_of_string str].
    repeat (apply List.Forall_cons; [reflexivity|]). apply List.Forall_nil. }
  split; [exact Hstr|].
  destruct (UnmarshalFrom_unvalidated true str Hstr) as (u & x & Hu & _ & Hx & Hk).
  destruct (Hk 25%nat ltac:(lia)) as (Hsent & _ & _ & Hout & _).
  exists u, x. split; [exact Hu|]. split; [exact Hx|]. split; [exact Hsent|].
  apply Hout. cbn. intros H. repeat (destruct H as [H|H]; [discriminate H|]). exact H.
Defined.
